(** * A shallow embedding of [advanced-vector/vector.h]

    The header defines two class templates: [RawMemory<T>], the owner of a
    block of raw storage, and [Vector<T>], which keeps [size_] live
    elements at the front of such a block.

    The embedding keeps the shape of the C++ code:
    - memory obtained from [operator new] is a heap of blocks, a block
      being a list of slots; a slot is [None] (raw storage, no object) or
      [Some v] (a live object of value [v]);
    - [Vector] objects live in an object store and are handled through
      their address, so that [this != &rhs] can be written as in the
      source and aliasing is visible;
    - every method is a computation in a state monad with three outcomes:
      normal return, an exception in flight (with the state after
      unwinding), or undefined behaviour (a failed [assert], an access
      outside a block or to a slot holding no object, an invalid range);
    - the places where C++ may throw ([operator new], the constructors and
      the assignments of the element type) consult a schedule of faults,
      so theorems quantify over every pattern of failures;
    - a log records the allocations and the element operations performed.

    Sizes and positions are natural numbers, and a block of [n] slots is
    a list of length [n].  The source computes in machine integers at two
    places that a caller can reach with a number of its own choice:
    [Allocate] asks [operator new] for [n * sizeof(T)] bytes, a product
    in [size_t], and [Emplace] and [Erase] narrow [pos - begin()] to
    [int].  The model follows the source where these computations are
    exact, which [fits_size_t] and [fits_int] say; the theorems about a
    requested size or a position assume them and say nothing beyond. *)

From stdpp Require Import base tactics numbers option list gmap.

Set Default Proof Using "Type".

(** ** The element type *)

(** What the container needs to know about [T]: the value produced by
    value-initialisation, the state a moved-from object is left in, the
    two traits tested by [if constexpr], and [sizeof(T)]. *)
Class Element (T : Type) := {
  value_init : T;
  moved_from : T → T;
  is_nothrow_move_constructible : bool;
  is_copy_constructible : bool;
  sizeof_T : positive;
}.

(** [n * sizeof(T)], the argument of [operator new] in [Allocate], is
    computed in [size_t]: it is the number of bytes of [n] elements when
    the product is below [2^64], and wraps otherwise. *)
Definition fits_size_t {T} `{!Element T} (n : nat) : Prop :=
  (Z.of_nat n * Z.pos sizeof_T < 2 ^ 64)%Z.

(** [int pos_num = pos - begin()] in [Emplace] and [Erase] is the position
    when it is below [2^31]; a larger one does not survive the narrowing
    to [int]. *)
Definition fits_int (pos : nat) : Prop := (Z.of_nat pos < 2 ^ 31)%Z.

(** Addresses of [Vector] objects and of heap blocks. *)
Abbreviation addr := nat.

(** A pointer [T*]: the block it points into ([None] for [nullptr]) and the
    offset, counted in elements. *)
Abbreviation ptr := (option addr * nat)%type.

Definition ptr_add (p : ptr) (k : nat) : ptr := (p.1, p.2 + k).

(** The operations recorded in the log. *)
Inductive event :=
  | Alloc | Dealloc
  | DefaultCtor | ArgsCtor | CopyCtor | MoveCtor
  | CopyAssign | MoveAssign
  | Dtor.

Global Instance event_eq_dec : EqDecision event.
Proof. solve_decision. Defined.

(** The constructor selected by the arguments forwarded to [Emplace] and
    [EmplaceBack]. *)
Inductive ctor_kind := FromArgs | FromCopy | FromMove.

(** ** RawMemory and Vector records *)

Record RawMemory := mkRawMemory {
  buffer_ : option addr;
  capacity_ : nat;
}.

Record Vector := mkVector {
  data_ : RawMemory;
  size_ : nat;
}.

Global Instance RawMemory_eq_dec : EqDecision RawMemory.
Proof. solve_decision. Defined.
Global Instance Vector_eq_dec : EqDecision Vector.
Proof. solve_decision. Defined.

(** ** The state and the monad *)

Section Machine.
Context {T : Type} `{!Element T}.

Record World := mkWorld {
  objs : gmap addr Vector;            (* the Vector objects *)
  heap : gmap addr (list (option T)); (* the blocks of raw storage *)
  next_block : addr;                  (* the next block [operator new] hands out *)
  faults : list bool;                 (* [true]: the next fallible step throws *)
  log : list event;
}.

Definition set_objs (f : gmap addr Vector → gmap addr Vector) (w : World) : World :=
  mkWorld (f (objs w)) (heap w) (next_block w) (faults w) (log w).
Definition set_heap (f : gmap addr (list (option T)) → gmap addr (list (option T)))
    (w : World) : World :=
  mkWorld (objs w) (f (heap w)) (next_block w) (faults w) (log w).

Inductive result (A : Type) :=
  | Ok (a : A) (w : World)
  | Throw (w : World)
  | Undefined.
Global Arguments Ok {A} a w.
Global Arguments Throw {A} w.
Global Arguments Undefined {A}.

Definition M (A : Type) : Type := World → result A.

Definition ret {A} (a : A) : M A := λ w, Ok a w.
Definition bind {A B} (m : M A) (f : A → M B) : M B :=
  λ w, match m w with
       | Ok a w' => f a w'
       | Throw w' => Throw w'
       | Undefined => Undefined
       end.
Definition undefined {A} : M A := λ _, Undefined.

(** [on_throw m cleanup] runs [cleanup] while an exception leaving [m]
    unwinds a scope or passes a [catch (...) { ...; throw; }]. *)
Definition on_throw {A} (m : M A) (cleanup : M unit) : M A :=
  λ w, match m w with
       | Throw w' =>
           match cleanup w' with
           | Ok _ w'' => Throw w''
           | Throw w'' => Throw w''
           | Undefined => Undefined
           end
       | r => r
       end.

End Machine.

Global Arguments World T : clear implicits.
Global Arguments M T A : clear implicits.
Global Arguments result T A : clear implicits.

Notation "x ← m ; k" := (bind m (λ x, k))
  (at level 20, m at level 100, k at level 200, only parsing, right associativity).
Notation "m ;; k" := (bind m (λ _, k))
  (at level 100, k at level 200, only parsing, right associativity).

(** ** Primitive steps *)

Section Primitives.
Context {T : Type} `{!Element T}.

(** A step that C++ allows to throw reads the fault schedule; an exhausted
    schedule means no further failure. *)
Definition tick : M T unit := λ w,
  match faults w with
  | [] => Ok tt w
  | true :: fs => Throw (mkWorld (objs w) (heap w) (next_block w) fs (log w))
  | false :: fs => Ok tt (mkWorld (objs w) (heap w) (next_block w) fs (log w))
  end.

Definition emit (e : event) : M T unit := λ w,
  Ok tt (mkWorld (objs w) (heap w) (next_block w) (faults w) (log w ++ [e])).

(** Which operations may throw: [operator new], every constructor and
    assignment of [T], except the move constructor of a type whose move
    construction is [noexcept]; destructors and [operator delete] never. *)
Definition may_throw (e : event) : bool :=
  match e with
  | Dealloc | Dtor => false
  | MoveCtor => negb is_nothrow_move_constructible
  | _ => true
  end.

(** The operation [e] runs: it throws, or completes and is logged. *)
Definition perform (e : event) : M T unit :=
  (if may_throw e then tick else ret tt);; emit e.

(** The slot a pointer designates; undefined for [nullptr], a released
    block, or an offset outside the block. *)
Definition peek (p : ptr) : M T (option T) := λ w,
  match p.1 with
  | None => Undefined
  | Some b =>
      match heap w !! b with
      | None => Undefined
      | Some blk =>
          match blk !! p.2 with
          | None => Undefined
          | Some s => Ok s w
          end
      end
  end.

Definition poke (p : ptr) (s : option T) : M T unit := λ w,
  match p.1 with
  | None => Undefined
  | Some b =>
      match heap w !! b with
      | None => Undefined
      | Some blk =>
          if decide (p.2 < length blk)
          then Ok tt (set_heap <[b := <[p.2 := s]> blk]> w)
          else Undefined
      end
  end.

(** Reading through a pointer needs a live object. *)
Definition load (p : ptr) : M T T :=
  s ← peek p; match s with Some v => ret v | None => undefined end.

(** [new (dst) T(x)] for a value [x] supplied by the caller. *)
Definition event_of (how : ctor_kind) : event :=
  match how with FromArgs => ArgsCtor | FromCopy => CopyCtor | FromMove => MoveCtor end.

Definition construct_from (how : ctor_kind) (dst : ptr) (x : T) : M T unit :=
  _ ← peek dst; perform (event_of how);; poke dst (Some x).

(** [new (dst) T()] *)
Definition value_construct (dst : ptr) : M T unit :=
  _ ← peek dst; perform DefaultCtor;; poke dst (Some value_init).

(** Placement new at [dst], copy-constructing from the object at [src]. *)
Definition copy_construct (dst src : ptr) : M T unit :=
  v ← load src; _ ← peek dst; perform CopyCtor;; poke dst (Some v).

(** Placement new at [dst], move-constructing from the object at [src]:
    the source stays alive, moved-from. *)
Definition move_construct (dst src : ptr) : M T unit :=
  v ← load src; _ ← peek dst; perform MoveCtor;;
  poke dst (Some v);; poke src (Some (moved_from v)).

(** Copy assignment of the object at [src] to the object at [dst]. *)
Definition copy_assign (dst src : ptr) : M T unit :=
  v ← load src; _ ← load dst; perform CopyAssign;; poke dst (Some v).

(** Move assignment of the object at [src] to the object at [dst]. *)
Definition move_assign (dst src : ptr) : M T unit :=
  v ← load src; _ ← load dst; perform MoveAssign;;
  poke dst (Some v);; poke src (Some (moved_from v)).

(** Move assignment of a local [x] to the object at [dst]. *)
Definition move_assign_from (dst : ptr) (x : T) : M T unit :=
  _ ← load dst; perform MoveAssign;; poke dst (Some x).

(** [std::destroy_at(p)]: ends the lifetime of the object at [p], which
    must be alive.  All element types are treated alike: a type with a
    trivial destructor, for which the library call does nothing, is not
    told apart. *)
Definition destroy_at (p : ptr) : M T unit :=
  _ ← load p; perform Dtor;; poke p None.

(** ** The algorithms of <memory> and <algorithm> used by the header *)

(** The [uninitialized_*] algorithms destroy what they have built when a
    constructor throws, then rethrow.  The standard leaves the order of
    these destructions unspecified; here the last object built is
    destroyed first.  The order shows in the log only as a run of [Dtor]
    events, so nothing below depends on it. *)
Fixpoint uninitialized_copy_n (first : ptr) (n : nat) (d_first : ptr) : M T unit :=
  match n with
  | 0 => ret tt
  | S n' =>
      copy_construct d_first first;;
      on_throw (uninitialized_copy_n (ptr_add first 1) n' (ptr_add d_first 1))
               (destroy_at d_first)
  end.

Fixpoint uninitialized_move_n (first : ptr) (n : nat) (d_first : ptr) : M T unit :=
  match n with
  | 0 => ret tt
  | S n' =>
      move_construct d_first first;;
      on_throw (uninitialized_move_n (ptr_add first 1) n' (ptr_add d_first 1))
               (destroy_at d_first)
  end.

Fixpoint uninitialized_value_construct_n (first : ptr) (n : nat) : M T unit :=
  match n with
  | 0 => ret tt
  | S n' =>
      value_construct first;;
      on_throw (uninitialized_value_construct_n (ptr_add first 1) n')
               (destroy_at first)
  end.

Fixpoint destroy_n (first : ptr) (n : nat) : M T unit :=
  match n with
  | 0 => ret tt
  | S n' => destroy_at first;; destroy_n (ptr_add first 1) n'
  end.

Fixpoint copy_n (first : ptr) (n : nat) (d_first : ptr) : M T unit :=
  match n with
  | 0 => ret tt
  | S n' => copy_assign d_first first;; copy_n (ptr_add first 1) n' (ptr_add d_first 1)
  end.

Fixpoint move_n (first : ptr) (n : nat) (d_first : ptr) : M T unit :=
  match n with
  | 0 => ret tt
  | S n' => move_assign d_first first;; move_n (ptr_add first 1) n' (ptr_add d_first 1)
  end.

(** [std::move(first, last, d_first)]: [[first, last)] must be a range. *)
Definition std_move (first last d_first : ptr) : M T unit :=
  if decide (first.1 = last.1 ∧ first.2 ≤ last.2)
  then move_n first (last.2 - first.2) d_first
  else undefined.

(** [std::move_backward(first, last, d_last)] assigns from the last element
    of the range down to the first. *)
Fixpoint move_backward_n (last : ptr) (n : nat) (d_last : ptr) : M T unit :=
  match n with
  | 0 => ret tt
  | S n' =>
      match last.2, d_last.2 with
      | S l, S d =>
          move_assign (d_last.1, d) (last.1, l);;
          move_backward_n (last.1, l) n' (d_last.1, d)
      | _, _ => undefined
      end
  end.

Definition move_backward (first last d_last : ptr) : M T unit :=
  if decide (first.1 = last.1 ∧ first.2 ≤ last.2)
  then move_backward_n last (last.2 - first.2) d_last
  else undefined.

End Primitives.

(** ** class RawMemory *)

Module RawMemory.
Section Methods.
Context {T : Type} `{!Element T}.

(** [static T* Allocate(size_t n)]: [operator new] for [n != 0], else
    [nullptr].  The fresh block holds no object.  It has [n] slots: this
    is what [operator new(n * sizeof(T))] gives for [fits_size_t n]; for
    a larger [n] the product wraps and the source gets a smaller block,
    which the model does not follow. *)
Definition Allocate (n : nat) : M T (option addr) :=
  if decide (n ≠ 0) then
    perform Alloc;;
    λ w, let b := next_block w in
         Ok (Some b) (mkWorld (objs w) (<[b := replicate n None]> (heap w))
                              (S b) (faults w) (log w))
  else ret None.

(** [static void Deallocate(T* buf)]: [operator delete]; nothing for
    [nullptr], undefined for a block already released. *)
Definition Deallocate (buf : option addr) : M T unit :=
  match buf with
  | None => ret tt
  | Some b =>
      λ w, match heap w !! b with
           | None => Undefined
           | Some _ => emit Dealloc (set_heap (delete b) w)
           end
  end.

(** [RawMemory() = default] *)
Definition empty : RawMemory := mkRawMemory None 0.

(** [explicit RawMemory(size_t capacity)] *)
Definition ctor (capacity : nat) : M T RawMemory :=
  buf ← Allocate capacity; ret (mkRawMemory buf capacity).

(** [RawMemory(RawMemory&& other)]: the new object and what is left of
    [other]. *)
Definition move_ctor (other : RawMemory) : RawMemory * RawMemory :=
  (mkRawMemory (buffer_ other) (capacity_ other), mkRawMemory None 0).

(** [operator=(RawMemory&& rhs)]: both members of [this] are overwritten
    by [std::exchange]; the result is the new [this] and the new [rhs]. *)
Definition move_assign (this rhs : RawMemory) : RawMemory * RawMemory :=
  (mkRawMemory (buffer_ rhs) (capacity_ rhs), mkRawMemory None 0).

(** [~RawMemory()] *)
Definition dtor (this : RawMemory) : M T unit := Deallocate (buffer_ this).

(** [operator+(size_t offset)] *)
Definition plus (this : RawMemory) (offset : nat) : M T ptr :=
  if decide (offset ≤ capacity_ this) then ret (buffer_ this, offset) else undefined.

(** [operator[](size_t index)]: the reference is the address of the slot. *)
Definition index (this : RawMemory) (i : nat) : M T ptr :=
  if decide (i < capacity_ this) then ret (buffer_ this, i) else undefined.

(** [Swap(RawMemory& other)]: the new [this] and the new [other]. *)
Definition Swap (this other : RawMemory) : RawMemory * RawMemory := (other, this).

Definition GetAddress (this : RawMemory) : ptr := (buffer_ this, 0).

Definition Capacity (this : RawMemory) : nat := capacity_ this.

End Methods.
End RawMemory.

(** ** class Vector *)

Module Vector.
Section Methods.
Context {T : Type} `{!Element T}.

(** Access to the members of the object at address [this]. *)
Definition get (this : addr) : M T Vector := λ w,
  match objs w !! this with
  | Some v => Ok v w
  | None => Undefined
  end.

Definition put (this : addr) (v : Vector) : M T unit := λ w,
  Ok tt (set_objs <[this := v]> w).

Definition set_data (this : addr) (d : RawMemory) : M T unit :=
  v ← get this; put this (mkVector d (size_ v)).

Definition set_size (this : addr) (n : nat) : M T unit :=
  v ← get this; put this (mkVector (data_ v) n).

(** An object comes to life at an address that holds none. *)
Definition new_object (this : addr) (v : Vector) : M T unit := λ w,
  match objs w !! this with
  | None => Ok tt (set_objs <[this := v]> w)
  | Some _ => Undefined
  end.

Definition end_object (this : addr) : M T unit := λ w,
  Ok tt (set_objs (delete this) w).

(** The address of a local variable of class type. *)
Definition local_addr : M T addr := λ w, Ok (fresh (dom (objs w))) w.

(** [size_t Size() const] and [size_t Capacity() const] *)
Definition Size (this : addr) : M T nat := v ← get this; ret (size_ v).
Definition Capacity (this : addr) : M T nat :=
  v ← get this; ret (RawMemory.Capacity (data_ v)).

(** [begin()] and [end()] *)
Definition begin_ (this : addr) : M T ptr :=
  v ← get this; ret (RawMemory.GetAddress (data_ v)).
Definition end_ (this : addr) : M T ptr :=
  v ← get this; RawMemory.plus (data_ v) (size_ v).

(** [cbegin()] and [cend()], and the const overloads of [begin()] and
    [end()], which return them.  On a const vector [data_ + size_] is the
    const [operator+], which casts constness away and calls the other. *)
Definition cbegin (this : addr) : M T ptr :=
  v ← get this; ret (RawMemory.GetAddress (data_ v)).
Definition cend (this : addr) : M T ptr :=
  v ← get this; RawMemory.plus (data_ v) (size_ v).
Definition begin_const (this : addr) : M T ptr := cbegin this.
Definition end_const (this : addr) : M T ptr := cend this.

(** [void Destroy()] *)
Definition Destroy (this : addr) : M T unit :=
  v ← get this; destroy_n (RawMemory.GetAddress (data_ v)) (size_ v).

(** [void Reallocate(RawMemory<T>& new_data)] *)
Definition Reallocate (this : addr) (new_data : RawMemory) : M T unit :=
  v ← get this;
  if is_nothrow_move_constructible || negb is_copy_constructible then
    uninitialized_move_n (RawMemory.GetAddress (data_ v)) (size_ v)
                         (RawMemory.GetAddress new_data)
  else
    uninitialized_copy_n (RawMemory.GetAddress (data_ v)) (size_ v)
                         (RawMemory.GetAddress new_data).

(** [data_.Swap(new_data)] for a local [new_data]: returns its new state. *)
Definition swap_data (this : addr) (new_data : RawMemory) : M T RawMemory :=
  v ← get this;
  let '(d, new_data') := RawMemory.Swap (data_ v) new_data in
  set_data this d;; ret new_data'.

(** [Vector() = default] *)
Definition default_ctor (this : addr) : M T unit :=
  new_object this (mkVector RawMemory.empty 0).

(** [explicit Vector(size_t size)].  When the body throws, the member
    [data_] is destroyed and the object never exists. *)
Definition size_ctor (this : addr) (size : nat) : M T unit :=
  d ← RawMemory.ctor size;
  on_throw (uninitialized_value_construct_n (RawMemory.GetAddress d) size)
           (RawMemory.dtor d);;
  new_object this (mkVector d size).

(** [Vector(const Vector& other)] *)
Definition copy_ctor (this other : addr) : M T unit :=
  o ← get other;
  d ← RawMemory.ctor (size_ o);
  on_throw (uninitialized_copy_n (RawMemory.GetAddress (data_ o)) (size_ o)
                                 (RawMemory.GetAddress d))
           (RawMemory.dtor d);;
  new_object this (mkVector d (size_ o)).

(** The two statements shared by the move constructor and the move
    assignment:
    [data_ = std::move(other.data_); size_ = std::exchange(other.size_, 0);] *)
Definition take_over (this other : addr) : M T unit :=
  v ← get this; o ← get other;
  let '(d, od) := RawMemory.move_assign (data_ v) (data_ o) in
  set_data this d;; set_data other od;;
  o ← get other;
  set_size this (size_ o);; set_size other 0.

(** [Vector(Vector&& other) noexcept]: the members are default-initialised,
    then assigned in the body. *)
Definition move_ctor (this other : addr) : M T unit :=
  new_object this (mkVector RawMemory.empty 0);;
  take_over this other.

(** [~Vector()] *)
Definition dtor (this : addr) : M T unit :=
  Destroy this;;
  v ← get this; RawMemory.dtor (data_ v);;
  end_object this.

(** [T& operator[](size_t index)] *)
Definition index (this : addr) (i : nat) : M T ptr :=
  v ← get this;
  if decide (i < size_ v) then RawMemory.index (data_ v) i else undefined.

(** [const T& operator[](size_t index) const]: casts constness away and
    calls the other overload. *)
Definition index_const (this : addr) (i : nat) : M T ptr := index this i.

(** [void Swap(Vector& other) noexcept] *)
Definition Swap (this other : addr) : M T unit :=
  a ← get this; b ← get other;
  let '(da, db) := RawMemory.Swap (data_ a) (data_ b) in
  set_data this da;; set_data other db;;
  set_size this (size_ b);; set_size other (size_ a).

(** [Vector& operator=(const Vector& rhs)] *)
Definition copy_assignment (this rhs : addr) : M T unit :=
  if decide (this ≠ rhs) then
    v ← get this; r ← get rhs;
    if decide (RawMemory.Capacity (data_ v) < size_ r) then
      rhs_copy ← local_addr;
      copy_ctor rhs_copy rhs;;
      Swap this rhs_copy;;
      dtor rhs_copy
    else
      copy_n (RawMemory.GetAddress (data_ r)) (size_ v `min` size_ r)
             (RawMemory.GetAddress (data_ v));;
      (if decide (size_ r < size_ v) then
         destroy_n (ptr_add (RawMemory.GetAddress (data_ v)) (size_ r))
                   (size_ v - size_ r)
       else
         uninitialized_copy_n (ptr_add (RawMemory.GetAddress (data_ r)) (size_ v))
                              (size_ r - size_ v)
                              (ptr_add (RawMemory.GetAddress (data_ v)) (size_ v)));;
      set_size this (size_ r)
  else ret tt.

(** [Vector& operator=(Vector&& rhs) noexcept] *)
Definition move_assignment (this rhs : addr) : M T unit :=
  if decide (this ≠ rhs) then take_over this rhs else ret tt.

(** [void Reserve(size_t new_capacity)].  The local [new_data] is destroyed
    when the scope is left, normally or by an exception. *)
Definition Reserve (this : addr) (new_capacity : nat) : M T unit :=
  v ← get this;
  if decide (new_capacity ≤ RawMemory.Capacity (data_ v)) then ret tt
  else
    new_data ← RawMemory.ctor new_capacity;
    on_throw (Reallocate this new_data) (RawMemory.dtor new_data);;
    Destroy this;;
    new_data ← swap_data this new_data;
    RawMemory.dtor new_data.

(** [void Resize(size_t new_size)] *)
Definition Resize (this : addr) (new_size : nat) : M T unit :=
  v ← get this;
  if decide (size_ v ≠ new_size) then
    (if decide (new_size < size_ v) then
       destroy_n (ptr_add (RawMemory.GetAddress (data_ v)) new_size)
                 (size_ v - new_size)
     else
       Reserve this new_size;;
       v' ← get this;
       uninitialized_value_construct_n
         (ptr_add (RawMemory.GetAddress (data_ v')) (size_ v')) (new_size - size_ v'));;
    set_size this new_size
  else ret tt.

(** [void PushBack(const T& value)].  [value] is an object of the caller:
    [std::uninitialized_copy_n(&value, 1, p)] copy-constructs one element
    at [p] and has nothing to roll back. *)
Definition PushBack (this : addr) (value : T) : M T unit :=
  v ← get this;
  (if decide (RawMemory.Capacity (data_ v) = size_ v) then
     new_data ← RawMemory.ctor (if decide (size_ v = 0) then 1 else size_ v * 2);
     on_throw
       (construct_from FromCopy (ptr_add (RawMemory.GetAddress new_data) (size_ v)) value;;
        Reallocate this new_data)
       (RawMemory.dtor new_data);;
     Destroy this;;
     new_data ← swap_data this new_data;
     RawMemory.dtor new_data
   else
     p ← RawMemory.plus (data_ v) (size_ v);
     construct_from FromCopy p value);;
  v ← get this; set_size this (size_ v + 1).

(** [void PushBack(T&& value)] *)
Definition PushBack_move (this : addr) (value : T) : M T unit :=
  v ← get this;
  (if decide (RawMemory.Capacity (data_ v) = size_ v) then
     new_data ← RawMemory.ctor (if decide (size_ v = 0) then 1 else size_ v * 2);
     on_throw
       (construct_from FromMove (ptr_add (RawMemory.GetAddress new_data) (size_ v)) value;;
        Reallocate this new_data)
       (RawMemory.dtor new_data);;
     Destroy this;;
     new_data ← swap_data this new_data;
     RawMemory.dtor new_data
   else
     p ← RawMemory.plus (data_ v) (size_ v);
     construct_from FromMove p value);;
  v ← get this; set_size this (size_ v + 1).

(** [void PushBack(const T& value)] with the reference [value] given as
    the address of the object it designates, which may be an element of
    this vector. *)
Definition PushBack_ref (this : addr) (value : ptr) : M T unit :=
  v ← get this;
  (if decide (RawMemory.Capacity (data_ v) = size_ v) then
     new_data ← RawMemory.ctor (if decide (size_ v = 0) then 1 else size_ v * 2);
     on_throw
       (uninitialized_copy_n value 1 (ptr_add (RawMemory.GetAddress new_data) (size_ v));;
        Reallocate this new_data)
       (RawMemory.dtor new_data);;
     Destroy this;;
     new_data ← swap_data this new_data;
     RawMemory.dtor new_data
   else
     p ← RawMemory.plus (data_ v) (size_ v);
     copy_construct p value);;
  v ← get this; set_size this (size_ v + 1).

(** [T& EmplaceBack(Args&&... args)]: [how] is the constructor the
    arguments select and [x] the value it builds.  The reference returned
    is the address of the last element, [*std::prev(end())]. *)
Definition EmplaceBack (this : addr) (how : ctor_kind) (x : T) : M T ptr :=
  v ← get this;
  (if decide (RawMemory.Capacity (data_ v) = size_ v) then
     new_data ← RawMemory.ctor (if decide (size_ v = 0) then 1 else size_ v * 2);
     on_throw
       (p ← RawMemory.plus new_data (size_ v);
        construct_from how p x;;
        Reallocate this new_data)
       (RawMemory.dtor new_data);;
     Destroy this;;
     new_data ← swap_data this new_data;
     RawMemory.dtor new_data
   else
     p ← RawMemory.plus (data_ v) (size_ v);
     construct_from how p x);;
  v ← get this; set_size this (size_ v + 1);;
  e ← end_ this;
  match e.2 with
  | 0 => undefined
  | S k => ret (e.1, k)
  end.

(** [iterator Emplace(const_iterator pos, Args&&... args)], with
    [pos_num = pos - begin()] given as [pos]: the model follows the source
    for [fits_int pos], where the [int] holds the position.  In the branch
    without growth, [new_elem] is a local: it is destroyed when the block
    is left.
    [data_[size_ - 1]] is computed in [size_t]: for [size_ == 0] the index
    is [SIZE_MAX] and [assert(index < capacity_)] fails; [end() - 1] on an
    empty vector points before the block. *)
Definition Emplace (this : addr) (pos : nat) (how : ctor_kind) (x : T) : M T ptr :=
  v ← get this;
  (if decide (RawMemory.Capacity (data_ v) = size_ v) then
     new_data ← RawMemory.ctor (if decide (size_ v = 0) then 1 else size_ v * 2);
     on_throw
       (p ← RawMemory.plus new_data pos;
        construct_from how p x;;
        if is_nothrow_move_constructible || negb is_copy_constructible then
          uninitialized_move_n (RawMemory.GetAddress (data_ v)) pos
                               (RawMemory.GetAddress new_data);;
          uninitialized_move_n (ptr_add (RawMemory.GetAddress (data_ v)) pos)
                               (size_ v - pos)
                               (ptr_add (ptr_add (RawMemory.GetAddress new_data) pos) 1)
        else
          uninitialized_copy_n (RawMemory.GetAddress (data_ v)) pos
                               (RawMemory.GetAddress new_data);;
          uninitialized_copy_n (ptr_add (RawMemory.GetAddress (data_ v)) pos)
                               (size_ v - pos)
                               (ptr_add (ptr_add (RawMemory.GetAddress new_data) pos) 1))
       (RawMemory.dtor new_data);;
     Destroy this;;
     new_data ← swap_data this new_data;
     RawMemory.dtor new_data
   else
     perform (event_of how);;
     on_throw
       (e ← end_ this;
        last ← match size_ v with
               | 0 => undefined
               | S k => RawMemory.index (data_ v) k
               end;
        move_construct e last;;
        b ← begin_ this;
        e1 ← match e.2 with
              | 0 => undefined
              | S k => ret (e.1, k)
              end;
        move_backward (ptr_add b pos) e1 e;;
        move_assign_from (ptr_add b pos) x)
       (perform Dtor);;
     perform Dtor);;
  v ← get this; set_size this (size_ v + 1);;
  b ← begin_ this; ret (ptr_add b pos).

(** [iterator Erase(const_iterator pos)], with [pos_num = pos - begin()]
    given as [pos]; as for [Emplace], the model follows the source for
    [fits_int pos]. *)
Definition Erase (this : addr) (pos : nat) : M T ptr :=
  b ← begin_ this; e ← end_ this;
  std_move (ptr_add (ptr_add b pos) 1) e (ptr_add b pos);;
  e ← end_ this;
  match e.2 with
  | 0 => undefined
  | S k => destroy_at (e.1, k)
  end;;
  v ← get this;
  match size_ v with
  | 0 => undefined
  | S k => set_size this k
  end;;
  b ← begin_ this; ret (ptr_add b pos).

(** [iterator Insert(const_iterator pos, const T& value)] *)
Definition Insert (this : addr) (pos : nat) (value : T) : M T ptr :=
  Emplace this pos FromCopy value.

(** [iterator Insert(const_iterator pos, T&& value)] *)
Definition Insert_move (this : addr) (pos : nat) (value : T) : M T ptr :=
  Emplace this pos FromMove value.

(** [void PopBack()] *)
Definition PopBack (this : addr) : M T unit :=
  v ← get this;
  if decide (size_ v ≠ 0) then
    destroy_n (ptr_add (RawMemory.GetAddress (data_ v)) (size_ v)) 1;;
    v ← get this; set_size this (size_ v - 1)
  else ret tt.

End Methods.
End Vector.

(** * Reasoning about computations *)

(** [wp m w Q E]: run from [w], the computation [m] has defined behaviour;
    if it returns [a] in state [w'] then [Q a w'], and if it throws, the
    state [w'] after unwinding satisfies [E w']. *)
Definition wp {T A} (m : M T A) (w : World T)
    (Q : A → World T → Prop) (E : World T → Prop) : Prop :=
  match m w with
  | Ok a w' => Q a w'
  | Throw w' => E w'
  | Undefined => False
  end.

Section WP.
Context {T : Type} `{!Element T}.
Implicit Types (o : gmap addr Vector) (h : gmap addr (list (option T))).
Implicit Types (n : addr) (fs : list bool) (l : list event).

Lemma wp_ret {A} (a : A) w (Q : A → World T → Prop) E :
  Q a w → wp (ret a) w Q E.
Proof. done. Qed.

Lemma wp_bind {A B} (m : M T A) (f : A → M T B) w Q E :
  wp m w (λ a w', wp (f a) w' Q E) E → wp (bind m f) w Q E.
Proof. unfold wp, bind. by destruct (m w). Qed.

Lemma wp_on_throw {A} (m : M T A) c w Q E :
  wp m w Q (λ w', wp c w' (λ _, E) E) → wp (on_throw m c) w Q E.
Proof.
  unfold wp, on_throw. destruct (m w) as [a w'|w'|]; try done.
  by destruct (c w').
Qed.

Lemma wp_mono {A} (m : M T A) w (Q Q' : A → World T → Prop) (E E' : World T → Prop) :
  wp m w Q E → (∀ a w', Q a w' → Q' a w') → (∀ w', E w' → E' w') → wp m w Q' E'.
Proof. unfold wp. destruct (m w); naive_solver. Qed.

Lemma wp_ok_inv {A} (m : M T A) w Q E a w' :
  wp m w Q E → m w = Ok a w' → Q a w'.
Proof. unfold wp. intros Hwp Heq. by rewrite Heq in Hwp. Qed.

Lemma wp_throw_inv {A} (m : M T A) w Q E w' :
  wp m w Q E → m w = Throw w' → E w'.
Proof. unfold wp. intros Hwp Heq. by rewrite Heq in Hwp. Qed.

Lemma wp_defined {A} (m : M T A) w Q E :
  wp m w Q E → m w ≠ Undefined.
Proof. unfold wp. by destruct (m w). Qed.

Lemma wp_tick o h n fs l (Q : unit → World T → Prop) E :
  (∀ fs', Q tt (mkWorld o h n fs' l)) →
  (∀ fs', E (mkWorld o h n fs' l)) →
  wp tick (mkWorld o h n fs l) Q E.
Proof. intros HQ HE. unfold wp, tick; simpl. destruct fs as [|[] ?]; auto. Qed.

Lemma wp_emit e o h n fs l (Q : unit → World T → Prop) E :
  Q tt (mkWorld o h n fs (l ++ [e])) → wp (emit e) (mkWorld o h n fs l) Q E.
Proof. done. Qed.

Lemma wp_perform e o h n fs l (Q : unit → World T → Prop) E :
  (∀ fs', Q tt (mkWorld o h n fs' (l ++ [e]))) →
  (may_throw e = true → ∀ fs', E (mkWorld o h n fs' l)) →
  wp (perform e) (mkWorld o h n fs l) Q E.
Proof.
  intros HQ HE. unfold perform. apply wp_bind.
  destruct (may_throw e).
  - apply wp_tick; [|by auto]. intros fs'. by apply wp_emit.
  - apply wp_ret. by apply wp_emit.
Qed.

Lemma wp_peek b i blk s o h n fs l (Q : option T → World T → Prop) E :
  h !! b = Some blk → blk !! i = Some s →
  Q s (mkWorld o h n fs l) → wp (peek (Some b, i)) (mkWorld o h n fs l) Q E.
Proof. intros Hb Hi HQ. unfold wp, peek; simpl. by rewrite Hb, Hi. Qed.

Lemma wp_load b i blk v o h n fs l (Q : T → World T → Prop) E :
  h !! b = Some blk → blk !! i = Some (Some v) →
  Q v (mkWorld o h n fs l) → wp (load (Some b, i)) (mkWorld o h n fs l) Q E.
Proof.
  intros Hb Hi HQ. unfold load. apply wp_bind.
  eapply wp_peek; [done..|]. by apply wp_ret.
Qed.

Lemma wp_poke b i blk s o h n fs l (Q : unit → World T → Prop) E :
  h !! b = Some blk → i < length blk →
  Q tt (mkWorld o (<[b := <[i := s]> blk]> h) n fs l) →
  wp (poke (Some b, i) s) (mkWorld o h n fs l) Q E.
Proof.
  intros Hb Hi HQ. unfold wp, poke; simpl. rewrite Hb.
  by rewrite decide_True.
Qed.

Lemma wp_get a v o h n fs l (Q : Vector → World T → Prop) E :
  o !! a = Some v →
  Q v (mkWorld o h n fs l) → wp (Vector.get a) (mkWorld o h n fs l) Q E.
Proof. intros Ha HQ. unfold wp, Vector.get; simpl. by rewrite Ha. Qed.

Lemma wp_put a v o h n fs l (Q : unit → World T → Prop) E :
  Q tt (mkWorld (<[a := v]> o) h n fs l) →
  wp (Vector.put a v) (mkWorld o h n fs l) Q E.
Proof. done. Qed.

Lemma wp_set_data a d v o h n fs l (Q : unit → World T → Prop) E :
  o !! a = Some v →
  Q tt (mkWorld (<[a := mkVector d (size_ v)]> o) h n fs l) →
  wp (Vector.set_data a d) (mkWorld o h n fs l) Q E.
Proof.
  intros Ha HQ. unfold Vector.set_data. apply wp_bind.
  eapply wp_get; [done|]. by apply wp_put.
Qed.

Lemma wp_set_size a k v o h n fs l (Q : unit → World T → Prop) E :
  o !! a = Some v →
  Q tt (mkWorld (<[a := mkVector (data_ v) k]> o) h n fs l) →
  wp (Vector.set_size a k) (mkWorld o h n fs l) Q E.
Proof.
  intros Ha HQ. unfold Vector.set_size. apply wp_bind.
  eapply wp_get; [done|]. by apply wp_put.
Qed.

Lemma wp_new_object a v o h n fs l (Q : unit → World T → Prop) E :
  o !! a = None →
  Q tt (mkWorld (<[a := v]> o) h n fs l) →
  wp (Vector.new_object a v) (mkWorld o h n fs l) Q E.
Proof. intros Ha HQ. unfold wp, Vector.new_object; simpl. by rewrite Ha. Qed.

Lemma wp_end_object a o h n fs l (Q : unit → World T → Prop) E :
  Q tt (mkWorld (delete a o) h n fs l) →
  wp (Vector.end_object a) (mkWorld o h n fs l) Q E.
Proof. done. Qed.

Lemma wp_Allocate k o h n fs l (Q : option addr → World T → Prop) E :
  (k ≠ 0 → ∀ fs', Q (Some n) (mkWorld o (<[n := replicate k None]> h) (S n) fs' (l ++ [Alloc]))) →
  (k = 0 → Q None (mkWorld o h n fs l)) →
  (k ≠ 0 → ∀ fs', E (mkWorld o h n fs' l)) →
  wp (RawMemory.Allocate k) (mkWorld o h n fs l) Q E.
Proof.
  intros HQ HQ0 HE. unfold RawMemory.Allocate. case_decide.
  - apply wp_bind, wp_perform; [|by auto]. intros fs'. by apply HQ.
  - apply wp_ret. apply HQ0. lia.
Qed.

Lemma wp_ctor k o h n fs l (Q : RawMemory → World T → Prop) E :
  (k ≠ 0 → ∀ fs', Q (mkRawMemory (Some n) k)
     (mkWorld o (<[n := replicate k None]> h) (S n) fs' (l ++ [Alloc]))) →
  (k = 0 → Q (mkRawMemory None 0) (mkWorld o h n fs l)) →
  (k ≠ 0 → ∀ fs', E (mkWorld o h n fs' l)) →
  wp (RawMemory.ctor k) (mkWorld o h n fs l) Q E.
Proof.
  intros HQ HQ0 HE. unfold RawMemory.ctor. apply wp_bind, wp_Allocate.
  - intros ? fs'. apply wp_ret. by apply HQ.
  - intros ->. apply wp_ret. by apply HQ0.
  - done.
Qed.

Lemma wp_Deallocate b blk o h n fs l (Q : unit → World T → Prop) E :
  h !! b = Some blk →
  Q tt (mkWorld o (delete b h) n fs (l ++ [Dealloc])) →
  wp (RawMemory.Deallocate (Some b)) (mkWorld o h n fs l) Q E.
Proof. intros Hb HQ. unfold wp, RawMemory.Deallocate; simpl. by rewrite Hb. Qed.

Lemma wp_Deallocate_null o h n fs l (Q : unit → World T → Prop) E :
  Q tt (mkWorld o h n fs l) →
  wp (RawMemory.Deallocate None) (mkWorld o h n fs l) Q E.
Proof. done. Qed.

End WP.

(** ** The element operations *)

Section ElementSteps.
Context {T : Type} `{!Element T}.
Implicit Types (o : gmap addr Vector) (h : gmap addr (list (option T))).
Implicit Types (n : addr) (fs : list bool) (l : list event).
Implicit Types (blk : list (option T)).

Lemma wp_construct_from how b i x blk o h n fs l (Q : unit → World T → Prop) E :
  h !! b = Some blk → i < length blk →
  (∀ fs', Q tt (mkWorld o (<[b := <[i := Some x]> blk]> h) n fs' (l ++ [event_of how]))) →
  (may_throw (event_of how) = true → ∀ fs', E (mkWorld o h n fs' l)) →
  wp (construct_from how (Some b, i) x) (mkWorld o h n fs l) Q E.
Proof.
  intros Hb Hi HQ HE. unfold construct_from.
  destruct (lookup_lt_is_Some_2 blk i Hi) as [s Hs].
  apply wp_bind. eapply wp_peek; [done..|].
  apply wp_bind, wp_perform; [|done]. intros fs'.
  eapply wp_poke; [done..|]. apply HQ.
Qed.

Lemma wp_value_construct b i blk o h n fs l (Q : unit → World T → Prop) E :
  h !! b = Some blk → i < length blk →
  (∀ fs', Q tt (mkWorld o (<[b := <[i := Some value_init]> blk]> h) n fs' (l ++ [DefaultCtor]))) →
  (∀ fs', E (mkWorld o h n fs' l)) →
  wp (value_construct (Some b, i)) (mkWorld o h n fs l) Q E.
Proof.
  intros Hb Hi HQ HE. unfold value_construct.
  destruct (lookup_lt_is_Some_2 blk i Hi) as [s Hs].
  apply wp_bind. eapply wp_peek; [done..|].
  apply wp_bind, wp_perform; [|done]. intros fs'.
  eapply wp_poke; [done..|]. apply HQ.
Qed.

Lemma wp_copy_construct db di sb si dblk sblk v o h n fs l (Q : unit → World T → Prop) E :
  h !! sb = Some sblk → sblk !! si = Some (Some v) →
  h !! db = Some dblk → di < length dblk →
  (∀ fs', Q tt (mkWorld o (<[db := <[di := Some v]> dblk]> h) n fs' (l ++ [CopyCtor]))) →
  (∀ fs', E (mkWorld o h n fs' l)) →
  wp (copy_construct (Some db, di) (Some sb, si)) (mkWorld o h n fs l) Q E.
Proof.
  intros Hsb Hsi Hdb Hdi HQ HE. unfold copy_construct.
  destruct (lookup_lt_is_Some_2 dblk di Hdi) as [s Hs].
  apply wp_bind. eapply wp_load; [done..|].
  apply wp_bind. eapply wp_peek; [done..|].
  apply wp_bind, wp_perform; [|done]. intros fs'.
  eapply wp_poke; [done..|]. apply HQ.
Qed.

(** Move construction between two blocks. *)
Lemma wp_move_construct db di sb si dblk sblk v o h n fs l (Q : unit → World T → Prop) E :
  sb ≠ db →
  h !! sb = Some sblk → sblk !! si = Some (Some v) →
  h !! db = Some dblk → di < length dblk →
  (∀ fs', Q tt (mkWorld o (<[sb := <[si := Some (moved_from v)]> sblk]>
                             (<[db := <[di := Some v]> dblk]> h))
                         n fs' (l ++ [MoveCtor]))) →
  (is_nothrow_move_constructible = false → ∀ fs', E (mkWorld o h n fs' l)) →
  wp (move_construct (Some db, di) (Some sb, si)) (mkWorld o h n fs l) Q E.
Proof.
  intros Hne Hsb Hsi Hdb Hdi HQ HE. unfold move_construct.
  destruct (lookup_lt_is_Some_2 dblk di Hdi) as [s Hs].
  apply wp_bind. eapply wp_load; [done..|].
  apply wp_bind. eapply wp_peek; [done..|].
  apply wp_bind, wp_perform.
  - intros fs'. apply wp_bind. eapply wp_poke; [done..|].
    eapply wp_poke; [by rewrite lookup_insert_ne|by eapply lookup_lt_Some|].
    apply HQ.
  - simpl. intros Hn. apply HE. by destruct is_nothrow_move_constructible.
Qed.

(** Move construction inside one block. *)
Lemma wp_move_construct_same b di si blk v o h n fs l (Q : unit → World T → Prop) E :
  h !! b = Some blk → blk !! si = Some (Some v) → di < length blk → si ≠ di →
  (∀ fs', Q tt (mkWorld o (<[b := <[si := Some (moved_from v)]> (<[di := Some v]> blk)]> h)
                         n fs' (l ++ [MoveCtor]))) →
  (is_nothrow_move_constructible = false → ∀ fs', E (mkWorld o h n fs' l)) →
  wp (move_construct (Some b, di) (Some b, si)) (mkWorld o h n fs l) Q E.
Proof.
  intros Hb Hsi Hdi Hne HQ HE. unfold move_construct.
  destruct (lookup_lt_is_Some_2 blk di Hdi) as [s Hs].
  apply wp_bind. eapply wp_load; [done..|].
  apply wp_bind. eapply wp_peek; [done..|].
  apply wp_bind, wp_perform.
  - intros fs'. apply wp_bind. eapply wp_poke; [done..|].
    eapply wp_poke; [by rewrite lookup_insert_eq| |].
    + rewrite length_insert. by eapply lookup_lt_Some.
    + rewrite insert_insert_eq. apply HQ.
  - simpl. intros Hn. apply HE. by destruct is_nothrow_move_constructible.
Qed.

Lemma wp_copy_assign db di sb si dblk sblk v u o h n fs l (Q : unit → World T → Prop) E :
  h !! sb = Some sblk → sblk !! si = Some (Some v) →
  h !! db = Some dblk → dblk !! di = Some (Some u) →
  (∀ fs', Q tt (mkWorld o (<[db := <[di := Some v]> dblk]> h) n fs' (l ++ [CopyAssign]))) →
  (∀ fs', E (mkWorld o h n fs' l)) →
  wp (copy_assign (Some db, di) (Some sb, si)) (mkWorld o h n fs l) Q E.
Proof.
  intros Hsb Hsi Hdb Hdi HQ HE. unfold copy_assign.
  apply wp_bind. eapply wp_load; [done..|].
  apply wp_bind. eapply wp_load; [done..|].
  apply wp_bind, wp_perform; [|done]. intros fs'.
  eapply wp_poke; [done|by eapply lookup_lt_Some|]. apply HQ.
Qed.

(** Move assignment inside one block. *)
Lemma wp_move_assign b di si blk v u o h n fs l (Q : unit → World T → Prop) E :
  h !! b = Some blk → blk !! si = Some (Some v) → blk !! di = Some (Some u) →
  (∀ fs', Q tt (mkWorld o (<[b := <[si := Some (moved_from v)]> (<[di := Some v]> blk)]> h)
                         n fs' (l ++ [MoveAssign]))) →
  (∀ fs', E (mkWorld o h n fs' l)) →
  wp (move_assign (Some b, di) (Some b, si)) (mkWorld o h n fs l) Q E.
Proof.
  intros Hb Hsi Hdi HQ HE. unfold move_assign.
  apply wp_bind. eapply wp_load; [done..|].
  apply wp_bind. eapply wp_load; [done..|].
  apply wp_bind, wp_perform; [|done]. intros fs'.
  apply wp_bind. eapply wp_poke; [done|by eapply lookup_lt_Some|].
  eapply wp_poke; [by rewrite lookup_insert_eq| |].
  - rewrite length_insert. by eapply lookup_lt_Some.
  - rewrite insert_insert_eq. apply HQ.
Qed.

Lemma wp_move_assign_from b i x blk u o h n fs l (Q : unit → World T → Prop) E :
  h !! b = Some blk → blk !! i = Some (Some u) →
  (∀ fs', Q tt (mkWorld o (<[b := <[i := Some x]> blk]> h) n fs' (l ++ [MoveAssign]))) →
  (∀ fs', E (mkWorld o h n fs' l)) →
  wp (move_assign_from (Some b, i) x) (mkWorld o h n fs l) Q E.
Proof.
  intros Hb Hi HQ HE. unfold move_assign_from.
  apply wp_bind. eapply wp_load; [done..|].
  apply wp_bind, wp_perform; [|done]. intros fs'.
  eapply wp_poke; [done|by eapply lookup_lt_Some|]. apply HQ.
Qed.

Lemma wp_destroy_at b i blk u o h n fs l (Q : unit → World T → Prop) E :
  h !! b = Some blk → blk !! i = Some (Some u) →
  Q tt (mkWorld o (<[b := <[i := None]> blk]> h) n fs (l ++ [Dtor])) →
  wp (destroy_at (Some b, i)) (mkWorld o h n fs l) Q E.
Proof.
  intros Hb Hi HQ. unfold destroy_at.
  apply wp_bind. eapply wp_load; [done..|].
  apply wp_bind. unfold perform; simpl. apply wp_bind, wp_ret, wp_emit.
  eapply wp_poke; [done|by eapply lookup_lt_Some|]. apply HQ.
Qed.

End ElementSteps.

(** ** Lists as blocks *)

Section Blocks.
Context {A : Type}.
Implicit Types (blk ys : list A).

Lemma slice_cons_inv blk i k y ys :
  take (S k) (drop i blk) = y :: ys →
  blk !! i = Some y ∧ take k (drop (S i) blk) = ys.
Proof.
  intros Hs.
  assert (blk !! i = Some y) as Hi.
  { rewrite <-(Nat.add_0_r i), <-lookup_drop.
    destruct (drop i blk); simplify_eq/=; done. }
  split; [done|]. rewrite (drop_S _ _ _ Hi) in Hs. by simplify_eq/=.
Qed.

Lemma slice_length blk i k ys :
  take k (drop i blk) = ys → length ys = k → 0 < k → i + k ≤ length blk.
Proof.
  intros <-. rewrite length_take, length_drop. lia.
Qed.

Lemma slice_insert_lt blk i j k y :
  j < i → take k (drop i (<[j := y]> blk)) = take k (drop i blk).
Proof. intros. by rewrite drop_insert_lt. Qed.

Lemma slice_lookup blk i k ys j y :
  take k (drop i blk) = ys → ys !! j = Some y → blk !! (i + j) = Some y.
Proof.
  intros <- Hj. apply lookup_take_Some in Hj as [Hj _].
  by rewrite lookup_drop in Hj.
Qed.

Lemma list_inserts_push blk i y ys :
  list_inserts (S i) ys (<[i := y]> blk) = list_inserts i (y :: ys) blk.
Proof. simpl. rewrite list_insert_inserts_lt by lia. done. Qed.

Lemma list_inserts_insert_in blk i j z ys :
  i ≤ j < i + length ys →
  list_inserts i ys (<[j := z]> blk) = list_inserts i ys blk.
Proof.
  intros Hj. apply list_eq; intros p.
  destruct (decide (p < i)).
  { rewrite !list_lookup_inserts_lt by done. rewrite list_lookup_insert_ne by lia. done. }
  destruct (decide (i + length ys ≤ p)).
  { rewrite !list_lookup_inserts_ge by done. rewrite list_lookup_insert_ne by lia. done. }
  destruct (decide (p < length blk)).
  - rewrite !list_lookup_inserts by (rewrite ?length_insert; lia). done.
  - rewrite !lookup_ge_None_2; [done| |]; rewrite ?length_inserts, ?length_insert; lia.
Qed.

Lemma list_inserts_snoc blk i y ys :
  list_inserts i (ys ++ [y]) blk = list_inserts i ys (<[i + length ys := y]> blk).
Proof.
  rewrite list_inserts_app_l. simpl.
  rewrite (Nat.add_comm (length ys) i).
  revert i. induction ys as [|y' ys IH]; intros i; simpl.
  - by rewrite Nat.add_0_r.
  - rewrite <-Nat.add_succ_comm, <-IH.
    rewrite (list_insert_insert_ne _ i) by lia. done.
Qed.

Lemma list_inserts_id blk i k :
  list_inserts i (take k (drop i blk)) blk = blk.
Proof.
  assert (length (take k (drop i blk)) = k `min` (length blk - i)) as Hlen
    by (by rewrite length_take, length_drop).
  apply list_eq; intros p.
  destruct (decide (p < i)).
  { by rewrite list_lookup_inserts_lt. }
  destruct (decide (i + length (take k (drop i blk)) ≤ p)).
  { by rewrite list_lookup_inserts_ge. }
  rewrite list_lookup_inserts by lia.
  rewrite lookup_take_lt by lia. rewrite lookup_drop. f_equal; lia.
Qed.

End Blocks.

(** ** The algorithms *)

(** Which slots of a block hold an object. *)
Definition alive {T} (s : option T) : bool :=
  match s with Some _ => true | None => false end.
Definition shape {T} (blk : list (option T)) : list bool := alive <$> blk.

Lemma shape_insert_live {T} (blk : list (option T)) i u v :
  blk !! i = Some (Some u) → shape (<[i := Some v]> blk) = shape blk.
Proof.
  intros Hi. unfold shape. rewrite list_fmap_insert.
  apply list_insert_id. by rewrite list_lookup_fmap, Hi.
Qed.

Lemma shape_length {T} (blk blk' : list (option T)) :
  shape blk' = shape blk → length blk' = length blk.
Proof. unfold shape. intros Hs. by rewrite <-(length_fmap alive blk'), Hs, length_fmap. Qed.

Section Algorithms.
Context {T : Type} `{!Element T}.
Implicit Types (o : gmap addr Vector) (h : gmap addr (list (option T))).
Implicit Types (n : addr) (fs : list bool) (l : list event).
Implicit Types (blk : list (option T)) (vs : list T).

Lemma log_step l e k : (l ++ [e]) ++ replicate k e = l ++ replicate (S k) e.
Proof. by rewrite <-app_assoc. Qed.

Lemma wp_destroy_n b i k blk vs o h n fs l (Q : unit → World T → Prop) E :
  h !! b = Some blk → take k (drop i blk) = Some <$> vs → length vs = k →
  Q tt (mkWorld o (<[b := list_inserts i (replicate k None) blk]> h) n fs
                (l ++ replicate k Dtor)) →
  wp (destroy_n (Some b, i) k) (mkWorld o h n fs l) Q E.
Proof.
  revert i blk vs h l. induction k as [|k IH]; intros i blk vs h l Hb Hs Hlen HQ; simpl.
  - apply wp_ret. by rewrite insert_id, app_nil_r in HQ.
  - destruct vs as [|v vs]; [done|]. simpl in Hs, Hlen.
    apply slice_cons_inv in Hs as [Hi Hs].
    apply wp_bind. eapply wp_destroy_at; [done..|].
    unfold ptr_add; simpl. rewrite Nat.add_1_r.
    eapply (IH _ _ vs); [by rewrite lookup_insert_eq| |lia|].
    + by rewrite slice_insert_lt by lia.
    + by rewrite insert_insert_eq, list_inserts_push, log_step.
Qed.

Lemma wp_uninitialized_copy_n sb si db di k sblk dblk vs o h n fs l
    (Q : unit → World T → Prop) E :
  sb ≠ db →
  h !! sb = Some sblk → take k (drop si sblk) = Some <$> vs → length vs = k →
  h !! db = Some dblk → take k (drop di dblk) = replicate k None →
  (∀ fs', Q tt (mkWorld o (<[db := list_inserts di (Some <$> vs) dblk]> h) n fs'
                        (l ++ replicate k CopyCtor))) →
  (∀ fs' l', E (mkWorld o h n fs' l')) →
  wp (uninitialized_copy_n (Some sb, si) k (Some db, di)) (mkWorld o h n fs l) Q E.
Proof.
  intros Hne. revert si di dblk vs h fs l Q E.
  induction k as [|k IH]; intros si di dblk vs h fs l Q E Hsb Hs Hlen Hdb Hd HQ HE; simpl.
  - apply wp_ret. destruct vs; [|done]. specialize (HQ fs).
    by rewrite insert_id, app_nil_r in HQ.
  - destruct vs as [|v vs]; [done|]. simpl in Hs, Hlen.
    apply slice_cons_inv in Hs as [Hi Hs].
    apply slice_cons_inv in Hd as [Hdi Hd].
    apply wp_bind.
    eapply wp_copy_construct; [done..|by eapply lookup_lt_Some| |by auto].
    intros fs1. apply wp_on_throw.
    unfold ptr_add; simpl. rewrite !Nat.add_1_r.
    eapply (IH _ _ _ vs).
    + by rewrite lookup_insert_ne.
    + done.
    + lia.
    + by rewrite lookup_insert_eq.
    + by rewrite slice_insert_lt by lia.
    + intros fs'. rewrite insert_insert_eq, list_inserts_push, log_step. apply HQ.
    + intros fs' l'. eapply wp_destroy_at.
      * by rewrite lookup_insert_eq.
      * apply list_lookup_insert_eq. by eapply lookup_lt_Some.
      * rewrite insert_insert_eq, list_insert_insert_eq.
        rewrite (list_insert_id dblk) by done. rewrite insert_id by done. apply HE.
Qed.

Lemma wp_uninitialized_value_construct_n b i k blk o h n fs l
    (Q : unit → World T → Prop) E :
  h !! b = Some blk → take k (drop i blk) = replicate k None →
  (∀ fs', Q tt (mkWorld o (<[b := list_inserts i (replicate k (Some value_init)) blk]> h)
                        n fs' (l ++ replicate k DefaultCtor))) →
  (∀ fs' l', E (mkWorld o h n fs' l')) →
  wp (uninitialized_value_construct_n (Some b, i) k) (mkWorld o h n fs l) Q E.
Proof.
  revert i blk h fs l Q E.
  induction k as [|k IH]; intros i blk h fs l Q E Hb Hd HQ HE; simpl.
  - apply wp_ret. specialize (HQ fs). by rewrite insert_id, app_nil_r in HQ.
  - apply slice_cons_inv in Hd as [Hi Hd].
    apply wp_bind.
    eapply wp_value_construct; [done|by eapply lookup_lt_Some| |by auto].
    intros fs1. apply wp_on_throw.
    unfold ptr_add; simpl. rewrite !Nat.add_1_r.
    eapply IH.
    + by rewrite lookup_insert_eq.
    + by rewrite slice_insert_lt by lia.
    + intros fs'. rewrite insert_insert_eq, list_inserts_push, log_step. apply HQ.
    + intros fs' l'. eapply wp_destroy_at.
      * by rewrite lookup_insert_eq.
      * apply list_lookup_insert_eq. by eapply lookup_lt_Some.
      * rewrite insert_insert_eq, list_insert_insert_eq.
        rewrite (list_insert_id blk) by done. rewrite insert_id by done. apply HE.
Qed.

Lemma insert2_absorb h sb db (A B A' B' : list (option T)) :
  sb ≠ db →
  <[sb := A]> (<[db := B]> (<[sb := A']> (<[db := B']> h))) = <[sb := A]> (<[db := B]> h).
Proof.
  intros Hne. apply map_eq; intros i.
  rewrite !lookup_insert. by repeat case_decide.
Qed.

Lemma wp_uninitialized_move_n sb si db di k sblk dblk vs o h n fs l
    (Q : unit → World T → Prop) E :
  sb ≠ db →
  h !! sb = Some sblk → take k (drop si sblk) = Some <$> vs → length vs = k →
  h !! db = Some dblk → take k (drop di dblk) = replicate k None →
  (∀ fs', Q tt (mkWorld o (<[sb := list_inserts si (Some <$> (moved_from <$> vs)) sblk]>
                            (<[db := list_inserts di (Some <$> vs) dblk]> h))
                        n fs' (l ++ replicate k MoveCtor))) →
  (is_nothrow_move_constructible = false →
   ∀ fs' l' sblk', shape sblk' = shape sblk → E (mkWorld o (<[sb := sblk']> h) n fs' l')) →
  wp (uninitialized_move_n (Some sb, si) k (Some db, di)) (mkWorld o h n fs l) Q E.
Proof.
  intros Hne. revert si di sblk dblk vs h fs l Q E.
  induction k as [|k IH];
    intros si di sblk dblk vs h fs l Q E Hsb Hs Hlen Hdb Hd HQ HE; simpl.
  - apply wp_ret. destruct vs; [|done]. specialize (HQ fs). simpl in HQ.
    by rewrite !insert_id, app_nil_r in HQ by (by rewrite ?lookup_insert_ne).
  - destruct vs as [|v vs]; [done|]. simpl in Hs, Hlen.
    apply slice_cons_inv in Hs as [Hi Hs].
    apply slice_cons_inv in Hd as [Hdi Hd].
    apply wp_bind.
    eapply wp_move_construct; [done..|by eapply lookup_lt_Some| |].
    2:{ intros Hn fs'. specialize (HE Hn fs' l sblk eq_refl).
        by rewrite insert_id in HE. }
    intros fs1. apply wp_on_throw.
    unfold ptr_add; simpl. rewrite !Nat.add_1_r.
    eapply (IH _ _ _ _ vs).
    + by rewrite lookup_insert_eq.
    + by rewrite slice_insert_lt by lia.
    + lia.
    + by rewrite lookup_insert_ne, lookup_insert_eq.
    + by rewrite slice_insert_lt by lia.
    + intros fs'. rewrite insert2_absorb by done.
      rewrite !list_inserts_push, log_step. apply HQ.
    + intros Hn fs' l' sblk' Hshape. eapply wp_destroy_at.
      * rewrite !lookup_insert_ne by done. by rewrite lookup_insert_eq.
      * apply list_lookup_insert_eq. by eapply lookup_lt_Some.
      * rewrite list_insert_insert_eq, (list_insert_id dblk) by done.
        assert (<[db:=dblk]> (<[sb:=sblk']> (<[sb:=<[si:=Some (moved_from v)]> sblk]>
                  (<[db:=<[di:=Some v]> dblk]> h))) = <[sb := sblk']> h) as ->.
        { apply map_eq; intros i. rewrite !lookup_insert.
          repeat case_decide; simplify_eq; done. }
        apply HE; [done|]. rewrite Hshape. by eapply shape_insert_live.
Qed.

Lemma wp_copy_n sb si db di k sblk dblk vs us o h n fs l
    (Q : unit → World T → Prop) E :
  sb ≠ db →
  h !! sb = Some sblk → take k (drop si sblk) = Some <$> vs → length vs = k →
  h !! db = Some dblk → take k (drop di dblk) = Some <$> us → length us = k →
  (∀ fs', Q tt (mkWorld o (<[db := list_inserts di (Some <$> vs) dblk]> h) n fs'
                        (l ++ replicate k CopyAssign))) →
  (∀ fs' l' dblk', shape dblk' = shape dblk → E (mkWorld o (<[db := dblk']> h) n fs' l')) →
  wp (copy_n (Some sb, si) k (Some db, di)) (mkWorld o h n fs l) Q E.
Proof.
  intros Hne. revert si di dblk vs us h fs l.
  induction k as [|k IH];
    intros si di dblk vs us h fs l Hsb Hs Hlen Hdb Hd Hlenu HQ HE; simpl.
  - apply wp_ret. destruct vs; [|done]. specialize (HQ fs).
    by rewrite insert_id, app_nil_r in HQ.
  - destruct vs as [|v vs]; [done|]. destruct us as [|u us]; [done|].
    simpl in Hs, Hd, Hlen, Hlenu.
    apply slice_cons_inv in Hs as [Hi Hs].
    apply slice_cons_inv in Hd as [Hdi Hd].
    apply wp_bind.
    eapply wp_copy_assign; [done..| |].
    2:{ intros fs'. specialize (HE fs' l dblk eq_refl). by rewrite insert_id in HE. }
    intros fs1. unfold ptr_add; simpl. rewrite !Nat.add_1_r.
    eapply (IH _ _ _ vs us).
    + by rewrite lookup_insert_ne.
    + done.
    + lia.
    + by rewrite lookup_insert_eq.
    + by rewrite slice_insert_lt by lia.
    + lia.
    + intros fs'. rewrite insert_insert_eq, list_inserts_push, log_step. apply HQ.
    + intros fs' l' dblk' Hshape. rewrite insert_insert_eq. apply HE.
      rewrite Hshape. by eapply shape_insert_live.
Qed.

(** What [std::move] to the left leaves in the last slot of the range. *)
Fixpoint left_residue (y0 : T) (ys : list T) : T :=
  match ys with
  | [] => y0
  | y :: ys' => left_residue (moved_from y) ys'
  end.

Lemma wp_move_n b i k blk y0 ys o h n fs l (Q : unit → World T → Prop) E :
  h !! b = Some blk → take (S k) (drop i blk) = Some <$> (y0 :: ys) → length ys = k →
  (∀ fs', Q tt (mkWorld o (<[b := list_inserts i (Some <$> (ys ++ [left_residue y0 ys])) blk]> h)
                        n fs' (l ++ replicate k MoveAssign))) →
  (∀ fs' l' blk', shape blk' = shape blk → E (mkWorld o (<[b := blk']> h) n fs' l')) →
  wp (move_n (Some b, S i) k (Some b, i)) (mkWorld o h n fs l) Q E.
Proof.
  revert i blk y0 ys h fs l.
  induction k as [|k IH]; intros i blk y0 ys h fs l Hb Hs Hlen HQ HE; simpl.
  - apply wp_ret. destruct ys; [|done]. specialize (HQ fs). simpl in *.
    apply slice_cons_inv in Hs as [Hi _].
    by rewrite (list_insert_id blk), insert_id, app_nil_r in HQ.
  - destruct ys as [|y1 ys]; [done|]. simpl in Hs, Hlen.
    apply slice_cons_inv in Hs as [Hi Hs].
    pose proof Hs as Hs'. apply slice_cons_inv in Hs' as [Hi1 Hs'].
    apply wp_bind.
    eapply wp_move_assign; [done..| |].
    2:{ intros fs'. specialize (HE fs' l blk eq_refl). by rewrite insert_id in HE. }
    intros fs1. unfold ptr_add; simpl. rewrite !Nat.add_1_r.
    eapply (IH _ _ (moved_from y1) ys).
    + by rewrite lookup_insert_eq.
    + rewrite (drop_S _ (Some (moved_from y1)) (S i)).
      * simpl. f_equal. by rewrite !drop_insert_lt by lia.
      * apply list_lookup_insert_eq. rewrite length_insert. by eapply lookup_lt_Some.
    + lia.
    + intros fs'. rewrite insert_insert_eq, log_step.
      rewrite (list_inserts_insert_in _ (S i)).
      2:{ rewrite length_fmap, length_app; simpl. lia. }
      rewrite list_inserts_push. apply HQ.
    + intros fs' l' blk' Hshape. rewrite insert_insert_eq. apply HE.
      rewrite Hshape. erewrite shape_insert_live.
      * by eapply shape_insert_live.
      * rewrite list_lookup_insert_ne by lia. done.
Qed.

End Algorithms.

Section BlockSuffixes.
Context {A : Type}.
Implicit Types (blk ys : list A).

Lemma slice_snoc_inv blk p ys y :
  take (S (length ys)) (drop p blk) = ys ++ [y] →
  take (length ys) (drop p blk) = ys ∧ blk !! (p + length ys) = Some y.
Proof.
  intros Hs. split.
  - assert (take (length ys) (take (S (length ys)) (drop p blk)) = ys) as Ht
      by (by rewrite Hs, take_app_length).
    rewrite take_take in Ht. by rewrite Nat.min_l in Ht by lia.
  - eapply slice_lookup; [exact Hs|]. by rewrite lookup_app_r, Nat.sub_diag.
Qed.

Lemma slice_snoc blk p ys y :
  take (length ys) (drop p blk) = ys → blk !! (p + length ys) = Some y →
  take (S (length ys)) (drop p blk) = ys ++ [y].
Proof.
  intros Hs Hy. erewrite take_S_r; [by rewrite Hs|]. by rewrite lookup_drop.
Qed.

Lemma slice_insert_ge blk i j k y :
  i + k ≤ j → take k (drop i (<[j := y]> blk)) = take k (drop i blk).
Proof.
  intros. rewrite drop_insert_ge by lia. by rewrite take_insert_ge by lia.
Qed.

Lemma list_inserts_snoc_insert blk p ys y w :
  ys ≠ [] →
  list_inserts p ys (<[p + (length ys - 1) := w]> (<[p + length ys := y]> blk))
  = list_inserts p (ys ++ [y]) blk.
Proof.
  intros Hne. assert (0 < length ys) by (destruct ys; simpl; [done|lia]).
  rewrite list_inserts_insert_in by lia. by rewrite list_inserts_snoc.
Qed.

End BlockSuffixes.

Section BackwardMoves.
Context {T : Type} `{!Element T}.
Implicit Types (o : gmap addr Vector) (h : gmap addr (list (option T))).
Implicit Types (n : addr) (fs : list bool) (l : list event).
Implicit Types (blk : list (option T)) (vs : list T).

(** What [std::move_backward] leaves in the first slot of the range. *)
Definition right_residue (mid : list T) (r : T) : T :=
  match mid with
  | [] => r
  | m0 :: _ => moved_from m0
  end.

Lemma right_residue_snoc mid z r :
  right_residue (mid ++ [z]) r = right_residue mid (moved_from z).
Proof. by destruct mid. Qed.

Lemma wp_move_backward_n b p m blk mid r o h n fs l (Q : unit → World T → Prop) E :
  h !! b = Some blk → length mid = m →
  take (S m) (drop p blk) = Some <$> (mid ++ [r]) →
  (∀ fs', Q tt (mkWorld o (<[b := list_inserts p (Some <$> (right_residue mid r :: mid)) blk]> h)
                        n fs' (l ++ replicate m MoveAssign))) →
  (∀ fs' l' blk', shape blk' = shape blk → E (mkWorld o (<[b := blk']> h) n fs' l')) →
  wp (move_backward_n (Some b, p + m) m (Some b, S (p + m)))
     (mkWorld o h n fs l) Q E.
Proof.
  revert mid blk r h fs l.
  induction m as [|m IH]; intros mid blk r h fs l Hb Hlen Hs HQ HE.
  - simpl. apply wp_ret. destruct mid; [|done]. specialize (HQ fs).
    apply slice_cons_inv in Hs as [Hi _].
    change (list_inserts p (Some <$> [right_residue [] r]) blk) with (<[p := Some r]> blk) in HQ.
    by rewrite (list_insert_id blk), insert_id, app_nil_r in HQ.
  - destruct mid as [|z mid _] using rev_ind; [done|].
    rewrite length_app in Hlen; simpl in Hlen.
    assert (length mid = m) as Hm by lia. clear Hlen. subst m.
    rewrite fmap_app in Hs.
    replace (S (S (length mid))) with (S (length (Some <$> (mid ++ [z])))) in Hs
      by (by rewrite length_fmap, length_app, Nat.add_1_r).
    apply slice_snoc_inv in Hs as [Hs Hr].
    rewrite length_fmap, length_app, Nat.add_1_r in Hs, Hr.
    rewrite fmap_app in Hs.
    replace (S (length mid)) with (S (length (Some <$> mid))) in Hs
      by (by rewrite length_fmap).
    apply slice_snoc_inv in Hs as [Hs Hz].
    rewrite length_fmap in Hs, Hz. rewrite Nat.add_succ_r in Hr.
    rewrite Nat.add_succ_r. simpl.
    apply wp_bind.
    eapply wp_move_assign; [done..| |].
    2:{ intros fs'. specialize (HE fs' l blk eq_refl). by rewrite insert_id in HE. }
    intros fs1.
    eapply (IH mid _ (moved_from z)).
    + by rewrite lookup_insert_eq.
    + done.
    + rewrite fmap_app. 
      replace (S (length mid)) with (S (length (Some <$> mid))) by (by rewrite length_fmap).
      apply slice_snoc.
      * rewrite length_fmap, !slice_insert_ge by lia. done.
      * rewrite length_fmap. apply list_lookup_insert_eq.
        rewrite length_insert. by eapply lookup_lt_Some.
    + intros fs'. rewrite insert_insert_eq, log_step.
      specialize (HQ fs'). rewrite right_residue_snoc in HQ.
      replace (Some <$> right_residue mid (moved_from z) :: mid ++ [z])
        with ((Some <$> right_residue mid (moved_from z) :: mid) ++ [Some z]) in HQ
        by (by rewrite app_comm_cons, fmap_app).
      rewrite list_inserts_snoc, length_fmap in HQ. simpl length in HQ.
      rewrite Nat.add_succ_r in HQ.
      rewrite list_inserts_insert_in by (rewrite length_fmap; simpl; lia).
      apply HQ.
    + intros fs' l' blk' Hshape. rewrite insert_insert_eq. apply HE.
      rewrite Hshape. erewrite shape_insert_live.
      * by eapply shape_insert_live.
      * rewrite list_lookup_insert_ne by lia. done.
Qed.

End BackwardMoves.


(** * The representation of a vector *)

Section Layout.
Context {T : Type}.
Implicit Types (xs ys : list T) (blk : list (option T)).

(** The block of a vector of capacity [cap] holding [xs]: the elements,
    then raw slots. *)
Definition block_of (xs : list T) (cap : nat) : list (option T) :=
  (Some <$> xs) ++ replicate (cap - length xs) None.

Lemma length_block_of xs cap : length xs ≤ cap → length (block_of xs cap) = cap.
Proof. intros. unfold block_of. rewrite length_app, length_fmap, length_replicate. lia. Qed.

Lemma block_of_nil cap : block_of [] cap = replicate cap None.
Proof. unfold block_of; simpl. by rewrite Nat.sub_0_r. Qed.

Lemma list_inserts_splice {A} (l ys : list A) i :
  i + length ys ≤ length l →
  list_inserts i ys l = take i l ++ ys ++ drop (i + length ys) l.
Proof.
  intros Hlen.
  rewrite <-(take_drop i l) at 1.
  assert (length (take i l) = i) as Hi by (rewrite length_take; lia).
  rewrite <-Hi at 1. rewrite <-(Nat.add_0_r (length (take i l))).
  rewrite list_inserts_app_r. f_equal.
  rewrite <-(take_drop (length ys) (drop i l)) at 1.
  rewrite list_inserts_0_r by (rewrite length_take, length_drop; lia).
  by rewrite drop_drop.
Qed.

Lemma block_of_slice xs cap i k :
  i + k ≤ length xs →
  take k (drop i (block_of xs cap)) = Some <$> take k (drop i xs).
Proof.
  intros. unfold block_of. rewrite drop_app_le by (rewrite length_fmap; lia).
  rewrite take_app_le by (rewrite length_drop, length_fmap; lia).
  by rewrite fmap_take, fmap_drop.
Qed.

Lemma block_of_slice_all xs cap :
  take (length xs) (drop 0 (block_of xs cap)) = Some <$> xs.
Proof. rewrite block_of_slice by lia. simpl. by rewrite firstn_all. Qed.

Lemma block_of_slice_raw xs cap k :
  length xs + k ≤ cap →
  take k (drop (length xs) (block_of xs cap)) = replicate k None.
Proof.
  intros. unfold block_of.
  rewrite drop_app_length' by (by rewrite length_fmap).
  rewrite take_replicate. f_equal. lia.
Qed.

Lemma block_of_lookup xs cap i x :
  xs !! i = Some x → block_of xs cap !! i = Some (Some x).
Proof.
  intros Hi. unfold block_of. apply lookup_app_l_Some.
  by rewrite list_lookup_fmap, Hi.
Qed.

Lemma block_of_lookup_raw xs cap i :
  length xs ≤ i < cap → block_of xs cap !! i = Some None.
Proof.
  intros Hi. unfold block_of. rewrite lookup_app_r by (rewrite length_fmap; lia).
  apply lookup_replicate_2. rewrite length_fmap. lia.
Qed.

(** Overwriting elements in place. *)
Lemma block_of_inserts xs ys cap i :
  i + length ys ≤ length xs → length xs ≤ cap →
  list_inserts i (Some <$> ys) (block_of xs cap)
  = block_of (take i xs ++ ys ++ drop (i + length ys) xs) cap.
Proof.
  intros Hi Hcap.
  rewrite list_inserts_splice by (rewrite length_fmap, length_block_of; lia).
  unfold block_of. rewrite length_fmap.
  rewrite take_app_le, drop_app_le by (rewrite length_fmap; lia).
  rewrite !fmap_app, <-fmap_take, <-fmap_drop, <-!app_assoc.
  do 3 f_equal. rewrite !length_app, length_take, length_drop. f_equal. lia.
Qed.

(** Building elements in the raw slots that follow the live ones. *)
Lemma block_of_inserts_end xs ys cap :
  length xs + length ys ≤ cap →
  list_inserts (length xs) (Some <$> ys) (block_of xs cap) = block_of (xs ++ ys) cap.
Proof.
  intros Hcap.
  rewrite list_inserts_splice by (rewrite length_fmap, length_block_of; lia).
  unfold block_of. rewrite length_fmap.
  rewrite take_app_length' by (by rewrite length_fmap).
  rewrite drop_app_ge by (rewrite length_fmap; lia).
  rewrite drop_replicate, fmap_app, <-app_assoc, length_fmap, length_app.
  do 3 f_equal. lia.
Qed.

Lemma block_of_insert_end xs x cap :
  length xs < cap →
  <[length xs := Some x]> (block_of xs cap) = block_of (xs ++ [x]) cap.
Proof.
  intros. rewrite <-block_of_inserts_end by (simpl; lia). done.
Qed.

(** Destroying the elements from index [i] on. *)
Lemma block_of_destroy xs cap i :
  i ≤ length xs → length xs ≤ cap →
  list_inserts i (replicate (length xs - i) None) (block_of xs cap) = block_of (take i xs) cap.
Proof.
  intros Hi Hcap.
  rewrite list_inserts_splice
    by (rewrite length_replicate, length_block_of; lia).
  unfold block_of. rewrite length_replicate.
  rewrite take_app_le by (rewrite length_fmap; lia).
  rewrite drop_app_ge by (rewrite length_fmap; lia).
  rewrite drop_replicate, <-fmap_take, length_fmap, length_take.
  f_equal. rewrite <-replicate_add. f_equal. lia.
Qed.

Lemma block_of_shape xs ys cap :
  length xs = length ys → shape (block_of xs cap) = shape (block_of ys cap).
Proof.
  intros Hlen. unfold shape, block_of. rewrite !fmap_app, <-!list_fmap_compose, Hlen.
  f_equal. apply list_eq; intros i. rewrite !list_lookup_fmap.
  destruct (xs !! i) eqn:Hx, (ys !! i) eqn:Hy; simpl; try done.
  - apply lookup_lt_Some in Hx. apply lookup_ge_None in Hy. lia.
  - apply lookup_lt_Some in Hy. apply lookup_ge_None in Hx. lia.
Qed.

End Layout.

Section Repr.
Context {T : Type} `{!Element T}.
Implicit Types (h : gmap addr (list (option T))) (v : Vector) (xs : list T).

(** [repr h v xs]: in the heap [h], the members [v] describe a vector that
    holds exactly the elements [xs]: [size_] counts them, they fit in the
    capacity, and the block has them in its first slots and nothing after;
    without a block the capacity is zero. *)
Definition repr h v xs : Prop :=
  size_ v = length xs ∧ length xs ≤ capacity_ (data_ v) ∧
  match buffer_ (data_ v) with
  | Some b => h !! b = Some (block_of xs (capacity_ (data_ v)))
  | None => capacity_ (data_ v) = 0
  end.

(** The heap with the block of [buf] replaced, or released. *)
Definition set_block (buf : option addr) (blk : list (option T)) h :=
  match buf with Some b => <[b := blk]> h | None => h end.
Definition release (buf : option addr) h :=
  match buf with Some b => delete b h | None => h end.
Definition release_log (buf : option addr) : list event :=
  match buf with Some _ => [Dealloc] | None => [] end.

End Repr.


Ltac heap_eq :=
  apply map_eq; intros ?;
  rewrite ?lookup_insert, ?lookup_delete;
  repeat (case_decide; simplify_eq; rewrite ?lookup_insert, ?lookup_delete; try done).

Section Growth.
Context {T : Type} `{!Element T}.
Implicit Types (o : gmap addr Vector) (h : gmap addr (list (option T))).
Implicit Types (n : addr) (fs : list bool) (l : list event).
Implicit Types (blk : list (option T)) (xs ys : list T) (v : Vector).

Lemma repr_frame h h' v xs :
  repr h v xs →
  (∀ b, buffer_ (data_ v) = Some b → h' !! b = h !! b) →
  repr h' v xs.
Proof.
  intros (Hsz & Hcap & Hb) Hh. repeat split; [done..|].
  destruct (buffer_ (data_ v)) as [b|]; [|done]. by rewrite Hh.
Qed.

Lemma repr_null h v xs : repr h v xs → buffer_ (data_ v) = None → xs = [].
Proof.
  intros (Hsz & Hcap & Hb) Hnull. rewrite Hnull in Hb. rewrite Hb in Hcap.
  destruct xs; [done|simpl in Hcap; lia].
Qed.

Lemma wp_Destroy a v xs o h n fs l (Q : unit → World T → Prop) E :
  o !! a = Some v → repr h v xs →
  Q tt (mkWorld o (set_block (buffer_ (data_ v)) (block_of [] (capacity_ (data_ v))) h)
                n fs (l ++ replicate (length xs) Dtor)) →
  wp (Vector.Destroy a) (mkWorld o h n fs l) Q E.
Proof.
  intros Ha Hr HQ. unfold Vector.Destroy. apply wp_bind.
  eapply wp_get; [done|].
  pose proof Hr as (Hsz & Hcap & Hb).
  destruct (buffer_ (data_ v)) as [b|] eqn:Hbuf.
  - unfold RawMemory.GetAddress. rewrite Hbuf, Hsz.
    eapply wp_destroy_n; [done|apply block_of_slice_all|done|].
    rewrite <-(Nat.sub_0_r (length xs)) at 1.
    by rewrite block_of_destroy by lia.
  - apply repr_null in Hr as ->; [|done]. rewrite Hsz. simpl.
    apply wp_ret. simpl in HQ. by rewrite app_nil_r in HQ.
Qed.

(** How the elements go from the old block to the new one. *)
Definition by_move : bool := is_nothrow_move_constructible || negb is_copy_constructible.
Definition transfer_event : event := if by_move then MoveCtor else CopyCtor.

(** What the old block holds once the elements are transferred. *)
Definition transferred (xs : list T) : list T :=
  if by_move then moved_from <$> xs else xs.

Lemma length_transferred xs : length (transferred xs) = length xs.
Proof. unfold transferred. destruct by_move; [by rewrite length_fmap|done]. Qed.

(** The heaps an exception may leave when elements of the block of [buf]
    were being moved: the same heap, or that block with some elements
    moved-from. *)
Definition damaged (buf : option addr) h h' : Prop :=
  h' = h ∨ ∃ b blk blk', buf = Some b ∧ h !! b = Some blk ∧
                          shape blk' = shape blk ∧ h' = <[b := blk']> h.

Lemma wp_Reallocate a v xs nb k nblk o h n fs l (Q : unit → World T → Prop) E :
  o !! a = Some v → repr h v xs → buffer_ (data_ v) ≠ Some nb →
  h !! nb = Some nblk → take (length xs) (drop 0 nblk) = replicate (length xs) None →
  (∀ fs', Q tt (mkWorld o
     (<[nb := list_inserts 0 (Some <$> xs) nblk]>
        (set_block (buffer_ (data_ v)) (block_of (transferred xs) (capacity_ (data_ v))) h))
     n fs' (l ++ replicate (length xs) transfer_event))) →
  (∀ fs' l' h',
     (is_nothrow_move_constructible = true ∨ is_copy_constructible = true → h' = h) →
     damaged (buffer_ (data_ v)) h h' →
     E (mkWorld o h' n fs' l')) →
  wp (Vector.Reallocate a (mkRawMemory (Some nb) k)) (mkWorld o h n fs l) Q E.
Proof.
  intros Ha Hr Hne Hnb Hraw HQ HE. unfold Vector.Reallocate. apply wp_bind.
  eapply wp_get; [done|].
  pose proof Hr as (Hsz & Hcap & Hb).
  unfold transferred, transfer_event, by_move in HQ.
  destruct (buffer_ (data_ v)) as [b|] eqn:Hbuf.
  2:{ apply repr_null in Hr as ->; [|done]. rewrite Hsz.
      specialize (HQ fs). simpl in HQ. rewrite app_nil_r, insert_id in HQ by done.
      unfold RawMemory.GetAddress. rewrite Hbuf. simpl.
      destruct (is_nothrow_move_constructible || negb is_copy_constructible);
        simpl; by apply wp_ret. }
  unfold RawMemory.GetAddress. rewrite Hbuf, Hsz. simpl.
  assert (b ≠ nb) by congruence.
  destruct (is_nothrow_move_constructible || negb is_copy_constructible) eqn:Hmv.
  - eapply wp_uninitialized_move_n; [done|done|apply block_of_slice_all|done..| |].
    + intros fs'. specialize (HQ fs'). simpl in HQ.
      rewrite block_of_inserts by (simpl; rewrite ?length_fmap; lia).
      simpl. rewrite length_fmap, drop_all, app_nil_r.
      rewrite insert_insert_ne by done. apply HQ.
    + intros Hn fs' l' sblk' Hshape. apply HE.
      * intros [Ht|Ht]; [congruence|]. rewrite Hn, Ht in Hmv. done.
      * right. eauto 10.
  - eapply wp_uninitialized_copy_n; [done|done|apply block_of_slice_all|done..| |].
    + intros fs'. specialize (HQ fs'). simpl in HQ.
      rewrite (insert_id h b) in HQ by done. apply HQ.
    + intros fs' l'. apply HE; [done|by left].
Qed.

(** The end of every growth path:
    [Destroy(); data_.Swap(new_data);] and the destruction of [new_data]. *)
Lemma wp_adopt a v ys nd o h n fs l (Q : unit → World T → Prop) E :
  o !! a = Some v → repr h v ys →
  Q tt (mkWorld (<[a := mkVector nd (size_ v)]> o) (release (buffer_ (data_ v)) h) n fs
                (l ++ replicate (length ys) Dtor ++ release_log (buffer_ (data_ v)))) →
  wp (Vector.Destroy a;; new_data ← Vector.swap_data a nd; RawMemory.dtor new_data)
     (mkWorld o h n fs l) Q E.
Proof.
  intros Ha Hr HQ. apply wp_bind. eapply wp_Destroy; [done..|].
  apply wp_bind. unfold Vector.swap_data. apply wp_bind.
  eapply wp_get; [done|]. simpl. apply wp_bind.
  eapply wp_set_data; [done|]. apply wp_ret.
  unfold RawMemory.dtor.
  destruct Hr as (Hsz & Hcap & Hb).
  destruct (buffer_ (data_ v)) as [b|]; simpl in *.
  - eapply wp_Deallocate; [by rewrite lookup_insert_eq|].
    rewrite delete_insert_eq, <-app_assoc. apply HQ.
  - apply wp_Deallocate_null. by rewrite app_nil_r in HQ.
Qed.

End Growth.


Section GrowthFailure.
Context {T : Type} `{!Element T}.
Implicit Types (o : gmap addr Vector) (h : gmap addr (list (option T))).
Implicit Types (n : addr) (fs : list bool) (l : list event).
Implicit Types (blk : list (option T)) (xs ys : list T) (v : Vector).

(** The states an exception may leave behind a growth path: the heap is
    untouched when the elements are copied or cannot fail to move;
    otherwise some elements of the old block may be moved-from. *)
Definition after_throw (buf : option addr) h h' : Prop :=
  (is_nothrow_move_constructible = true ∨ is_copy_constructible = true → h' = h) ∧
  damaged buf h h'.

Lemma after_throw_refl buf h : after_throw buf h h.
Proof. split; [done|by left]. Qed.

Lemma damaged_fresh buf h h' nb nblk :
  h !! nb = None → damaged buf (<[nb := nblk]> h) h' →
  is_Some (h' !! nb) ∧ damaged buf h (delete nb h').
Proof.
  intros Hnb [->|(b & blk & blk' & -> & Hb & Hshape & ->)].
  - rewrite lookup_insert_eq. split; [by eexists|]. left. by rewrite delete_insert_id.
  - destruct (decide (b = nb)) as [->|Hne].
    + rewrite lookup_insert_eq. split; [by eexists|]. left.
      by rewrite insert_insert_eq, delete_insert_id.
    + rewrite lookup_insert_ne, lookup_insert_eq by done. split; [by eexists|].
      right. exists b, blk, blk'. rewrite lookup_insert_ne in Hb by done.
      repeat split; [done..|]. heap_eq.
Qed.

Lemma wp_grow a v xs k (build : RawMemory → M T unit) nblk' ys evs o h n fs l
    (Q : unit → World T → Prop) E :
  o !! a = Some v → repr h v xs → h !! n = None → k ≠ 0 → length ys = length xs →
  (∀ fs1 (Q' : unit → World T → Prop) (E' : World T → Prop),
     (∀ fs', Q' tt (mkWorld o (<[n := nblk']>
                       (set_block (buffer_ (data_ v)) (block_of ys (capacity_ (data_ v))) h))
                     (S n) fs' ((l ++ [Alloc]) ++ evs))) →
     (∀ fs' l' h', is_Some (h' !! n) → after_throw (buffer_ (data_ v)) h (delete n h') →
                   E' (mkWorld o h' (S n) fs' l')) →
     wp (build (mkRawMemory (Some n) k))
        (mkWorld o (<[n := replicate k None]> h) (S n) fs1 (l ++ [Alloc])) Q' E') →
  (∀ fs', Q tt (mkWorld (<[a := mkVector (mkRawMemory (Some n) k) (size_ v)]> o)
                        (<[n := nblk']> (release (buffer_ (data_ v)) h)) (S n) fs'
                        (l ++ [Alloc] ++ evs ++ replicate (length xs) Dtor
                           ++ release_log (buffer_ (data_ v))))) →
  (∀ fs' l' n' h', after_throw (buffer_ (data_ v)) h h' → E (mkWorld o h' n' fs' l')) →
  wp (new_data ← RawMemory.ctor k;
      on_throw (build new_data) (RawMemory.dtor new_data);;
      Vector.Destroy a;;
      new_data ← Vector.swap_data a new_data;
      RawMemory.dtor new_data)
     (mkWorld o h n fs l) Q E.
Proof.
  intros Ha Hr Hn Hk Hlen Hbuild HQ HE.
  pose proof Hr as (Hsz & Hcap & Hb).
  assert (buffer_ (data_ v) ≠ Some n) as Hne.
  { intros Heq. rewrite Heq in Hb. congruence. }
  apply wp_bind, wp_ctor; [|done|].
  2:{ intros _ fs'. apply HE, after_throw_refl. }
  intros _ fs1. apply wp_bind, wp_on_throw. apply Hbuild.
  - intros fs2. eapply wp_adopt; [done| |].
    + repeat split; [by rewrite Hlen|lia|].
      destruct (buffer_ (data_ v)) as [b|]; simpl; [|done].
      rewrite lookup_insert_ne by congruence. by rewrite lookup_insert_eq.
    + specialize (HQ fs2).
      assert (release (buffer_ (data_ v))
                (<[n:=nblk']> (set_block (buffer_ (data_ v))
                                 (block_of ys (capacity_ (data_ v))) h))
              = <[n:=nblk']> (release (buffer_ (data_ v)) h)) as ->.
      { destruct (buffer_ (data_ v)) as [b|]; simpl; [|done].
        assert (b ≠ n) by congruence. heap_eq. }
      rewrite Hlen, <-!app_assoc. apply HQ.
  - intros fs' l' h' [blk Hblk] Hafter. unfold RawMemory.dtor; simpl.
    eapply wp_Deallocate; [done|]. by apply HE.
Qed.

Lemma after_throw_fresh buf h h' nb nblk :
  h !! nb = None → after_throw buf (<[nb := nblk]> h) h' →
  is_Some (h' !! nb) ∧ after_throw buf h (delete nb h').
Proof.
  intros Hnb [Hstrong Hd]. apply damaged_fresh in Hd as [? ?]; [|done].
  repeat split; [done| |done].
  intros Hc. rewrite (Hstrong Hc). by rewrite delete_insert_id.
Qed.

Lemma after_throw_fresh_upd buf h h' nb nblk nblk' :
  h !! nb = None → after_throw buf (<[nb := nblk]> (<[nb := nblk']> h)) h' →
  is_Some (h' !! nb) ∧ after_throw buf h (delete nb h').
Proof. rewrite insert_insert_eq. apply after_throw_fresh. Qed.

Lemma replicate_raw_slice k j i :
  i + j ≤ k → take j (drop i (replicate k (@None T))) = replicate j None.
Proof. intros. rewrite drop_replicate, take_replicate. f_equal. lia. Qed.

Lemma wp_Reserve a v xs k o h n fs l (Q : unit → World T → Prop) E :
  o !! a = Some v → repr h v xs → h !! n = None →
  (k ≤ capacity_ (data_ v) → Q tt (mkWorld o h n fs l)) →
  (capacity_ (data_ v) < k → ∀ fs',
     Q tt (mkWorld (<[a := mkVector (mkRawMemory (Some n) k) (size_ v)]> o)
                   (<[n := block_of xs k]> (release (buffer_ (data_ v)) h)) (S n) fs'
                   (l ++ [Alloc] ++ replicate (length xs) transfer_event
                      ++ replicate (length xs) Dtor ++ release_log (buffer_ (data_ v))))) →
  (capacity_ (data_ v) < k → ∀ fs' l' n' h',
     after_throw (buffer_ (data_ v)) h h' → E (mkWorld o h' n' fs' l')) →
  wp (Vector.Reserve a k) (mkWorld o h n fs l) Q E.
Proof.
  intros Ha Hr Hn HQ0 HQ HE. unfold Vector.Reserve.
  apply wp_bind. eapply wp_get; [done|].
  unfold RawMemory.Capacity. case_decide as Hk.
  { apply wp_ret. by apply HQ0. }
  pose proof Hr as (Hsz & Hcap & Hb).
  assert (buffer_ (data_ v) ≠ Some n) as Hne.
  { intros Heq. rewrite Heq in Hb. congruence. }
  eapply (wp_grow _ _ xs _ _ (block_of xs k) (transferred xs));
    [done|done|done|lia|apply length_transferred| |apply HQ; lia|apply HE; lia].
  intros fs1 Q' E' HQ' HE'.
  eapply wp_Reallocate; [done| |done|by rewrite lookup_insert_eq| | |].
  - eapply repr_frame; [done|]. intros b ?. rewrite lookup_insert_ne; congruence.
  - apply replicate_raw_slice. lia.
  - intros fs'. specialize (HQ' fs').
    rewrite <-block_of_nil.
    rewrite (block_of_inserts_end []) by (simpl; lia). simpl.
    assert (<[n:=block_of xs k]> (set_block (buffer_ (data_ v))
              (block_of (transferred xs) (capacity_ (data_ v)))
              (<[n:=block_of [] k]> h))
            = <[n:=block_of xs k]> (set_block (buffer_ (data_ v))
              (block_of (transferred xs) (capacity_ (data_ v))) h)) as ->; [|done].
    destruct (buffer_ (data_ v)) as [b|]; simpl; [|by rewrite insert_insert_eq].
    assert (b ≠ n) by congruence. heap_eq.
  - intros fs' l' h' Hstrong Hd.
    destruct (after_throw_fresh (buffer_ (data_ v)) h h' n (replicate k None)) as [? ?];
      [done|by split|]. by apply HE'.
Qed.

End GrowthFailure.


Section Push.
Context {T : Type} `{!Element T}.
Implicit Types (o : gmap addr Vector) (h : gmap addr (list (option T))).
Implicit Types (n : addr) (fs : list bool) (l : list event).
Implicit Types (blk : list (option T)) (xs ys : list T) (v : Vector).

(** The capacity a full vector of the given size grows to. *)
Definition grown (size : nat) : nat := if decide (size = 0) then 1 else size * 2.

Lemma grown_gt size : size < grown size.
Proof. unfold grown. case_decide; lia. Qed.

Lemma fresh_block_snoc k xs (x : T) :
  length xs < k →
  list_inserts 0 (Some <$> xs) (<[length xs := Some x]> (replicate k None))
  = block_of (xs ++ [x]) k.
Proof.
  intros. rewrite <-block_of_nil.
  pose proof (block_of_inserts_end [] (xs ++ [x]) k) as Heq. simpl in Heq.
  rewrite <-Heq by (rewrite length_app; simpl; lia).
  rewrite fmap_app. simpl. rewrite list_inserts_snoc, length_fmap. done.
Qed.

Lemma fresh_block_fill k (pre : list T) (x : T) (suf : list T) :
  length pre + 1 + length suf ≤ k →
  list_inserts (S (length pre)) (Some <$> suf)
    (list_inserts 0 (Some <$> pre) (<[length pre := Some x]> (replicate k None)))
  = block_of (pre ++ [x] ++ suf) k.
Proof.
  intros. rewrite fresh_block_snoc by lia.
  replace (S (length pre)) with (length (pre ++ [x])) by (rewrite length_app; simpl; lia).
  rewrite block_of_inserts_end by (rewrite length_app; simpl; lia).
  by rewrite <-app_assoc.
Qed.

(** The building of the new block in [PushBack] and [EmplaceBack]. *)
Lemma wp_build_push how a v xs x k nd_ptr o h n fs l
    (Q : unit → World T → Prop) (E : World T → Prop) :
  o !! a = Some v → repr h v xs → h !! n = None → length xs < k →
  nd_ptr = (Some n, length xs) →
  (∀ fs', Q tt (mkWorld o (<[n := block_of (xs ++ [x]) k]>
                    (set_block (buffer_ (data_ v))
                       (block_of (transferred xs) (capacity_ (data_ v))) h))
                  (S n) fs' ((l ++ [Alloc]) ++ [event_of how]
                               ++ replicate (length xs) transfer_event))) →
  (∀ fs' l' h', is_Some (h' !! n) → after_throw (buffer_ (data_ v)) h (delete n h') →
                E (mkWorld o h' (S n) fs' l')) →
  wp (construct_from how nd_ptr x;; Vector.Reallocate a (mkRawMemory (Some n) k))
     (mkWorld o (<[n := replicate k None]> h) (S n) fs (l ++ [Alloc])) Q E.
Proof.
  intros Ha Hr Hn Hk -> HQ HE.
  pose proof Hr as (Hsz & Hcap & Hb).
  assert (buffer_ (data_ v) ≠ Some n) as Hne.
  { intros Heq. rewrite Heq in Hb. congruence. }
  apply wp_bind.
  eapply wp_construct_from; [by rewrite lookup_insert_eq|by rewrite length_replicate| |].
  2:{ intros _ fs'. apply HE; [by rewrite lookup_insert_eq|].
      rewrite delete_insert_id by done. apply after_throw_refl. }
  intros fs1. rewrite insert_insert_eq.
  eapply wp_Reallocate; [done| |done|by rewrite lookup_insert_eq| | |].
  - eapply repr_frame; [done|]. intros b ?. rewrite lookup_insert_ne; congruence.
  - rewrite slice_insert_ge by lia. apply replicate_raw_slice. lia.
  - intros fs'. specialize (HQ fs'). rewrite fresh_block_snoc by done.
    assert (∀ blk, <[n:=block_of (xs ++ [x]) k]> (set_block (buffer_ (data_ v)) blk
              (<[n:=<[length xs:=Some x]> (replicate k None)]> h))
            = <[n:=block_of (xs ++ [x]) k]> (set_block (buffer_ (data_ v)) blk h)) as ->.
    { intros blk. destruct (buffer_ (data_ v)) as [b|]; simpl; [|by rewrite insert_insert_eq].
      assert (b ≠ n) by congruence. heap_eq. }
    rewrite <-!app_assoc. rewrite <-!app_assoc in HQ. apply HQ.
  - intros fs' l' h' Hstrong Hd.
    destruct (after_throw_fresh (buffer_ (data_ v)) h h' n
                (<[length xs:=Some x]> (replicate k None))) as [? ?];
      [done|by split|]. by apply HE.
Qed.

Definition push_with (how : ctor_kind) (this : addr) (value : T) : M T unit :=
  v ← Vector.get this;
  (if decide (RawMemory.Capacity (data_ v) = size_ v) then
     new_data ← RawMemory.ctor (if decide (size_ v = 0) then 1 else size_ v * 2);
     on_throw
       (construct_from how (ptr_add (RawMemory.GetAddress new_data) (size_ v)) value;;
        Vector.Reallocate this new_data)
       (RawMemory.dtor new_data);;
     Vector.Destroy this;;
     new_data ← Vector.swap_data this new_data;
     RawMemory.dtor new_data
   else
     p ← RawMemory.plus (data_ v) (size_ v);
     construct_from how p value);;
  v ← Vector.get this; Vector.set_size this (size_ v + 1).

Lemma PushBack_push_with a x : Vector.PushBack a x = push_with FromCopy a x.
Proof. reflexivity. Qed.
Lemma PushBack_move_push_with a x : Vector.PushBack_move a x = push_with FromMove a x.
Proof. reflexivity. Qed.

(** The members after an element was added: the old block if there was
    room, else the block [n] of the grown capacity. *)
Definition pushed (v : Vector) (n : addr) : Vector :=
  if decide (capacity_ (data_ v) = size_ v)
  then mkVector (mkRawMemory (Some n) (grown (size_ v))) (S (size_ v))
  else mkVector (data_ v) (S (size_ v)).

Lemma wp_push_with how a v xs x o h n fs l (Q : unit → World T → Prop) E :
  o !! a = Some v → repr h v xs → h !! n = None →
  (length xs < capacity_ (data_ v) → ∀ fs',
     Q tt (mkWorld (<[a := mkVector (data_ v) (S (size_ v))]> o)
                   (set_block (buffer_ (data_ v))
                              (block_of (xs ++ [x]) (capacity_ (data_ v))) h)
                   n fs' (l ++ [event_of how]))) →
  (length xs = capacity_ (data_ v) → ∀ fs',
     Q tt (mkWorld (<[a := mkVector (mkRawMemory (Some n) (grown (size_ v))) (S (size_ v))]> o)
                   (<[n := block_of (xs ++ [x]) (grown (size_ v))]>
                      (release (buffer_ (data_ v)) h))
                   (S n) fs'
                   (l ++ [Alloc] ++ ([event_of how] ++ replicate (length xs) transfer_event)
                      ++ replicate (length xs) Dtor ++ release_log (buffer_ (data_ v))))) →
  (∀ fs' l' n' h', after_throw (buffer_ (data_ v)) h h' → E (mkWorld o h' n' fs' l')) →
  wp (push_with how a x) (mkWorld o h n fs l) Q E.
Proof.
  intros Ha Hr Hn HQ1 HQ2 HE. unfold push_with.
  pose proof Hr as (Hsz & Hcap & Hb).
  apply wp_bind. eapply wp_get; [done|].
  unfold RawMemory.Capacity. apply wp_bind. case_decide as Hfull.
  - fold (grown (size_ v)).
    eapply (wp_grow _ _ xs _ _ (block_of (xs ++ [x]) (grown (size_ v))) (transferred xs));
      [done|done|done|pose proof (grown_gt (size_ v)); lia|apply length_transferred| | |done].
    + intros fs1 Q' E' HQ' HE'. unfold RawMemory.GetAddress, ptr_add; simpl.
      eapply wp_build_push; [done..| |by rewrite Hsz|done|done].
      pose proof (grown_gt (size_ v)). lia.
    + intros fs'. apply wp_bind. eapply wp_get; [by rewrite lookup_insert_eq|].
      eapply wp_set_size; [by rewrite lookup_insert_eq|]. simpl.
      rewrite insert_insert_eq, Nat.add_1_r. apply HQ2. lia.
  - assert (length xs < capacity_ (data_ v)) as Hlt by lia.
    destruct (buffer_ (data_ v)) as [b|] eqn:Hbuf; [|lia].
    unfold RawMemory.plus. rewrite decide_True by lia. apply wp_bind, wp_ret.
    rewrite Hbuf, Hsz.
    eapply wp_construct_from; [done|by rewrite length_block_of| |].
    2:{ intros _ fs'. apply HE, after_throw_refl. }
    intros fs'. apply wp_bind. eapply wp_get; [done|].
    eapply wp_set_size; [done|]. rewrite Nat.add_1_r.
    rewrite block_of_insert_end by done. rewrite Hsz. specialize (HQ1 Hlt fs').
    simpl in HQ1. by rewrite Hsz in HQ1.
Qed.

End Push.


Section EmplaceGrow.
Context {T : Type} `{!Element T}.
Implicit Types (o : gmap addr Vector) (h : gmap addr (list (option T))).
Implicit Types (n : addr) (fs : list bool) (l : list event).
Implicit Types (blk : list (option T)) (xs ys : list T) (v : Vector).

(** The transfer written out in [Emplace]: the prefix keeps its indices,
    the suffix moves up by one. *)
Definition emplace_transfer (v : Vector) (pos : nat) (new_data : RawMemory) : M T unit :=
  if is_nothrow_move_constructible || negb is_copy_constructible then
    uninitialized_move_n (RawMemory.GetAddress (data_ v)) pos
                         (RawMemory.GetAddress new_data);;
    uninitialized_move_n (ptr_add (RawMemory.GetAddress (data_ v)) pos)
                         (size_ v - pos)
                         (ptr_add (ptr_add (RawMemory.GetAddress new_data) pos) 1)
  else
    uninitialized_copy_n (RawMemory.GetAddress (data_ v)) pos
                         (RawMemory.GetAddress new_data);;
    uninitialized_copy_n (ptr_add (RawMemory.GetAddress (data_ v)) pos)
                         (size_ v - pos)
                         (ptr_add (ptr_add (RawMemory.GetAddress new_data) pos) 1).

Lemma transfer_event_add i j :
  replicate i transfer_event ++ replicate j transfer_event = replicate (i + j) transfer_event.
Proof. by rewrite replicate_add. Qed.

Lemma wp_emplace_transfer v pre suf x k o h n fs l
    (Q : unit → World T → Prop) (E : World T → Prop) :
  repr h v (pre ++ suf) → h !! n = None → length (pre ++ suf) < k →
  (∀ fs', Q tt (mkWorld o (<[n := block_of (pre ++ [x] ++ suf) k]>
                    (set_block (buffer_ (data_ v))
                       (block_of (transferred (pre ++ suf)) (capacity_ (data_ v))) h))
                  (S n) fs' (l ++ replicate (length (pre ++ suf)) transfer_event))) →
  (∀ fs' l' h', is_Some (h' !! n) → after_throw (buffer_ (data_ v)) h (delete n h') →
                E (mkWorld o h' (S n) fs' l')) →
  wp (emplace_transfer v (length pre) (mkRawMemory (Some n) k))
     (mkWorld o (<[n := <[length pre := Some x]> (replicate k None)]> h) (S n) fs l) Q E.
Proof.
  intros Hr Hn Hk HQ HE.
  pose proof Hr as (Hsz & Hcap & Hb).
  assert (buffer_ (data_ v) ≠ Some n) as Hne.
  { intros Heq. rewrite Heq in Hb. congruence. }
  rewrite length_app in Hk, Hcap.
  unfold emplace_transfer, RawMemory.GetAddress, ptr_add; simpl.
  unfold transferred, transfer_event, by_move in HQ.
  rewrite Hsz, length_app. replace (length pre + length suf - length pre) with (length suf) by lia.
  destruct (buffer_ (data_ v)) as [b|] eqn:Hbuf.
  2:{ apply repr_null in Hr; [|done]. apply app_eq_nil in Hr as [-> ->]. simpl in *.
      assert (block_of [x] k = <[0:=Some x]> (replicate k None)) as Heq.
      { pose proof (fresh_block_snoc k [] x) as Hf. simpl in Hf. by rewrite Hf by lia. }
      specialize (HQ fs).
      destruct (is_nothrow_move_constructible || negb is_copy_constructible);
        simpl in *; rewrite app_nil_r, Heq in HQ; apply wp_bind, wp_ret, wp_ret, HQ. }
  assert (b ≠ n) by congruence.
  assert (take (length pre) (drop 0 (block_of (pre ++ suf) (capacity_ (data_ v))))
          = Some <$> pre) as Hpre.
  { rewrite block_of_slice by (rewrite length_app; lia).
    by rewrite drop_0, take_app_length. }
  destruct (is_nothrow_move_constructible || negb is_copy_constructible) eqn:Hmv.
  - apply wp_bind.
    eapply (wp_uninitialized_move_n b 0 n 0 (length pre) _ _ pre);
      [done|by rewrite lookup_insert_ne|done|done
      |by rewrite lookup_insert_eq| | |].
    { rewrite slice_insert_ge by lia. apply replicate_raw_slice. lia. }
    + intros fs1.
      rewrite block_of_inserts by (rewrite ?length_fmap, ?length_app; lia). simpl.
      rewrite length_fmap, drop_app_length.
      rewrite fresh_block_snoc by lia.
      eapply (wp_uninitialized_move_n b (length pre) n (length pre + 1) (length suf) _ _ suf);
        [done|by rewrite lookup_insert_eq| |done
        |by rewrite lookup_insert_ne, lookup_insert_eq| | |].
      * rewrite block_of_slice by (rewrite length_app, length_fmap; lia).
        rewrite drop_app_length' by (by rewrite length_fmap).
        by rewrite take_ge by lia.
      * replace (length pre + 1) with (length (pre ++ [x]))
          by (rewrite length_app; simpl; lia).
        apply block_of_slice_raw. rewrite length_app; simpl. lia.
      * intros fs'. specialize (HQ fs'). simpl in HQ.
        rewrite block_of_inserts
          by (rewrite ?length_fmap, ?length_app, ?length_fmap; lia).
        rewrite take_app_length' by (by rewrite length_fmap).
        rewrite drop_ge, app_nil_r
          by (rewrite ?length_fmap, ?length_app, ?length_fmap; lia).
        rewrite <-fmap_app.
        replace (length pre + 1) with (length (pre ++ [x]))
          by (rewrite length_app; simpl; lia).
        rewrite block_of_inserts_end by (rewrite length_app; simpl; lia).
        rewrite <-(app_assoc _ [x]).
        rewrite <-app_assoc, <-replicate_add, <-length_app.
        assert (∀ A B A' B' : list (option T),
                  <[b:=A]> (<[n:=B]> (<[b:=A']> (<[n:=B']> (<[n:=<[length pre:=Some x]> (replicate k None)]> h))))
                  = <[n:=B]> (<[b:=A]> h)) as ->; [intros; heap_eq|].
        apply HQ.
      * intros Hn' fs' l' sblk' Hshape. apply HE.
        { rewrite !lookup_insert_ne by done. rewrite lookup_insert_eq. by eexists. }
        split.
        { intros [Ht|Ht]; [congruence|]. rewrite Hn', Ht in Hmv. done. }
        right. exists b, (block_of (pre ++ suf) (capacity_ (data_ v))), sblk'.
        repeat split; [done| |heap_eq].
        rewrite Hshape. apply block_of_shape.
        rewrite !length_app, length_fmap. done.
    + intros Hn' fs' l' sblk' Hshape. apply HE.
      { rewrite lookup_insert_ne, lookup_insert_eq by done. by eexists. }
      split.
      { intros [Ht|Ht]; [congruence|]. rewrite Hn', Ht in Hmv. done. }
      right. exists b, (block_of (pre ++ suf) (capacity_ (data_ v))), sblk'.
      repeat split; [done..|heap_eq].
  - apply wp_bind.
    eapply (wp_uninitialized_copy_n b 0 n 0 (length pre) _ _ pre);
      [done|by rewrite lookup_insert_ne|done|done
      |by rewrite lookup_insert_eq| | |].
    { rewrite slice_insert_ge by lia. apply replicate_raw_slice. lia. }
    + intros fs1. rewrite fresh_block_snoc by lia.
      eapply (wp_uninitialized_copy_n b (length pre) n (length pre + 1) (length suf) _ _ suf);
        [done|by rewrite !lookup_insert_ne| |done
        |by rewrite lookup_insert_eq| | |].
      * rewrite block_of_slice by (rewrite length_app; lia).
        rewrite drop_app_length. by rewrite take_ge by lia.
      * replace (length pre + 1) with (length (pre ++ [x]))
          by (rewrite length_app; simpl; lia).
        apply block_of_slice_raw. rewrite length_app; simpl. lia.
      * intros fs'. specialize (HQ fs'). simpl in HQ.
        replace (length pre + 1) with (length (pre ++ [x]))
          by (rewrite length_app; simpl; lia).
        rewrite block_of_inserts_end by (rewrite length_app; simpl; lia).
        rewrite <-(app_assoc _ [x]).
        rewrite <-app_assoc, <-replicate_add, <-length_app.
        rewrite !insert_insert_eq. rewrite (insert_id h b) in HQ by done. apply HQ.
      * intros fs' l'. apply HE.
        { rewrite lookup_insert_eq. by eexists. }
        rewrite !insert_insert_eq, delete_insert_id by done. apply after_throw_refl.
    + intros fs' l'. apply HE.
      { rewrite lookup_insert_eq. by eexists. }
      rewrite delete_insert_id by done. apply after_throw_refl.
Qed.

End EmplaceGrow.


Section EmplaceInPlace.
Context {T : Type} `{!Element T}.
Implicit Types (o : gmap addr Vector) (h : gmap addr (list (option T))).
Implicit Types (n : addr) (fs : list bool) (l : list event).
Implicit Types (blk : list (option T)) (xs ys : list T) (v : Vector).

Lemma wp_perform_Dtor o h n fs l (Q : unit → World T → Prop) E :
  Q tt (mkWorld o h n fs (l ++ [Dtor])) → wp (perform Dtor) (mkWorld o h n fs l) Q E.
Proof. intros HQ. unfold perform; simpl. by apply wp_bind, wp_ret, wp_emit. Qed.

(** The block after the three steps of [Emplace] without growth. *)
Lemma emplace_block pre mid (z x r : T) cap :
  length (pre ++ mid ++ [z]) < cap →
  <[length pre := Some x]>
    (list_inserts (length pre) (Some <$> (r :: mid))
       (<[length pre + length mid := Some (moved_from z)]>
          (<[S (length pre + length mid) := Some z]> (block_of (pre ++ mid ++ [z]) cap))))
  = block_of (pre ++ [x] ++ mid ++ [z]) cap.
Proof.
  intros Hlen. rewrite !length_app in Hlen; simpl in Hlen.
  rewrite fmap_cons. simpl list_inserts. rewrite list_insert_insert_eq.
  change (<[length pre:=Some x]> (list_inserts (S (length pre)) (Some <$> mid) ?b))
    with (list_inserts (length pre) (Some <$> (x :: mid)) b).
  rewrite list_inserts_insert_in by (rewrite length_fmap; simpl; lia).
  replace (S (length pre + length mid)) with (length (pre ++ mid ++ [z]))
    by (rewrite !length_app; simpl; lia).
  rewrite block_of_insert_end by (rewrite !length_app; simpl; lia).
  rewrite block_of_inserts by (rewrite !length_app; simpl; lia).
  f_equal. rewrite <-!app_assoc, take_app_length. f_equal.
  simpl. f_equal. rewrite drop_app_add' by done.
  replace (S (length mid)) with (length mid + 1) by lia.
  rewrite drop_app_add' by done. done.
Qed.

Lemma wp_Emplace how a v pre suf x o h n fs l (Q : ptr → World T → Prop) E :
  o !! a = Some v → repr h v (pre ++ suf) → h !! n = None →
  (length (pre ++ suf) = capacity_ (data_ v) ∨ suf ≠ []) →
  (length (pre ++ suf) < capacity_ (data_ v) → ∀ fs',
     Q (buffer_ (data_ v), length pre)
       (mkWorld (<[a := mkVector (data_ v) (S (size_ v))]> o)
                (set_block (buffer_ (data_ v))
                           (block_of (pre ++ [x] ++ suf) (capacity_ (data_ v))) h)
                n fs'
                (l ++ [event_of how; MoveCtor] ++ replicate (length suf - 1) MoveAssign
                   ++ [MoveAssign; Dtor]))) →
  (length (pre ++ suf) = capacity_ (data_ v) → ∀ fs',
     Q (Some n, length pre)
       (mkWorld (<[a := mkVector (mkRawMemory (Some n) (grown (size_ v))) (S (size_ v))]> o)
                (<[n := block_of (pre ++ [x] ++ suf) (grown (size_ v))]>
                   (release (buffer_ (data_ v)) h))
                (S n) fs'
                (l ++ [Alloc] ++ ([event_of how] ++ replicate (length (pre ++ suf)) transfer_event)
                   ++ replicate (length (pre ++ suf)) Dtor ++ release_log (buffer_ (data_ v))))) →
  (length (pre ++ suf) = capacity_ (data_ v) → ∀ fs' l' n' h',
     after_throw (buffer_ (data_ v)) h h' → E (mkWorld o h' n' fs' l')) →
  (length (pre ++ suf) < capacity_ (data_ v) → ∀ fs' l' b blk',
     buffer_ (data_ v) = Some b → length blk' = capacity_ (data_ v) →
     E (mkWorld o (<[b := blk']> h) n fs' l')) →
  wp (Vector.Emplace a (length pre) how x) (mkWorld o h n fs l) Q E.
Proof.
  intros Ha Hr Hn Hpre HQ1 HQ2 HE2 HE1. unfold Vector.Emplace.
  pose proof Hr as (Hsz & Hcap & Hb).
  apply wp_bind. eapply wp_get; [done|].
  unfold RawMemory.Capacity. apply wp_bind. case_decide as Hfull.
  - fold (grown (size_ v)).
    pose proof (grown_gt (size_ v)) as Hg.
    eapply (wp_grow _ _ (pre ++ suf) _ _ (block_of (pre ++ [x] ++ suf) (grown (size_ v)))
              (transferred (pre ++ suf)));
      [done|done|done|lia|apply length_transferred| | |apply HE2; lia].
    + intros fs1 Q' E' HQ' HE'. unfold RawMemory.plus; simpl.
      rewrite length_app in Hsz.
      rewrite decide_True by lia. apply wp_bind, wp_ret.
      apply wp_bind.
      eapply wp_construct_from;
        [by rewrite lookup_insert_eq|rewrite length_replicate; lia| |].
      2:{ intros _ fs'. apply HE'; [by rewrite lookup_insert_eq|].
          rewrite delete_insert_id by done. apply after_throw_refl. }
      intros fs2. rewrite insert_insert_eq.
      eapply (wp_emplace_transfer v pre suf); [done|done|rewrite length_app; lia| |].
      * intros fs'. specialize (HQ' fs'). rewrite <-!app_assoc in HQ'.
        rewrite <-!app_assoc. apply HQ'.
      * done.
    + intros fs'. apply wp_bind. eapply wp_get; [by rewrite lookup_insert_eq|].
      apply wp_bind. eapply wp_set_size; [by rewrite lookup_insert_eq|]. simpl.
      rewrite insert_insert_eq, Nat.add_1_r.
      apply wp_bind. unfold Vector.begin_. apply wp_bind.
      eapply wp_get; [by rewrite lookup_insert_eq|]. apply wp_ret, wp_ret.
      unfold ptr_add, RawMemory.GetAddress; simpl. apply HQ2. lia.
  - assert (length (pre ++ suf) < capacity_ (data_ v)) as Hlt by lia.
    destruct Hpre as [?|Hsuf]; [lia|].
    destruct suf as [|z mid _] using rev_ind; [done|]. clear Hsuf.
    destruct (buffer_ (data_ v)) as [b|] eqn:Hbuf; [|lia].
    specialize (HQ1 Hlt). specialize (λ fs' l' blk', HE1 Hlt fs' l' b blk' eq_refl) as HE1'.
    clear HE1. rename HE1' into HE1.
    rewrite !length_app in Hsz, Hlt; simpl in Hsz, Hlt.
    assert (size_ v = S (length pre + length mid)) as Hsz' by lia.
    set (blk := block_of (pre ++ mid ++ [z]) (capacity_ (data_ v))) in *.
    assert (length blk = capacity_ (data_ v)) as Hblk.
    { unfold blk. rewrite length_block_of; [done|]. rewrite !length_app; simpl; lia. }
    apply wp_bind, wp_perform.
    2:{ intros _ fs'. specialize (HE1 fs' l blk Hblk).
        by rewrite insert_id in HE1. }
    intros fs1. apply wp_bind, wp_on_throw.
    + apply wp_bind. unfold Vector.end_. apply wp_bind.
      eapply wp_get; [done|]. unfold RawMemory.plus.
      rewrite decide_True by lia. apply wp_ret.
      rewrite Hsz'. apply wp_bind. unfold RawMemory.index.
      rewrite decide_True by lia. apply wp_ret. rewrite Hbuf.
      assert (blk !! (length pre + length mid) = Some (Some z)) as Hz.
      { unfold blk. apply block_of_lookup.
        rewrite app_assoc, lookup_app_r; rewrite length_app; [|lia].
        by rewrite Nat.sub_diag. }
      apply wp_bind.
      eapply wp_move_construct_same; [done|done|lia|lia| |].
      2:{ intros _ fs'. apply wp_perform_Dtor.
          specialize (HE1 fs' ((l ++ [event_of how]) ++ [Dtor]) blk Hblk).
          by rewrite insert_id in HE1. }
      intros fs2. apply wp_bind. unfold Vector.begin_. apply wp_bind.
      eapply wp_get; [done|]. apply wp_ret. simpl. apply wp_bind, wp_ret.
      unfold RawMemory.GetAddress, ptr_add, move_backward; simpl. rewrite Hbuf.
      rewrite decide_True by (simpl; split; [done|lia]).
      replace (length pre + length mid - length pre) with (length mid) by lia.
      apply wp_bind.
      eapply (wp_move_backward_n b (length pre) (length mid) _ mid (moved_from z));
        [by rewrite lookup_insert_eq|done| | |].
      * rewrite fmap_app.
        replace (S (length mid)) with (S (length (Some <$> mid))) by (by rewrite length_fmap).
        apply slice_snoc.
        -- rewrite length_fmap, !slice_insert_ge by lia.
           unfold blk. rewrite block_of_slice by (rewrite !length_app; simpl; lia).
           rewrite drop_app_length, take_app_length. done.
        -- rewrite length_fmap. apply list_lookup_insert_eq.
           rewrite length_insert. lia.
      * intros fs3. rewrite insert_insert_eq.
        eapply wp_move_assign_from; [by rewrite lookup_insert_eq| | |].
        { simpl. apply list_lookup_insert_eq.
          repeat (rewrite length_insert || rewrite length_inserts). lia. }
        2:{ intros fs'. apply wp_perform_Dtor.
            apply HE1. by repeat (rewrite length_insert || rewrite length_inserts). }
        intros fs4. rewrite insert_insert_eq.
        apply wp_perform_Dtor.
        apply wp_bind. eapply wp_get; [done|].
        apply wp_bind. eapply wp_set_size; [done|].
        apply wp_bind. apply wp_bind. eapply wp_get; [by rewrite lookup_insert_eq|].
        apply wp_ret, wp_ret. cbn [fst snd data_ buffer_ size_]. rewrite Hbuf.
        unfold blk. rewrite emplace_block by (rewrite !length_app; simpl; lia).
        specialize (HQ1 fs4). simpl in HQ1.
        rewrite length_app in HQ1; simpl in HQ1.
        replace (length mid + 1 - 1) with (length mid) in HQ1 by lia.
        rewrite Nat.add_1_r. rewrite <-!app_assoc. simpl. apply HQ1.
      * intros fs' l' blk' Hshape. rewrite insert_insert_eq.
        apply wp_perform_Dtor.
        apply HE1.
        apply shape_length in Hshape. by rewrite Hshape, !length_insert.
Qed.

End EmplaceInPlace.


Section Removal.
Context {T : Type} `{!Element T}.
Implicit Types (o : gmap addr Vector) (h : gmap addr (list (option T))).
Implicit Types (n : addr) (fs : list bool) (l : list event).
Implicit Types (blk : list (option T)) (xs ys : list T) (v : Vector).

Lemma wp_EmplaceBack how a v xs x o h n fs l (Q : ptr → World T → Prop) E :
  o !! a = Some v → repr h v xs → h !! n = None →
  (length xs < capacity_ (data_ v) → ∀ fs',
     Q (buffer_ (data_ v), size_ v)
       (mkWorld (<[a := mkVector (data_ v) (S (size_ v))]> o)
                (set_block (buffer_ (data_ v))
                           (block_of (xs ++ [x]) (capacity_ (data_ v))) h)
                n fs' (l ++ [event_of how]))) →
  (length xs = capacity_ (data_ v) → ∀ fs',
     Q (Some n, size_ v)
       (mkWorld (<[a := mkVector (mkRawMemory (Some n) (grown (size_ v))) (S (size_ v))]> o)
                (<[n := block_of (xs ++ [x]) (grown (size_ v))]>
                   (release (buffer_ (data_ v)) h))
                (S n) fs'
                (l ++ [Alloc] ++ ([event_of how] ++ replicate (length xs) transfer_event)
                   ++ replicate (length xs) Dtor ++ release_log (buffer_ (data_ v))))) →
  (∀ fs' l' n' h', after_throw (buffer_ (data_ v)) h h' → E (mkWorld o h' n' fs' l')) →
  wp (Vector.EmplaceBack a how x) (mkWorld o h n fs l) Q E.
Proof.
  intros Ha Hr Hn HQ1 HQ2 HE. unfold Vector.EmplaceBack.
  pose proof Hr as (Hsz & Hcap & Hb).
  apply wp_bind. eapply wp_get; [done|].
  unfold RawMemory.Capacity. apply wp_bind. case_decide as Hfull.
  - fold (grown (size_ v)). pose proof (grown_gt (size_ v)) as Hg.
    eapply (wp_grow _ _ xs _ _ (block_of (xs ++ [x]) (grown (size_ v))) (transferred xs));
      [done|done|done|lia|apply length_transferred| | |done].
    + intros fs1 Q' E' HQ' HE'. unfold RawMemory.plus; simpl.
      rewrite decide_True by lia. apply wp_bind, wp_ret.
      eapply wp_build_push; [done..|lia|by rewrite Hsz|done|done].
    + intros fs'. apply wp_bind. eapply wp_get; [by rewrite lookup_insert_eq|].
      apply wp_bind. eapply wp_set_size; [by rewrite lookup_insert_eq|]. simpl.
      rewrite insert_insert_eq, Nat.add_1_r.
      apply wp_bind. unfold Vector.end_. apply wp_bind.
      eapply wp_get; [by rewrite lookup_insert_eq|]. unfold RawMemory.plus; simpl.
      rewrite decide_True by lia. apply wp_ret, wp_ret. apply HQ2. lia.
  - assert (length xs < capacity_ (data_ v)) as Hlt by lia.
    destruct (buffer_ (data_ v)) as [b|] eqn:Hbuf; [|lia].
    unfold RawMemory.plus. rewrite decide_True by lia. apply wp_bind, wp_ret.
    rewrite Hbuf, Hsz.
    eapply wp_construct_from; [done|by rewrite length_block_of| |].
    2:{ intros _ fs'. apply HE, after_throw_refl. }
    intros fs'. apply wp_bind. eapply wp_get; [done|].
    apply wp_bind. eapply wp_set_size; [done|]. rewrite Nat.add_1_r.
    apply wp_bind. unfold Vector.end_. apply wp_bind.
    eapply wp_get; [by rewrite lookup_insert_eq|]. unfold RawMemory.plus; simpl.
    rewrite decide_True by lia. apply wp_ret, wp_ret.
    rewrite block_of_insert_end by done. specialize (HQ1 Hlt fs').
    simpl in HQ1. rewrite Hbuf. apply HQ1.
Qed.

Lemma block_of_pop xs (r : T) cap :
  length xs < cap →
  <[length xs := None]> (block_of (xs ++ [r]) cap) = block_of xs cap.
Proof.
  intros. pose proof (block_of_destroy (xs ++ [r]) cap (length xs)) as Hd.
  rewrite length_app in Hd; simpl in Hd.
  replace (length xs + 1 - length xs) with 1 in Hd by lia. simpl in Hd.
  rewrite Hd by lia. by rewrite take_app_length.
Qed.

Lemma wp_Erase a v pre y suf o h n fs l (Q : ptr → World T → Prop) E :
  o !! a = Some v → repr h v (pre ++ y :: suf) →
  (∀ fs', Q (buffer_ (data_ v), length pre)
            (mkWorld (<[a := mkVector (data_ v) (size_ v - 1)]> o)
                     (set_block (buffer_ (data_ v))
                                (block_of (pre ++ suf) (capacity_ (data_ v))) h)
                     n fs' (l ++ replicate (length suf) MoveAssign ++ [Dtor]))) →
  (∀ fs' l' b blk', buffer_ (data_ v) = Some b →
     shape blk' = shape (block_of (pre ++ y :: suf) (capacity_ (data_ v))) →
     E (mkWorld o (<[b := blk']> h) n fs' l')) →
  wp (Vector.Erase a (length pre)) (mkWorld o h n fs l) Q E.
Proof.
  intros Ha Hr HQ HE. unfold Vector.Erase.
  pose proof Hr as (Hsz & Hcap & Hb).
  rewrite length_app in Hsz, Hcap; simpl in Hsz, Hcap.
  destruct (buffer_ (data_ v)) as [b|] eqn:Hbuf; [|lia].
  specialize (λ fs' l' blk', HE fs' l' b blk' eq_refl) as HE'. clear HE.
  set (blk := block_of (pre ++ y :: suf) (capacity_ (data_ v))) in *.
  apply wp_bind. unfold Vector.begin_ at 1. apply wp_bind.
  eapply wp_get; [done|]. apply wp_ret.
  apply wp_bind. unfold Vector.end_ at 1. apply wp_bind.
  eapply wp_get; [done|]. unfold RawMemory.plus.
  rewrite decide_True by lia. apply wp_ret.
  unfold RawMemory.GetAddress, ptr_add, std_move. cbn [fst snd]. rewrite Hbuf.
  rewrite decide_True by (split; [done|lia]).
  replace (size_ v - (0 + length pre + 1)) with (length suf) by lia.
  replace (0 + length pre + 1) with (S (length pre)) by lia.
  apply wp_bind. eapply (wp_move_n b (length pre) (length suf) blk y suf); [done| |done| |].
  { unfold blk. rewrite block_of_slice by (rewrite length_app; simpl; lia).
    rewrite drop_app_length. by rewrite take_ge by (simpl; lia). }
  2:{ intros fs' l' blk' Hshape. by apply HE'. }
  intros fs1. apply wp_bind. unfold Vector.end_ at 1. apply wp_bind.
  eapply wp_get; [done|]. unfold RawMemory.plus.
  rewrite decide_True by lia. apply wp_ret. cbn [fst snd].
  rewrite Hbuf, Hsz. replace (length pre + S (length suf)) with (S (length pre + length suf)) by lia.
  unfold blk. rewrite block_of_inserts
    by (rewrite ?length_fmap, !length_app; simpl; lia).
  rewrite take_app_length.
  rewrite drop_ge, app_nil_r by (rewrite !length_app; simpl; lia).
  rewrite !app_assoc.
  apply wp_bind. eapply wp_destroy_at; [by rewrite lookup_insert_eq| |].
  { apply block_of_lookup. rewrite lookup_app_r; rewrite length_app; [|lia].
    by rewrite Nat.sub_diag. }
  rewrite insert_insert_eq.
  apply wp_bind. eapply wp_get; [done|]. rewrite Hsz.
  replace (length pre + S (length suf)) with (S (length pre + length suf)) by lia.
  apply wp_bind. eapply wp_set_size; [done|].
  apply wp_bind. apply wp_bind. eapply wp_get; [by rewrite lookup_insert_eq|].
  apply wp_ret, wp_ret. unfold RawMemory.GetAddress. cbn [fst snd data_ buffer_].
  rewrite Hbuf, <-(length_app pre suf).
  rewrite block_of_pop by (rewrite length_app; lia).
  specialize (HQ fs1). simpl in HQ. rewrite Hsz in HQ.
  replace (length pre + S (length suf) - 1) with (length (pre ++ suf)) in HQ
    by (rewrite length_app; lia).
  rewrite <-app_assoc. apply HQ.
Qed.

Lemma PopBack_empty a v o h n fs l (Q : unit → World T → Prop) E :
  o !! a = Some v → size_ v = 0 →
  Q tt (mkWorld o h n fs l) → wp (Vector.PopBack a) (mkWorld o h n fs l) Q E.
Proof.
  intros Ha Hsz HQ. unfold Vector.PopBack. apply wp_bind.
  eapply wp_get; [done|]. rewrite decide_False by lia. by apply wp_ret.
Qed.

(** On a vector that satisfies the invariant and is not empty, the slot
    [PopBack] destroys, [data_.GetAddress() + size_], holds no object or
    lies past the block. *)
Lemma PopBack_nonempty a v xs o h n fs l :
  o !! a = Some v → repr h v xs → xs ≠ [] →
  Vector.PopBack a (mkWorld o h n fs l) = Undefined.
Proof.
  intros Ha (Hsz & Hcap & Hb) Hne.
  assert (size_ v ≠ 0) by (destruct xs; simpl in *; [done|lia]).
  unfold Vector.PopBack, bind, Vector.get; simpl. rewrite Ha.
  rewrite decide_True by done. simpl.
  unfold bind, destroy_at, bind, load, bind, peek; simpl.
  destruct (buffer_ (data_ v)) as [b|]; [|done].
  rewrite Hb, Hsz. unfold block_of.
  destruct (decide (length xs < capacity_ (data_ v))).
  - rewrite lookup_app_r by (by rewrite length_fmap).
    rewrite length_fmap, Nat.sub_diag.
    destruct (capacity_ (data_ v) - length xs) eqn:Hd; [lia|]. done.
  - rewrite lookup_ge_None_2; [done|].
    rewrite length_app, length_fmap, length_replicate. lia.
Qed.

End Removal.


Section Lifecycle.
Context {T : Type} `{!Element T}.
Implicit Types (o : gmap addr Vector) (h : gmap addr (list (option T))).
Implicit Types (n : addr) (fs : list bool) (l : list event).
Implicit Types (blk : list (option T)) (xs ys : list T) (v : Vector).

Lemma Vector_eta v : mkVector (data_ v) (size_ v) = v.
Proof. by destruct v. Qed.

Lemma wp_Resize a v xs k o h n fs l (Q : unit → World T → Prop) E :
  o !! a = Some v → repr h v xs → h !! n = None →
  (k ≤ length xs →
     Q tt (mkWorld (<[a := mkVector (data_ v) k]> o)
                   (set_block (buffer_ (data_ v)) (block_of (take k xs) (capacity_ (data_ v))) h)
                   n fs (l ++ replicate (length xs - k) Dtor))) →
  (length xs < k → k ≤ capacity_ (data_ v) → ∀ fs',
     Q tt (mkWorld (<[a := mkVector (data_ v) k]> o)
                   (set_block (buffer_ (data_ v))
                      (block_of (xs ++ replicate (k - length xs) value_init)
                                (capacity_ (data_ v))) h)
                   n fs' (l ++ replicate (k - length xs) DefaultCtor))) →
  (capacity_ (data_ v) < k → ∀ fs',
     Q tt (mkWorld (<[a := mkVector (mkRawMemory (Some n) k) k]> o)
                   (<[n := block_of (xs ++ replicate (k - length xs) value_init) k]>
                      (release (buffer_ (data_ v)) h))
                   (S n) fs'
                   (l ++ [Alloc] ++ replicate (length xs) transfer_event
                      ++ replicate (length xs) Dtor ++ release_log (buffer_ (data_ v))
                      ++ replicate (k - length xs) DefaultCtor))) →
  (length xs < k → ∀ fs' l' n' h',
     after_throw (buffer_ (data_ v)) h h' → E (mkWorld o h' n' fs' l')) →
  (capacity_ (data_ v) < k → ∀ fs' l',
     E (mkWorld (<[a := mkVector (mkRawMemory (Some n) k) (size_ v)]> o)
                (<[n := block_of xs k]> (release (buffer_ (data_ v)) h))
                (S n) fs' l')) →
  wp (Vector.Resize a k) (mkWorld o h n fs l) Q E.
Proof.
  intros Ha Hr Hn HQ1 HQ2 HQ3 HE1 HE2. unfold Vector.Resize.
  pose proof Hr as (Hsz & Hcap & Hb).
  apply wp_bind. eapply wp_get; [done|].
  case_decide as Hne.
  2:{ apply wp_ret. subst k. specialize (HQ1 ltac:(lia)).
      rewrite Vector_eta, insert_id in HQ1 by done.
      rewrite Hsz, firstn_all, Nat.sub_diag, app_nil_r in HQ1.
      destruct (buffer_ (data_ v)); simpl in HQ1; [by rewrite insert_id in HQ1|done]. }
  apply wp_bind. case_decide as Hlt.
  - unfold RawMemory.GetAddress, ptr_add; simpl.
    destruct (buffer_ (data_ v)) as [b|] eqn:Hbuf; [|lia].
    eapply (wp_destroy_n b k (size_ v - k) _ (drop k xs)); [done| | |].
    + rewrite block_of_slice by lia. by rewrite take_ge by (rewrite length_drop; lia).
    + rewrite length_drop. lia.
    + eapply wp_set_size; [done|]. rewrite Hsz.
      rewrite block_of_destroy by lia. apply HQ1. lia.
  - assert (length xs < k) as Hgrow by lia.
    apply wp_bind. eapply wp_Reserve; [done..| | |].
    + intros Hk. apply wp_bind. eapply wp_get; [done|].
      unfold RawMemory.GetAddress, ptr_add; simpl.
      destruct (buffer_ (data_ v)) as [b|] eqn:Hbuf; [|lia].
      rewrite Hsz.
      eapply wp_uninitialized_value_construct_n;
        [done|apply block_of_slice_raw; lia| |].
      * intros fs'. eapply wp_set_size; [done|].
        rewrite <-(fmap_replicate Some).
        rewrite block_of_inserts_end by (rewrite length_replicate; lia).
        by apply HQ2.
      * intros fs' l'. apply HE1; [done|]. apply after_throw_refl.
    + intros Hk fs1. apply wp_bind. eapply wp_get; [by rewrite lookup_insert_eq|].
      unfold RawMemory.GetAddress, ptr_add; simpl. rewrite Hsz.
      eapply wp_uninitialized_value_construct_n;
        [by rewrite lookup_insert_eq|apply block_of_slice_raw; lia| |].
      * intros fs'. eapply wp_set_size; [by rewrite lookup_insert_eq|]. simpl.
        rewrite !insert_insert_eq.
        rewrite <-(fmap_replicate Some).
        rewrite block_of_inserts_end by (rewrite length_replicate; lia).
        specialize (HQ3 Hk fs').
        repeat (rewrite <-app_comm_cons || rewrite <-app_assoc). apply HQ3.
      * intros fs' l'. rewrite <-Hsz. by apply HE2.
    + intros Hk fs' l' n' h' Hafter. by apply HE1.
Qed.

Lemma wp_default_ctor a o h n fs l (Q : unit → World T → Prop) E :
  o !! a = None →
  Q tt (mkWorld (<[a := mkVector (mkRawMemory None 0) 0]> o) h n fs l) →
  wp (Vector.default_ctor a) (mkWorld o h n fs l) Q E.
Proof. intros Ha HQ. unfold Vector.default_ctor. by eapply wp_new_object. Qed.

Lemma wp_size_ctor a k o h n fs l (Q : unit → World T → Prop) E :
  o !! a = None → h !! n = None →
  (k = 0 → Q tt (mkWorld (<[a := mkVector (mkRawMemory None 0) 0]> o) h n fs l)) →
  (k ≠ 0 → ∀ fs',
     Q tt (mkWorld (<[a := mkVector (mkRawMemory (Some n) k) k]> o)
                   (<[n := block_of (replicate k value_init) k]> h) (S n) fs'
                   (l ++ [Alloc] ++ replicate k DefaultCtor))) →
  (∀ fs' l' n', E (mkWorld o h n' fs' l')) →
  wp (Vector.size_ctor a k) (mkWorld o h n fs l) Q E.
Proof.
  intros Ha Hn HQ0 HQ HE. unfold Vector.size_ctor.
  apply wp_bind, wp_ctor; [| |intros; apply HE].
  - intros Hk fs1. apply wp_bind, wp_on_throw.
    unfold RawMemory.GetAddress; simpl.
    eapply wp_uninitialized_value_construct_n;
      [by rewrite lookup_insert_eq|apply replicate_raw_slice; lia| |].
    + intros fs'. eapply wp_new_object; [done|].
      rewrite insert_insert_eq, <-block_of_nil, <-(fmap_replicate Some).
      pose proof (block_of_inserts_end [] (replicate k value_init) k) as Hbe.
      simpl in Hbe. rewrite Hbe by (rewrite length_replicate; lia).
      rewrite <-app_assoc. by apply HQ.
    + intros fs' l'. unfold RawMemory.dtor; simpl.
      eapply wp_Deallocate; [by rewrite lookup_insert_eq|].
      rewrite delete_insert_id by done. apply HE.
  - intros ->. apply wp_bind. simpl. apply wp_on_throw, wp_ret.
    eapply wp_new_object; [done|]. by apply HQ0.
Qed.

Lemma wp_copy_ctor a other ov xs o h n fs l (Q : unit → World T → Prop) E :
  o !! a = None → o !! other = Some ov → repr h ov xs → h !! n = None →
  (xs = [] → Q tt (mkWorld (<[a := mkVector (mkRawMemory None 0) 0]> o) h n fs l)) →
  (xs ≠ [] → ∀ fs',
     Q tt (mkWorld (<[a := mkVector (mkRawMemory (Some n) (length xs)) (length xs)]> o)
                   (<[n := block_of xs (length xs)]> h) (S n) fs'
                   (l ++ [Alloc] ++ replicate (length xs) CopyCtor))) →
  (∀ fs' l' n', E (mkWorld o h n' fs' l')) →
  wp (Vector.copy_ctor a other) (mkWorld o h n fs l) Q E.
Proof.
  intros Ha Hother Hr Hn HQ0 HQ HE. unfold Vector.copy_ctor.
  pose proof Hr as (Hsz & Hcap & Hb).
  apply wp_bind. eapply wp_get; [done|]. rewrite Hsz.
  apply wp_bind, wp_ctor; [| |intros; apply HE].
  - intros Hk fs1. apply wp_bind, wp_on_throw.
    unfold RawMemory.GetAddress; simpl.
    destruct (buffer_ (data_ ov)) as [b|] eqn:Hbuf; [|lia].
    assert (b ≠ n) by congruence.
    eapply (wp_uninitialized_copy_n b 0 n 0 _ _ _ xs);
      [done|by rewrite lookup_insert_ne|apply block_of_slice_all|done
      |by rewrite lookup_insert_eq|apply replicate_raw_slice; lia| |].
    + intros fs'. eapply wp_new_object; [done|].
      rewrite insert_insert_eq, <-block_of_nil.
      pose proof (block_of_inserts_end [] xs (length xs)) as Hbe.
      simpl in Hbe. rewrite Hbe by lia.
      rewrite <-app_assoc. apply HQ. by destruct xs.
    + intros fs' l'. unfold RawMemory.dtor; simpl.
      eapply wp_Deallocate; [by rewrite lookup_insert_eq|].
      rewrite delete_insert_id by done. apply HE.
  - intros Hk. destruct xs; [|done]. apply wp_bind. simpl. apply wp_on_throw, wp_ret.
    eapply wp_new_object; [done|]. by apply HQ0.
Qed.

Lemma wp_dtor a v xs o h n fs l (Q : unit → World T → Prop) E :
  o !! a = Some v → repr h v xs →
  Q tt (mkWorld (delete a o) (release (buffer_ (data_ v)) h) n fs
                (l ++ replicate (length xs) Dtor ++ release_log (buffer_ (data_ v)))) →
  wp (Vector.dtor a) (mkWorld o h n fs l) Q E.
Proof.
  intros Ha Hr HQ. unfold Vector.dtor.
  pose proof Hr as (Hsz & Hcap & Hb).
  apply wp_bind. eapply wp_Destroy; [done..|].
  apply wp_bind. eapply wp_get; [done|].
  apply wp_bind. unfold RawMemory.dtor.
  destruct (buffer_ (data_ v)) as [b|]; simpl in *.
  - eapply wp_Deallocate; [by rewrite lookup_insert_eq|].
    apply wp_end_object. rewrite delete_insert_eq, <-app_assoc. apply HQ.
  - apply wp_Deallocate_null, wp_end_object. by rewrite app_nil_r in HQ.
Qed.

Lemma wp_Swap a b va vb o h n fs l (Q : unit → World T → Prop) E :
  o !! a = Some va → o !! b = Some vb →
  Q tt (mkWorld (<[b := va]> (<[a := vb]> o)) h n fs l) →
  wp (Vector.Swap a b) (mkWorld o h n fs l) Q E.
Proof.
  intros Ha Hb HQ. unfold Vector.Swap.
  apply wp_bind. eapply wp_get; [done|].
  apply wp_bind. eapply wp_get; [done|]. simpl.
  destruct (decide (a = b)) as [->|Hne].
  - simplify_eq. 
    apply wp_bind. eapply wp_set_data; [done|]. rewrite Vector_eta.
    apply wp_bind. eapply wp_set_data; [by rewrite lookup_insert_eq|]. rewrite Vector_eta.
    apply wp_bind. eapply wp_set_size; [by rewrite lookup_insert_eq|]. rewrite Vector_eta.
    eapply wp_set_size; [by rewrite lookup_insert_eq|]. rewrite Vector_eta.
    by rewrite !insert_insert_eq in *.
  - apply wp_bind. eapply wp_set_data; [done|].
    apply wp_bind. eapply wp_set_data; [by rewrite lookup_insert_ne|].
    apply wp_bind. eapply wp_set_size; [by rewrite lookup_insert_ne, lookup_insert_eq|].
    eapply wp_set_size; [by rewrite lookup_insert_ne, lookup_insert_eq|]. simpl.
    rewrite !Vector_eta.
    assert (<[b:=va]> (<[a:=vb]> (<[b:={| data_ := data_ va; size_ := size_ vb |}]>
              (<[a:={| data_ := data_ vb; size_ := size_ va |}]> o)))
            = <[b:=va]> (<[a:=vb]> o)) as ->; [|done].
    apply map_eq; intros i. rewrite !lookup_insert. by repeat case_decide.
Qed.

Lemma wp_take_over a b va vb o h n fs l (Q : unit → World T → Prop) E :
  a ≠ b → o !! a = Some va → o !! b = Some vb →
  Q tt (mkWorld (<[b := mkVector (mkRawMemory None 0) 0]> (<[a := vb]> o)) h n fs l) →
  wp (Vector.take_over a b) (mkWorld o h n fs l) Q E.
Proof.
  intros Hne Ha Hb HQ. unfold Vector.take_over.
  apply wp_bind. eapply wp_get; [done|].
  apply wp_bind. eapply wp_get; [done|]. simpl.
  apply wp_bind. eapply wp_set_data; [done|].
  apply wp_bind. eapply wp_set_data; [by rewrite lookup_insert_ne|].
  apply wp_bind. eapply wp_get; [by rewrite lookup_insert_eq|]. simpl.
  apply wp_bind. eapply wp_set_size; [by rewrite lookup_insert_ne, lookup_insert_eq|].
  eapply wp_set_size; [by rewrite lookup_insert_ne, lookup_insert_eq|]. simpl.
  match goal with |- Q _ (mkWorld ?o' _ _ _ _) =>
    replace o' with (<[b := mkVector (mkRawMemory None 0) 0]> (<[a := vb]> o)); [done|]
  end.
  destruct vb as [[? ?] ?]; simpl.
  apply map_eq; intros i. rewrite !lookup_insert. by repeat case_decide.
Qed.

End Lifecycle.


Section Assignment.
Context {T : Type} `{!Element T}.
Implicit Types (o : gmap addr Vector) (h : gmap addr (list (option T))).
Implicit Types (n : addr) (fs : list bool) (l : list event).
Implicit Types (blk : list (option T)) (xs ys : list T) (v : Vector).

Lemma wp_move_ctor a b vb o h n fs l (Q : unit → World T → Prop) E :
  o !! a = None → o !! b = Some vb →
  Q tt (mkWorld (<[b := mkVector (mkRawMemory None 0) 0]> (<[a := vb]> o)) h n fs l) →
  wp (Vector.move_ctor a b) (mkWorld o h n fs l) Q E.
Proof.
  intros Ha Hb HQ. unfold Vector.move_ctor.
  assert (a ≠ b) by congruence.
  apply wp_bind. eapply wp_new_object; [done|].
  eapply wp_take_over; [done|by rewrite lookup_insert_eq|by rewrite lookup_insert_ne|].
  by rewrite insert_insert_eq.
Qed.

Lemma wp_move_assignment a b va vb o h n fs l (Q : unit → World T → Prop) E :
  a ≠ b → o !! a = Some va → o !! b = Some vb →
  Q tt (mkWorld (<[b := mkVector (mkRawMemory None 0) 0]> (<[a := vb]> o)) h n fs l) →
  wp (Vector.move_assignment a b) (mkWorld o h n fs l) Q E.
Proof.
  intros Hne Ha Hb HQ. unfold Vector.move_assignment.
  rewrite decide_True by done. by eapply wp_take_over.
Qed.

Lemma wp_local_addr o h n fs l (Q : addr → World T → Prop) E :
  Q (fresh (dom o)) (mkWorld o h n fs l) →
  wp Vector.local_addr (mkWorld o h n fs l) Q E.
Proof. done. Qed.

Lemma fresh_not_in o : o !! fresh (dom o) = None.
Proof. apply not_elem_of_dom, is_fresh. Qed.

Lemma wp_copy_assignment a b va vb xs ys o h n fs l (Q : unit → World T → Prop) E :
  a ≠ b → o !! a = Some va → o !! b = Some vb → repr h va xs → repr h vb ys →
  (∀ p : addr, buffer_ (data_ va) = Some p → buffer_ (data_ vb) ≠ Some p) →
  h !! n = None →
  (capacity_ (data_ va) < length ys → ∀ fs',
     Q tt (mkWorld (<[a := mkVector (mkRawMemory (Some n) (length ys)) (length ys)]> o)
                   (<[n := block_of ys (length ys)]> (release (buffer_ (data_ va)) h))
                   (S n) fs'
                   (l ++ [Alloc] ++ replicate (length ys) CopyCtor
                      ++ replicate (length xs) Dtor ++ release_log (buffer_ (data_ va))))) →
  (length ys ≤ capacity_ (data_ va) → ∀ fs',
     Q tt (mkWorld (<[a := mkVector (data_ va) (length ys)]> o)
                   (set_block (buffer_ (data_ va))
                              (block_of ys (capacity_ (data_ va))) h)
                   n fs'
                   (l ++ replicate (length xs `min` length ys) CopyAssign
                      ++ (if decide (length ys < length xs)
                          then replicate (length xs - length ys) Dtor
                          else replicate (length ys - length xs) CopyCtor)))) →
  (capacity_ (data_ va) < length ys → ∀ fs' l' n', E (mkWorld o h n' fs' l')) →
  (length ys ≤ capacity_ (data_ va) → ∀ fs' l' blk',
     shape blk' = shape (block_of xs (capacity_ (data_ va))) →
     E (mkWorld o (set_block (buffer_ (data_ va)) blk' h) n fs' l')) →
  wp (Vector.copy_assignment a b) (mkWorld o h n fs l) Q E.
Proof.
  intros Hne Ha Hb Hra Hrb Hown Hn HQ1 HQ2 HE1 HE2. unfold Vector.copy_assignment.
  rewrite decide_True by done.
  pose proof Hra as (Hsza & Hcapa & Hba). pose proof Hrb as (Hszb & Hcapb & Hbb).
  apply wp_bind. eapply wp_get; [done|].
  apply wp_bind. eapply wp_get; [done|].
  unfold RawMemory.Capacity. rewrite Hszb.
  destruct (decide (capacity_ (data_ va) < length ys)) as [Hbig|Hbig].
  - (* a full copy, swapped in *)
    apply wp_bind, wp_local_addr.
    set (t := fresh (dom o)). pose proof (fresh_not_in o) as Ht. fold t in Ht.
    assert (t ≠ a) by congruence.
    assert (ys ≠ []) by (destruct ys; simpl in *; [lia|done]).
    apply wp_bind. eapply wp_copy_ctor; [done..|done| |by apply HE1].
    intros _ fs1.
    apply wp_bind. eapply wp_Swap;
      [by rewrite lookup_insert_ne|by rewrite lookup_insert_eq|].
    eapply wp_dtor; [by rewrite lookup_insert_eq| |].
    + eapply repr_frame; [done|]. intros blk Hblk.
      rewrite lookup_insert_ne; [done|]. intros <-. rewrite Hblk in Hba. congruence.
    + specialize (HQ1 Hbig fs1).
      match goal with |- Q _ (mkWorld ?o' ?h' _ _ _) =>
        replace o' with (<[a:={| data_ := {| buffer_ := Some n; capacity_ := length ys |};
                               size_ := length ys |}]> o);
        [replace h' with (<[n:=block_of ys (length ys)]> (release (buffer_ (data_ va)) h))|]
      end.
      * rewrite <-!app_assoc. apply HQ1.
      * destruct (buffer_ (data_ va)) as [ba|]; simpl; [|done].
        rewrite delete_insert_ne; [done|]. intros <-. congruence.
      * apply map_eq; intros i. rewrite !lookup_delete, !lookup_insert.
        repeat case_decide; simplify_eq; done.
  - (* in place *)
    assert (length ys ≤ capacity_ (data_ va)) as Hfit by lia.
    specialize (HQ2 Hfit). specialize (HE2 Hfit).
    unfold RawMemory.GetAddress, ptr_add; cbn [fst snd].
    destruct (buffer_ (data_ va)) as [ba|] eqn:Hbufa.
    2:{ assert (ys = []) as -> by (destruct ys; simpl in *; [done|lia]).
        assert (xs = []) as -> by (destruct xs; simpl in *; [done|lia]).
        rewrite ?Hsza, ?Hszb. simpl. apply wp_bind, wp_ret.
        apply wp_bind. rewrite ?decide_False by lia. apply wp_ret.
        eapply wp_set_size; [done|]. specialize (HQ2 fs). simpl in HQ2.
        by rewrite !app_nil_r in HQ2. }
    simpl in HQ2, HE2.
    rewrite ?Hsza, ?Hszb.
    set (m := length xs `min` length ys).
    set (blk1 := block_of (take m ys ++ drop m xs) (capacity_ (data_ va))).
    assert (length (take m ys ++ drop m xs) = length xs) as Hlen1.
    { rewrite length_app, length_take, length_drop. unfold m. lia. }
    (* the tail of the in-place branch, from the state after [copy_n] *)
    assert (∀ fs1 l1, l1 = l ++ replicate m CopyAssign →
              wp (bind (if decide (length ys < length xs)
                        then destroy_n (Some ba, 0 + length ys) (length xs - length ys)
                        else uninitialized_copy_n (buffer_ (data_ vb), 0 + length xs)
                               (length ys - length xs) (Some ba, 0 + length xs))
                       (λ _, Vector.set_size a (length ys)))
                 (mkWorld o (<[ba := blk1]> h) n fs1 l1) Q E) as Htail.
    { intros fs1 l1 ->. apply wp_bind.
      destruct (decide (length ys < length xs)) as [Hshrink|Hshrink].
      - assert (m = length ys) as Hm by (unfold m; lia).
        assert (blk1 = block_of (ys ++ drop (length ys) xs) (capacity_ (data_ va))) as Hblk1.
        { unfold blk1. by rewrite Hm, firstn_all. }
        assert (length (ys ++ drop (length ys) xs) = length xs) as Hlen2.
        { rewrite length_app, length_drop. lia. }
        change (0 + length ys) with (length ys).
        eapply (wp_destroy_n ba _ _ blk1 (drop (length ys) xs));
          [by rewrite lookup_insert_eq| |by rewrite length_drop|].
        + rewrite Hblk1, block_of_slice by lia.
          rewrite drop_app_length. by rewrite take_ge by (rewrite length_drop; lia).
        + eapply wp_set_size; [done|]. rewrite insert_insert_eq.
          rewrite Hblk1, <-Hlen2.
          rewrite block_of_destroy by lia.
          rewrite take_app_length, Hlen2.
          specialize (HQ2 fs1). rewrite ?decide_True in HQ2 by done.
          rewrite <-app_assoc. apply HQ2.
      - assert (m = length xs) as Hm by (unfold m; lia).
        assert (blk1 = block_of (take (length xs) ys) (capacity_ (data_ va))) as Hblk1.
        { unfold blk1. by rewrite Hm, drop_all, app_nil_r. }
        destruct (decide (length ys = length xs)) as [Heq|Hneq].
        + replace (length ys - length xs) with 0 by lia. simpl. apply wp_ret.
          eapply wp_set_size; [done|].
          specialize (HQ2 fs1). rewrite ?decide_False in HQ2 by done.
          replace (length ys - length xs) with 0 in HQ2 by lia.
          simpl in HQ2. rewrite app_nil_r in HQ2.
          rewrite Hblk1, take_ge by lia. apply HQ2.
        + destruct (buffer_ (data_ vb)) as [bb|] eqn:Hbufb.
          2:{ destruct ys; simpl in *; lia. }
          assert (bb ≠ ba) by (intros ->; by eapply Hown).
          eapply (wp_uninitialized_copy_n bb _ ba _ _ _ blk1 (drop (length xs) ys));
            [done|by rewrite lookup_insert_ne| |by rewrite length_drop
            |by rewrite lookup_insert_eq| | |].
          * rewrite block_of_slice by lia.
            by rewrite take_ge by (rewrite length_drop; lia).
          * rewrite Hblk1.
            replace (0 + length xs) with (length (take (length xs) ys))
              by (rewrite length_take; lia).
            apply block_of_slice_raw. rewrite length_take. lia.
          * intros fs'. eapply wp_set_size; [done|]. rewrite insert_insert_eq.
            rewrite Hblk1.
            replace (0 + length xs) with (length (take (length xs) ys))
              by (rewrite length_take; lia).
            rewrite block_of_inserts_end by (rewrite length_take, length_drop; lia).
            rewrite take_drop.
            specialize (HQ2 fs'). rewrite ?decide_False in HQ2 by done.
            rewrite <-app_assoc. apply HQ2.
          * intros fs' l'. apply HE2. unfold blk1. by apply block_of_shape. }
    destruct (decide (m = 0)) as [Hm0|Hm0].
    + rewrite Hm0. simpl. apply wp_bind, wp_ret.
      specialize (Htail fs l). rewrite Hm0 in Htail. simpl in Htail.
      rewrite app_nil_r in Htail. specialize (Htail eq_refl).
      unfold blk1 in Htail. rewrite Hm0 in Htail. simpl in Htail.
      rewrite insert_id in Htail by done. apply Htail.
    + destruct (buffer_ (data_ vb)) as [bb|] eqn:Hbufb.
      2:{ destruct ys; simpl in *; [unfold m in Hm0; simpl in Hm0; lia|lia]. }
      assert (bb ≠ ba) by (intros ->; by eapply Hown).
      apply wp_bind.
      eapply (wp_copy_n bb 0 ba 0 m _ _ (take m ys) (take m xs));
        [done|done| | |done| | | |].
      * rewrite block_of_slice by (unfold m; lia). by rewrite drop_0.
      * rewrite length_take. unfold m. lia.
      * rewrite block_of_slice by (unfold m; lia). by rewrite drop_0.
      * rewrite length_take. unfold m. lia.
      * intros fs1.
        rewrite block_of_inserts by (rewrite ?length_take; unfold m; lia).
        rewrite take_0, app_nil_l, Nat.add_0_l, length_take.
        replace (m `min` length ys) with m by (unfold m; lia).
        by apply Htail.
      * intros fs' l' dblk' Hshape. by apply HE2.
Qed.

End Assignment.


(** * Properties that follow the structure of the code *)

(** Some facts hold of every operation because they hold of each step and
    are kept by sequencing and unwinding: that nothing throws unless a
    failure is scheduled, or that only [operator new] hands out blocks.
    [G] relates the world before a step to the world after its normal
    return, [B] to the world after an exception. *)
Record structure_laws {T} (G B : World T → World T → Prop) : Prop := {
  G_refl : ∀ w, G w w;
  G_trans : ∀ w1 w2 w3, G w1 w2 → G w2 w3 → G w1 w3;
  G_then_B : ∀ w1 w2 w3, G w1 w2 → B w2 w3 → B w1 w3;
  B_then_G : ∀ w1 w2 w3, B w1 w2 → G w2 w3 → B w1 w3;
  B_then_B : ∀ w1 w2 w3, B w1 w2 → B w2 w3 → B w1 w3;
  G_faults : ∀ w fs, faults w = false :: fs →
    G w (mkWorld (objs w) (heap w) (next_block w) fs (log w));
  B_faults : ∀ w fs, faults w = true :: fs →
    B w (mkWorld (objs w) (heap w) (next_block w) fs (log w));
  G_log : ∀ w l, G w (mkWorld (objs w) (heap w) (next_block w) (faults w) l);
  G_heap : ∀ w f, G w (set_heap f w);
  G_objs : ∀ w f, G w (set_objs f w);
}.

Definition respects {T A} (G B : World T → World T → Prop) (m : M T A) : Prop :=
  ∀ w, match m w with
       | Ok _ w' => G w w'
       | Throw w' => B w w'
       | Undefined => True
       end.

Create HintDb structure.

Section Structure.
Context {T : Type} `{!Element T}.
Variables G B : World T → World T → Prop.
Hypothesis laws : structure_laws G B.

#[local] Abbreviation sound := (respects G B).

Lemma respects_ret {A} (a : A) : sound (ret a).
Proof using laws. intros w. apply laws. Qed.

Lemma respects_undefined {A} : sound (undefined : M T A).
Proof. by intros w. Qed.

Lemma respects_bind {A A'} (m : M T A) (f : A → M T A') :
  sound m → (∀ a, sound (f a)) → sound (bind m f).
Proof using laws.
  intros Hm Hf w. unfold bind. specialize (Hm w).
  destruct (m w) as [a w1|w1|]; [|done..].
  specialize (Hf a w1). destruct (f a w1) as [b w2|w2|]; [| |done].
  - exact (G_trans _ _ laws _ _ _ Hm Hf).
  - exact (G_then_B _ _ laws _ _ _ Hm Hf).
Qed.

Lemma respects_on_throw {A} (m : M T A) c :
  sound m → sound c → sound (on_throw m c).
Proof using laws.
  intros Hm Hc w. unfold on_throw. specialize (Hm w).
  destruct (m w) as [a w1|w1|]; [done| |done].
  specialize (Hc w1). destruct (c w1) as [b w2|w2|]; [| |done].
  - exact (B_then_G _ _ laws _ _ _ Hm Hc).
  - exact (B_then_B _ _ laws _ _ _ Hm Hc).
Qed.

Local Ltac structure :=
  repeat first
    [ apply (G_refl _ _ laws)
    | match goal with
      | |- respects _ _ (ret _) => intros ?; simpl
      | |- respects _ _ undefined => intros ?; exact I
      | |- respects _ _ (bind _ _) => apply respects_bind; [|intros ?]
      | |- respects _ _ (on_throw _ _) => apply respects_on_throw
      | |- respects _ _ (if ?b then _ else _) => destruct b
      | |- respects _ _ (match ?x with _ => _ end) => destruct x
      end
    | solve [eauto with structure] ].

(** *** Steps *)

Lemma respects_tick : sound tick.
Proof using laws.
  intros w. unfold tick. destruct (faults w) as [|[] fs] eqn:Hfs.
  - apply laws.
  - by apply (B_faults _ _ laws).
  - by apply (G_faults _ _ laws).
Qed.

Lemma respects_emit e : sound (emit e).
Proof using laws. intros w. unfold emit. apply laws. Qed.

#[local] Hint Resolve respects_tick respects_emit : structure.

Lemma respects_perform e : sound (perform e).
Proof using laws. unfold perform. structure. Qed.

Lemma respects_peek p : sound (peek p).
Proof using laws.
  intros w. unfold peek. destruct (p.1); [|done].
  destruct (heap w !! _); [|done]. destruct (_ !! _); [|done]. apply laws.
Qed.

Lemma respects_poke p s : sound (poke p s).
Proof using laws.
  intros w. unfold poke. destruct (p.1); [|done].
  destruct (heap w !! _); [|done]. case_decide; [|done]. apply laws.
Qed.

#[local] Hint Resolve respects_perform respects_peek respects_poke : structure.

Lemma respects_load p : sound (load p).
Proof using laws. unfold load. structure. Qed.

#[local] Hint Resolve respects_load : structure.

Lemma respects_construct_from how p x : sound (construct_from how p x).
Proof using laws. unfold construct_from. structure. Qed.
Lemma respects_value_construct p : sound (value_construct p).
Proof using laws. unfold value_construct. structure. Qed.
Lemma respects_copy_construct p q : sound (copy_construct p q).
Proof using laws. unfold copy_construct. structure. Qed.
Lemma respects_move_construct p q : sound (move_construct p q).
Proof using laws. unfold move_construct. structure. Qed.
Lemma respects_copy_assign p q : sound (copy_assign p q).
Proof using laws. unfold copy_assign. structure. Qed.
Lemma respects_move_assign p q : sound (move_assign p q).
Proof using laws. unfold move_assign. structure. Qed.
Lemma respects_move_assign_from p x : sound (move_assign_from p x).
Proof using laws. unfold move_assign_from. structure. Qed.
Lemma respects_destroy_at p : sound (destroy_at p).
Proof using laws. unfold destroy_at. structure. Qed.

#[local] Hint Resolve respects_construct_from respects_value_construct
  respects_copy_construct respects_move_construct respects_copy_assign
  respects_move_assign respects_move_assign_from respects_destroy_at : structure.

(** *** The algorithms *)

Lemma respects_uninitialized_copy_n n : ∀ p q, sound (uninitialized_copy_n p n q).
Proof using laws. induction n; intros p q; simpl; structure. Qed.
Lemma respects_uninitialized_move_n n : ∀ p q, sound (uninitialized_move_n p n q).
Proof using laws. induction n; intros p q; simpl; structure. Qed.
Lemma respects_uninitialized_value_construct_n n :
  ∀ p, sound (uninitialized_value_construct_n p n).
Proof using laws. induction n; intros p; simpl; structure. Qed.
Lemma respects_destroy_n n : ∀ p, sound (destroy_n p n).
Proof using laws. induction n; intros p; simpl; structure. Qed.
Lemma respects_copy_n n : ∀ p q, sound (copy_n p n q).
Proof using laws. induction n; intros p q; simpl; structure. Qed.
Lemma respects_move_n n : ∀ p q, sound (move_n p n q).
Proof using laws. induction n; intros p q; simpl; structure. Qed.
Lemma respects_move_backward_n n : ∀ p q, sound (move_backward_n p n q).
Proof using laws. induction n; intros p q; simpl; structure. Qed.

#[local] Hint Resolve respects_uninitialized_copy_n respects_uninitialized_move_n
  respects_uninitialized_value_construct_n respects_destroy_n respects_copy_n
  respects_move_n respects_move_backward_n : structure.

Lemma respects_std_move p q r : sound (std_move p q r).
Proof using laws. unfold std_move. structure. Qed.
Lemma respects_move_backward p q r : sound (move_backward p q r).
Proof using laws. unfold move_backward. structure. Qed.

#[local] Hint Resolve respects_std_move respects_move_backward : structure.

(** *** RawMemory, but for the allocation *)

Lemma respects_Deallocate buf : sound (RawMemory.Deallocate buf).
Proof using laws.
  destruct buf as [b|]; simpl; [|structure].
  intros w. destruct (heap w !! b); [|done].
  pose proof (respects_emit Dealloc (set_heap (delete b) w)) as He.
  unfold emit in *. simpl in *.
  exact (G_trans _ _ laws _ _ _ (G_heap _ _ laws w (delete b)) He).
Qed.

#[local] Hint Resolve respects_Deallocate : structure.

Lemma respects_RawMemory_dtor d : sound (RawMemory.dtor d).
Proof using laws. unfold RawMemory.dtor. structure. Qed.
Lemma respects_plus d k : sound (RawMemory.plus d k).
Proof using laws. unfold RawMemory.plus. structure. Qed.
Lemma respects_RawMemory_index d k : sound (RawMemory.index d k).
Proof using laws. unfold RawMemory.index. structure. Qed.

#[local] Hint Resolve respects_RawMemory_dtor respects_plus respects_RawMemory_index
  : structure.

(** *** Vector, but for the operations that allocate *)

Lemma respects_get a : sound (Vector.get a).
Proof using laws. intros w. unfold Vector.get. destruct (objs w !! a); [apply laws|done]. Qed.
Lemma respects_put a v : sound (Vector.put a v).
Proof using laws. intros w. unfold Vector.put. apply laws. Qed.
Lemma respects_new_object a v : sound (Vector.new_object a v).
Proof using laws.
  intros w. unfold Vector.new_object. destruct (objs w !! a); [done|apply laws].
Qed.
Lemma respects_end_object a : sound (Vector.end_object a).
Proof using laws. intros w. unfold Vector.end_object. apply laws. Qed.
Lemma respects_local_addr : sound Vector.local_addr.
Proof using laws. intros w. unfold Vector.local_addr. apply laws. Qed.

#[local] Hint Resolve respects_get respects_put respects_new_object respects_end_object
  respects_local_addr : structure.

Lemma respects_set_data a d : sound (Vector.set_data a d).
Proof using laws. unfold Vector.set_data. structure. Qed.
Lemma respects_set_size a k : sound (Vector.set_size a k).
Proof using laws. unfold Vector.set_size. structure. Qed.

#[local] Hint Resolve respects_set_data respects_set_size : structure.

Lemma respects_begin a : sound (Vector.begin_ a).
Proof using laws. unfold Vector.begin_. structure. Qed.
Lemma respects_end a : sound (Vector.end_ a).
Proof using laws. unfold Vector.end_. structure. Qed.
Lemma respects_Destroy a : sound (Vector.Destroy a).
Proof using laws. unfold Vector.Destroy. structure. Qed.
Lemma respects_Reallocate a d : sound (Vector.Reallocate a d).
Proof using laws. unfold Vector.Reallocate. structure. Qed.
Lemma respects_swap_data a d : sound (Vector.swap_data a d).
Proof using laws. unfold Vector.swap_data. structure. Qed.
Lemma respects_default_ctor a : sound (Vector.default_ctor a).
Proof using laws. unfold Vector.default_ctor. structure. Qed.
Lemma respects_take_over a b : sound (Vector.take_over a b).
Proof using laws. unfold Vector.take_over. structure. Qed.

#[local] Hint Resolve respects_begin respects_end respects_Destroy respects_Reallocate
  respects_swap_data respects_default_ctor respects_take_over : structure.

Lemma respects_move_ctor a b : sound (Vector.move_ctor a b).
Proof using laws. unfold Vector.move_ctor. structure. Qed.
Lemma respects_move_assignment a b : sound (Vector.move_assignment a b).
Proof using laws. unfold Vector.move_assignment. structure. Qed.
Lemma respects_dtor a : sound (Vector.dtor a).
Proof using laws. unfold Vector.dtor. structure. Qed.
Lemma respects_Swap a b : sound (Vector.Swap a b).
Proof using laws. unfold Vector.Swap. structure. Qed.
Lemma respects_Erase a pos : sound (Vector.Erase a pos).
Proof using laws. unfold Vector.Erase. structure. Qed.
Lemma respects_PopBack a : sound (Vector.PopBack a).
Proof using laws. unfold Vector.PopBack. structure. Qed.

#[local] Hint Resolve respects_move_ctor respects_move_assignment respects_dtor
  respects_Swap respects_Erase respects_PopBack : structure.

(** *** The operations that allocate, given what [operator new] does *)

Hypothesis G_alloc : ∀ w blk,
  G w (mkWorld (objs w) (<[next_block w := blk]> (heap w)) (S (next_block w))
               (faults w) (log w)).

Lemma respects_Allocate k : sound (RawMemory.Allocate k).
Proof using laws G_alloc.
  unfold RawMemory.Allocate. structure. intros w. apply G_alloc.
Qed.

#[local] Hint Resolve respects_Allocate : structure.

Lemma respects_ctor k : sound (RawMemory.ctor k).
Proof using laws G_alloc. unfold RawMemory.ctor. structure. Qed.

#[local] Hint Resolve respects_ctor : structure.

Lemma respects_size_ctor a k : sound (Vector.size_ctor a k).
Proof using laws G_alloc. unfold Vector.size_ctor. structure. Qed.
Lemma respects_copy_ctor a b : sound (Vector.copy_ctor a b).
Proof using laws G_alloc. unfold Vector.copy_ctor. structure. Qed.
Lemma respects_Reserve a k : sound (Vector.Reserve a k).
Proof using laws G_alloc. unfold Vector.Reserve. structure. Qed.

#[local] Hint Resolve respects_size_ctor respects_copy_ctor respects_Reserve : structure.

Lemma respects_copy_assignment a b : sound (Vector.copy_assignment a b).
Proof using laws G_alloc. unfold Vector.copy_assignment. structure. Qed.
Lemma respects_Resize a k : sound (Vector.Resize a k).
Proof using laws G_alloc. unfold Vector.Resize. structure. Qed.
Lemma respects_PushBack a x : sound (Vector.PushBack a x).
Proof using laws G_alloc. unfold Vector.PushBack. structure. Qed.
Lemma respects_PushBack_move a x : sound (Vector.PushBack_move a x).
Proof using laws G_alloc. unfold Vector.PushBack_move. structure. Qed.
Lemma respects_EmplaceBack a how x : sound (Vector.EmplaceBack a how x).
Proof using laws G_alloc. unfold Vector.EmplaceBack. structure. Qed.
Lemma respects_Emplace a pos how x : sound (Vector.Emplace a pos how x).
Proof using laws G_alloc. unfold Vector.Emplace. structure. Qed.

End Structure.

#[global] Hint Resolve respects_tick respects_emit respects_perform respects_peek
  respects_poke respects_load respects_construct_from respects_value_construct
  respects_copy_construct respects_move_construct respects_copy_assign
  respects_move_assign respects_move_assign_from respects_destroy_at
  respects_uninitialized_copy_n respects_uninitialized_move_n
  respects_uninitialized_value_construct_n respects_destroy_n respects_copy_n
  respects_move_n respects_move_backward_n respects_std_move respects_move_backward
  respects_Deallocate respects_RawMemory_dtor respects_plus respects_RawMemory_index
  respects_get respects_put respects_new_object respects_end_object
  respects_local_addr respects_set_data respects_set_size respects_begin respects_end
  respects_Destroy respects_Reallocate respects_swap_data respects_default_ctor
  respects_take_over respects_move_ctor respects_move_assignment respects_dtor
  respects_Swap respects_Erase respects_PopBack respects_Allocate respects_ctor
  respects_size_ctor respects_copy_ctor respects_Reserve respects_copy_assignment
  respects_Resize respects_PushBack respects_PushBack_move respects_EmplaceBack
  respects_Emplace : structure.

(** [structure_for L]: the fact follows the structure of the code, with
    the laws [L]. *)
Ltac structure_for L :=
  repeat first
    [ apply (G_refl _ _ L)
    | match goal with
      | |- respects _ _ (ret _) => apply (respects_ret _ _ L)
      | |- respects _ _ undefined => apply respects_undefined
      | |- respects _ _ (bind _ _) => apply (respects_bind _ _ L); [|intros ?]
      | |- respects _ _ (on_throw _ _) => apply (respects_on_throw _ _ L)
      | |- respects _ _ (if ?b then _ else _) => destruct b
      | |- respects _ _ (match ?x with _ => _ end) => destruct x
      end
    | solve [eauto with structure] ].

(** ** Only [operator new] hands out blocks, and once per operation *)

Section Allocations.
Context {T : Type} `{!Element T}.

Definition same_next (w w' : World T) : Prop := next_block w' = next_block w.

Lemma same_next_laws : structure_laws same_next same_next.
Proof. split; unfold same_next; intros; simpl; congruence. Qed.

#[local] Hint Resolve same_next_laws : structure.

(** [keeps_next m]: [m] allocates nothing. *)
Definition keeps_next {A} (m : M T A) : Prop := respects same_next same_next m.

(** [allocates_once m]: [m] allocates at most one block, whether it
    returns or throws. *)
Definition allocates_once {A} (m : M T A) : Prop :=
  ∀ w, match m w with
       | Ok _ w' => next_block w' ≤ S (next_block w)
       | Throw w' => next_block w' ≤ S (next_block w)
       | Undefined => True
       end.

Lemma once_of_keeps {A} (m : M T A) : keeps_next m → allocates_once m.
Proof.
  intros Hm w. specialize (Hm w). unfold same_next in Hm.
  destruct (m w); [lia|lia|done].
Qed.

Lemma once_bind_l {A A'} (m : M T A) (f : A → M T A') :
  allocates_once m → (∀ a, keeps_next (f a)) → allocates_once (bind m f).
Proof.
  intros Hm Hf w. unfold bind. specialize (Hm w).
  destruct (m w) as [a w1|w1|]; [|done..].
  specialize (Hf a w1). unfold same_next in Hf.
  destruct (f a w1); [lia|lia|done].
Qed.

Lemma once_bind_r {A A'} (m : M T A) (f : A → M T A') :
  keeps_next m → (∀ a, allocates_once (f a)) → allocates_once (bind m f).
Proof.
  intros Hm Hf w. unfold bind. specialize (Hm w). unfold same_next in Hm.
  destruct (m w) as [a w1|w1|]; [|lia|done].
  specialize (Hf a w1). rewrite <-Hm. by destruct (f a w1).
Qed.

Lemma once_Allocate k : allocates_once (RawMemory.Allocate (T := T) k).
Proof.
  unfold RawMemory.Allocate. case_decide.
  - apply once_bind_r; [unfold keeps_next; structure_for (same_next_laws)|].
    intros _. unfold allocates_once. intros w. simpl. lia.
  - apply once_of_keeps. unfold keeps_next. structure_for (same_next_laws).
Qed.

Lemma once_ctor k : allocates_once (RawMemory.ctor (T := T) k).
Proof.
  unfold RawMemory.ctor. apply once_bind_l; [apply once_Allocate|].
  intros buf. unfold keeps_next. structure_for (same_next_laws).
Qed.

Local Ltac keeps := unfold keeps_next; structure_for (same_next_laws).

(** The shape shared by the operations that may grow the block: what
    follows the construction of [new_data] allocates nothing. *)
Local Ltac one_block :=
  repeat first
    [ apply once_ctor
    | apply once_of_keeps; solve [keeps]
    | match goal with
      | |- allocates_once (if ?b then _ else _) => destruct b
      | |- allocates_once (bind (Vector.get _) _) => apply once_bind_r; [keeps|intros ?]
      | |- allocates_once (bind Vector.local_addr _) => apply once_bind_r; [keeps|intros ?]
      | |- allocates_once (bind _ _) => apply once_bind_l; [|intros ?; solve [keeps]]
      end ].

Lemma once_Reserve a k : allocates_once (Vector.Reserve a k).
Proof. unfold Vector.Reserve. one_block. Qed.

Lemma once_copy_ctor a b : allocates_once (Vector.copy_ctor a b).
Proof. unfold Vector.copy_ctor. one_block. Qed.

Lemma once_Resize a k : allocates_once (Vector.Resize a k).
Proof.
  unfold Vector.Resize. apply once_bind_r; [keeps|intros v].
  case_decide; [|one_block]. apply once_bind_l; [|intros ?; keeps].
  case_decide; [one_block|]. apply once_bind_l; [apply once_Reserve|intros ?; keeps].
Qed.

Lemma once_PushBack a x : allocates_once (Vector.PushBack a x).
Proof. unfold Vector.PushBack. one_block. Qed.
Lemma once_PushBack_move a x : allocates_once (Vector.PushBack_move a x).
Proof. unfold Vector.PushBack_move. one_block. Qed.
Lemma once_EmplaceBack a how x : allocates_once (Vector.EmplaceBack a how x).
Proof. unfold Vector.EmplaceBack. one_block. Qed.
Lemma once_Emplace a pos how x : allocates_once (Vector.Emplace a pos how x).
Proof. unfold Vector.Emplace. one_block. Qed.

Lemma once_copy_assignment a b : allocates_once (Vector.copy_assignment a b).
Proof.
  unfold Vector.copy_assignment. case_decide; [|one_block].
  apply once_bind_r; [keeps|intros v]. apply once_bind_r; [keeps|intros r].
  case_decide; [|one_block].
  apply once_bind_r; [keeps|intros c].
  apply once_bind_l; [apply once_copy_ctor|intros ?; keeps].
Qed.

Lemma keeps_Erase a pos : keeps_next (Vector.Erase a pos).
Proof. keeps. Qed.
Lemma keeps_PopBack a : keeps_next (Vector.PopBack a).
Proof. keeps. Qed.

End Allocations.

(** ** Nothing throws unless a failure is scheduled *)

Section Calm.
Context {T : Type} `{!Element T}.

Definition stays_calm (w w' : World T) : Prop := faults w = [] → faults w' = [].
Definition was_stirred (w w' : World T) : Prop := faults w ≠ [].

Lemma calm_laws : structure_laws stays_calm was_stirred.
Proof.
  split; unfold stays_calm, was_stirred; intros; simpl in *;
    try done; try congruence; auto.
Qed.

Lemma calm_alloc (w : World T) blk :
  stays_calm w (mkWorld (objs w) (<[next_block w := blk]> (heap w)) (S (next_block w))
                        (faults w) (log w)).
Proof. by intros ?. Qed.

(** [calm m]: with no failure scheduled, [m] does not throw, and none is
    scheduled afterwards. *)
Definition calm {A} (m : M T A) : Prop := respects stays_calm was_stirred m.

Lemma calm_run_inv {A} (m : M T A) w :
  calm m → faults w = [] →
  match m w with Ok _ w' => faults w' = [] | Throw _ => False | Undefined => True end.
Proof.
  intros Hm Hw. specialize (Hm w). unfold stays_calm, was_stirred in Hm.
  destruct (m w); [by apply Hm|done|done].
Qed.

End Calm.

#[global] Hint Resolve same_next_laws calm_laws calm_alloc : structure.

(** * The properties of the specification *)

(** ** Element types used in examples *)

(** An element type like [int]: copies and moves leave the source as it
    is, and moving cannot throw. *)
Definition int_like : Element nat :=
  {| value_init := 0; moved_from := λ x, x;
     is_nothrow_move_constructible := true; is_copy_constructible := true;
     sizeof_T := 4 |}.

(** A move-only element type whose move constructor may throw and leaves
    the source at [0]. *)
Definition fragile : Element nat :=
  {| value_init := 0; moved_from := λ _, 0;
     is_nothrow_move_constructible := false; is_copy_constructible := false;
     sizeof_T := 4 |}.

(** The world before anything exists, with a schedule of faults. *)
Definition start {T} (fs : list bool) : World T := mkWorld ∅ ∅ 0 fs [].

(** What a world says about the vector at address [a]. *)
Definition capacity_at {T} (w : World T) (a : addr) : option nat :=
  (λ v, capacity_ (data_ v)) <$> objs w !! a.
Definition size_at {T} (w : World T) (a : addr) : option nat :=
  size_ <$> objs w !! a.

(** [holds w a xs]: the object at [a] satisfies the invariant of class
    [Vector] and its elements are [xs]. *)
Definition holds {T} (w : World T) (a : addr) (xs : list T) : Prop :=
  ∃ v, objs w !! a = Some v ∧ repr (heap w) v xs.

Section MoveAndPop.
Context {T : Type} `{!Element T}.
Implicit Types (w : World T) (v : Vector) (xs ys : list T).

Lemma wp_run {A} (m : M T A) w (Q : A → World T → Prop) E :
  wp m w Q E →
  match m w with Ok a w' => Q a w' | Throw w' => E w' | Undefined => False end.
Proof. done. Qed.

Lemma wp_equals {A} (m : M T A) w a w' :
  wp m w (λ r w1, r = a ∧ w1 = w') (λ _, False) → m w = Ok a w'.
Proof. unfold wp. destruct (m w); [by intros [-> ->]|done|done]. Qed.

(** C10. Assigning a vector to itself, by copy or by move, changes
    nothing: the guard [this != &rhs] skips the whole body. *)
Theorem self_assignment_is_noop (w : World T) (a : addr) :
  Vector.copy_assignment a a w = Ok tt w ∧ Vector.move_assignment a a w = Ok tt w.
Proof.
  unfold Vector.copy_assignment, Vector.move_assignment.
  split; (rewrite decide_False; [done|by intros ?]).
Qed.

(** C8. Move construction gives the new vector the members of the source,
    hence its block, elements, size and capacity; the source is left with
    no block, capacity 0 and size 0.  It returns normally for every
    schedule of faults, and neither the heap nor the log changes: no
    element is constructed, assigned or destroyed. *)
Theorem move_ctor_transfers (w : World T) (a b : addr) (vb : Vector) (xs : list T) :
  objs w !! a = None → objs w !! b = Some vb → repr (heap w) vb xs →
  ∃ w', Vector.move_ctor a b w = Ok tt w' ∧
        objs w' !! a = Some vb ∧ holds w' a xs ∧
        objs w' !! b = Some (mkVector (mkRawMemory None 0) 0) ∧ holds w' b [] ∧
        (∀ c, c ≠ a → c ≠ b → objs w' !! c = objs w !! c) ∧
        heap w' = heap w ∧ log w' = log w ∧ faults w' = faults w ∧
        next_block w' = next_block w.
Proof.
  destruct w as [o h n fs l]; simpl. intros Ha Hb Hr.
  assert (a ≠ b) by congruence.
  eexists. split.
  { apply wp_equals. eapply wp_move_ctor; [done..|]. done. }
  simpl. split_and!; [| | | | |done..].
  - rewrite lookup_insert_ne by done. by rewrite lookup_insert_eq.
  - exists vb. simpl. rewrite lookup_insert_ne by done. by rewrite lookup_insert_eq.
  - by rewrite lookup_insert_eq.
  - eexists. simpl. rewrite lookup_insert_eq. split; [done|]. by repeat split.
  - intros c ??. by rewrite !lookup_insert_ne by done.
Qed.

(** C3. Move assignment between two different vectors hands the members
    of the right-hand side to the left-hand side, empties the right-hand
    side and never throws; but nothing else happens: the heap and the log
    are unchanged, so the block the left-hand side owned is still
    allocated, its elements are still alive, and no destructor has run. *)
Theorem move_assignment_leaks (w : World T) (a b : addr) (va vb : Vector) :
  a ≠ b → objs w !! a = Some va → objs w !! b = Some vb →
  Vector.move_assignment a b w
  = Ok tt (mkWorld (<[b := mkVector (mkRawMemory None 0) 0]> (<[a := vb]> (objs w)))
                   (heap w) (next_block w) (faults w) (log w)).
Proof.
  destruct w as [o h n fs l]; simpl. intros Hne Ha Hb.
  apply wp_equals. by eapply wp_move_assignment.
Qed.

(** C1. On a vector that satisfies the invariant and holds at least one
    element, [PopBack] has undefined behaviour: it destroys the slot at
    index [size_], which holds no object or lies past the block, instead
    of the last element at index [size_ - 1]. *)
Theorem PopBack_destroys_wrong_slot (w : World T) (a : addr) (xs : list T) :
  holds w a xs → xs ≠ [] → Vector.PopBack a w = Undefined.
Proof.
  destruct w as [o h n fs l]. intros (v & Ha & Hr) Hne.
  by eapply PopBack_nonempty.
Qed.

End MoveAndPop.

#[local] Existing Instance int_like.

(** A vector at address 0 holding [5] in a block of two slots. *)
Definition one_vector : World nat :=
  mkWorld {[0 := mkVector (mkRawMemory (Some 0) 2) 1]} {[0 := [Some 5; None]]} 1 [] [].

Lemma move_ctor_transfers_witness :
  ∃ w', Vector.move_ctor 1 0 one_vector = Ok tt w' ∧
        objs w' !! 1 = Some (mkVector (mkRawMemory (Some 0) 2) 1) ∧ holds w' 1 [5] ∧
        objs w' !! 0 = Some (mkVector (mkRawMemory None 0) 0) ∧ holds w' 0 [] ∧
        (∀ c, c ≠ 1 → c ≠ 0 → objs w' !! c = objs one_vector !! c) ∧
        heap w' = heap one_vector ∧ log w' = log one_vector ∧
        faults w' = faults one_vector ∧ next_block w' = next_block one_vector.
Proof.
  apply (move_ctor_transfers one_vector 1 0 (mkVector (mkRawMemory (Some 0) 2) 1) [5]).
  - reflexivity.
  - reflexivity.
  - split; [reflexivity|split; [simpl; lia|reflexivity]].
Defined.

(** Two vectors: [7] at address 0 and [8; 9] at address 1. *)
Definition two_vectors : World nat :=
  mkWorld {[0 := mkVector (mkRawMemory (Some 0) 1) 1;
            1 := mkVector (mkRawMemory (Some 1) 2) 2]}
          {[0 := [Some 7]; 1 := [Some 8; Some 9]]} 2 [] [].

Lemma move_assignment_leaks_witness :
  Vector.move_assignment 0 1 two_vectors
  = Ok tt (mkWorld (<[1 := mkVector (mkRawMemory None 0) 0]>
                      (<[0 := mkVector (mkRawMemory (Some 1) 2) 2]> (objs two_vectors)))
                   (heap two_vectors) (next_block two_vectors)
                   (faults two_vectors) (log two_vectors)).
Proof.
  apply (move_assignment_leaks two_vectors 0 1
           (mkVector (mkRawMemory (Some 0) 1) 1) (mkVector (mkRawMemory (Some 1) 2) 2)).
  - lia.
  - reflexivity.
  - reflexivity.
Defined.

Lemma PopBack_destroys_wrong_slot_witness :
  Vector.PopBack 0
    (mkWorld {[0 := mkVector (mkRawMemory (Some 0) 1) 1]} {[0 := [Some 7]]} 1 [] [])
  = Undefined.
Proof.
  apply (PopBack_destroys_wrong_slot _ 0 [7]).
  - eexists. split; [reflexivity|]. split; [reflexivity|split; [simpl; lia|reflexivity]].
  - discriminate.
Defined.


Section RoundTrip.
Context {T : Type} `{!Element T}.
Implicit Types (w : World T) (v : Vector) (xs ys : list T).

Lemma repr_set_block h v xs ys b :
  buffer_ (data_ v) = Some b → length ys ≤ capacity_ (data_ v) →
  repr (<[b := block_of ys (capacity_ (data_ v))]> h) (mkVector (data_ v) (length ys)) ys.
Proof.
  intros Hb Hcap. split; [done|]. split; [done|]. simpl. rewrite Hb.
  by rewrite lookup_insert_eq.
Qed.

Lemma repr_fresh_block h n k ys :
  length ys ≤ k →
  repr (<[n := block_of ys k]> h) (mkVector (mkRawMemory (Some n) k) (length ys)) ys.
Proof. intros. split; [done|]. split; [done|]. simpl. by rewrite lookup_insert_eq. Qed.

(** Where C2 holds: inserting before an existing element, or anywhere in a
    full vector, and erasing at the same position gives back the elements
    and the size. *)
Lemma Insert_then_Erase_restores (w : World T) (a : addr) (pre suf : list T)
    (how : ctor_kind) (x : T) (c : nat) :
  holds w a (pre ++ suf) → capacity_at w a = Some c →
  heap w !! next_block w = None →
  length (pre ++ suf) = c ∨ suf ≠ [] →
  match (Vector.Emplace a (length pre) how x;; Vector.Erase a (length pre)) w with
  | Ok _ w' => holds w' a (pre ++ suf) ∧ size_at w' a = Some (length (pre ++ suf))
  | Throw _ => True
  | Undefined => False
  end.
Proof.
  destruct w as [o h n fs l]. intros (v & Ha & Hr) Hc Hn Hpos.
  unfold capacity_at in Hc. simpl in *. rewrite Ha in Hc. simpl in Hc.
  injection Hc as Hc. subst c.
  pose proof Hr as (Hsz & Hcap & Hb).
  apply wp_run, wp_bind.
  eapply wp_Emplace; [done..| | |done|done].
  - intros Hlt fs1.
    destruct (buffer_ (data_ v)) as [b|] eqn:Hbuf; [|lia]. simpl.
    eapply (wp_Erase a _ pre x suf); [by rewrite lookup_insert_eq| | |done].
    + pose proof (repr_set_block h v (pre ++ x :: suf) (pre ++ [x] ++ suf) b Hbuf) as Hr'.
      rewrite !length_app in *; simpl in *.
      replace (S (size_ v)) with (length pre + S (length suf)) by lia.
      apply Hr'. lia.
    + intros fs2. simpl. rewrite Hbuf. simpl.
      rewrite !insert_insert_eq, Nat.sub_0_r. split.
      * eexists. simpl. rewrite lookup_insert_eq. split; [done|].
        rewrite Hsz. by apply repr_set_block.
      * unfold size_at; simpl. by rewrite lookup_insert_eq, Hsz.
  - intros Hfull fs1.
    pose proof (grown_gt (size_ v)) as Hg.
    eapply (wp_Erase a _ pre x suf); [by rewrite lookup_insert_eq| | |done].
    + pose proof (repr_fresh_block (release (buffer_ (data_ v)) h) n (grown (size_ v))
                    (pre ++ [x] ++ suf)) as Hr'.
      rewrite !length_app in *; simpl in *.
      replace (S (size_ v)) with (length pre + S (length suf)) by lia.
      apply Hr'. lia.
    + intros fs2. simpl.
      rewrite !insert_insert_eq, Nat.sub_0_r. split.
      * eexists. simpl. rewrite lookup_insert_eq. split; [done|].
        rewrite Hsz. apply repr_fresh_block.
        pose proof (grown_gt (length (pre ++ suf))). lia.
      * unfold size_at; simpl. by rewrite lookup_insert_eq, Hsz.
Qed.

End RoundTrip.


(** C2. [Insert] at [end()] of a vector that has spare capacity has
    undefined behaviour.  With one element and capacity 2, the range
    given to [std::move_backward] is [[begin() + 1, end() - 1)], whose
    first iterator lies after its last.  With no element and capacity 1,
    [data_[size_ - 1]] indexes [SIZE_MAX] and the assertion of
    [RawMemory::operator[]] fails. *)
Theorem Insert_at_end_undefined :
  (Vector.default_ctor 0;; Vector.Reserve 0 2;; Vector.PushBack 0 1;;
   Vector.Insert 0 1 2) (start []) = Undefined ∧
  (Vector.default_ctor 0;; Vector.Reserve 0 1;;
   Vector.Insert 0 0 5) (start []) = Undefined.
Proof. split; vm_compute; reflexivity. Qed.


Section AssignAndGrow.
Context {T : Type} `{!Element T}.
Implicit Types (w : World T) (v : Vector) (xs ys : list T).

Lemma repr_release_frame h v xs (buf : option addr) n blk :
  repr h v xs → h !! n = None →
  (∀ p, buf = Some p → buffer_ (data_ v) ≠ Some p) →
  repr (<[n := blk]> (release buf h)) v xs.
Proof.
  intros Hr Hn Hown. eapply repr_frame; [done|]. intros b Hb.
  destruct Hr as (_ & _ & Hblk). rewrite Hb in Hblk.
  rewrite lookup_insert_ne by congruence.
  destruct buf as [p|]; simpl; [|done].
  rewrite lookup_delete_ne; [done|]. intros ->. by eapply Hown.
Qed.

Lemma repr_set_block_frame h v xs (buf : option addr) blk :
  repr h v xs →
  (∀ p, buf = Some p → buffer_ (data_ v) ≠ Some p) →
  repr (set_block buf blk h) v xs.
Proof.
  intros Hr Hown. eapply repr_frame; [done|]. intros b Hb.
  destruct buf as [p|]; simpl; [|done].
  rewrite lookup_insert_ne; [done|]. intros ->. by eapply Hown.
Qed.

(** C7. Copy assignment between two different vectors.  It has defined
    behaviour.  When it returns, the left-hand side holds the elements of
    the right-hand side, with the same size, and the right-hand side is
    unchanged.  If the right-hand side is larger than the capacity of the
    left, a copy was built in a new block of exactly that size and swapped
    in: one allocation, one copy construction per element, then the old
    elements destroyed and the old block released; an exception leaves
    all vectors and blocks as they were.  Otherwise the members [data_]
    of the left are unchanged and nothing is allocated: the common prefix
    is copy-assigned, then the excess of the left is destroyed or the
    excess of the right is copy-constructed. *)
Theorem copy_assignment_spec (w : World T) (a b : addr) (va vb : Vector) (xs ys : list T) :
  a ≠ b → objs w !! a = Some va → objs w !! b = Some vb →
  repr (heap w) va xs → repr (heap w) vb ys →
  (∀ p : addr, buffer_ (data_ va) = Some p → buffer_ (data_ vb) ≠ Some p) →
  heap w !! next_block w = None →
  match Vector.copy_assignment a b w with
  | Ok _ w' =>
      holds w' a ys ∧ size_at w' a = Some (length ys) ∧
      objs w' !! b = Some vb ∧ repr (heap w') vb ys ∧
      if decide (capacity_ (data_ va) < length ys) then
        capacity_at w' a = Some (length ys) ∧
        next_block w' = S (next_block w) ∧
        log w' = log w ++ [Alloc] ++ replicate (length ys) CopyCtor
                   ++ replicate (length xs) Dtor ++ release_log (buffer_ (data_ va))
      else
        (∃ v', objs w' !! a = Some v' ∧ data_ v' = data_ va) ∧
        next_block w' = next_block w ∧
        log w' = log w ++ replicate (length xs `min` length ys) CopyAssign
                   ++ (if decide (length ys < length xs)
                       then replicate (length xs - length ys) Dtor
                       else replicate (length ys - length xs) CopyCtor)
  | Throw w' =>
      capacity_ (data_ va) < length ys → objs w' = objs w ∧ heap w' = heap w
  | Undefined => False
  end.
Proof.
  destruct w as [o h n fs l]; simpl. intros Hne Ha Hb Hra Hrb Hown Hn.
  pose proof Hra as (Hsza & Hcapa & Hba).
  apply wp_run. eapply wp_copy_assignment; [done..| | | |].
  - intros Hbig fs'.
    destruct (decide (capacity_ (data_ va) < length ys)); [|done]. simpl.
    split_and!; [| | | | |done|done].
    + eexists. simpl. rewrite lookup_insert_eq. split; [done|].
      by apply repr_fresh_block.
    + unfold size_at; simpl. by rewrite lookup_insert_eq.
    + by rewrite lookup_insert_ne.
    + by apply repr_release_frame.
    + unfold capacity_at; simpl. by rewrite lookup_insert_eq.
  - intros Hfit fs'.
    destruct (decide (capacity_ (data_ va) < length ys)); [lia|]. simpl.
    split_and!; [| | | | |done|done].
    + eexists. simpl. rewrite lookup_insert_eq. split; [done|].
      destruct (buffer_ (data_ va)) as [ba|] eqn:Hbufa; simpl.
      * by apply repr_set_block.
      * assert (ys = []) as -> by (destruct ys; simpl in *; [done|lia]).
        repeat split; simpl; [lia|]. by rewrite Hbufa.
    + unfold size_at; simpl. by rewrite lookup_insert_eq.
    + by rewrite lookup_insert_ne.
    + by apply repr_set_block_frame.
    + eexists. rewrite lookup_insert_eq. done.
  - intros Hbig fs' l' n'. done.
  - intros Hfit fs' l' blk' Hshape. simpl. lia.
Qed.

(** C4, as amended.  When the element type cannot fail to move or can be
    copied, an exception leaving a growing operation leaves every vector
    and every block of the heap exactly as before the call, whatever
    failed: the allocation, the construction of the new element or the
    transfer of an old one.  [Reserve], both [PushBack]s and
    [EmplaceBack] are covered in all cases, [Emplace] and [Insert] when
    the vector is full.  The request given to [Reserve] is one whose
    byte size [size_t] holds, and the position given to [Emplace] and
    [Insert] one that [int] holds. *)
Theorem growth_strong_guarantee (w : World T) (a : addr) (v : Vector) (xs : list T) :
  is_nothrow_move_constructible = true ∨ is_copy_constructible = true →
  objs w !! a = Some v → repr (heap w) v xs → heap w !! next_block w = None →
  let unchanged {A} (r : result T A) :=
    match r with
    | Ok _ _ => True
    | Throw w' => objs w' = objs w ∧ heap w' = heap w
    | Undefined => False
    end in
  (∀ k, fits_size_t (T := T) k → unchanged (Vector.Reserve a k w)) ∧
  (∀ x, unchanged (Vector.PushBack a x w)) ∧
  (∀ x, unchanged (Vector.PushBack_move a x w)) ∧
  (∀ how x, unchanged (Vector.EmplaceBack a how x w)) ∧
  (∀ pos how x, length xs = capacity_ (data_ v) → pos ≤ length xs → fits_int pos →
     unchanged (Vector.Emplace a pos how x w)) ∧
  (∀ pos x, length xs = capacity_ (data_ v) → pos ≤ length xs → fits_int pos →
     unchanged (Vector.Insert a pos x w)) ∧
  (∀ pos x, length xs = capacity_ (data_ v) → pos ≤ length xs → fits_int pos →
     unchanged (Vector.Insert_move a pos x w)).
Proof.
  destruct w as [o h n fs l]; simpl. intros Hcond Ha Hr Hn.
  assert (∀ fs' l' n' h', after_throw (buffer_ (data_ v)) h h' →
            objs (mkWorld o h' n' fs' l') = o ∧ heap (mkWorld o h' n' fs' l') = h) as HE.
  { intros fs' l' n' h' [Hstrong _]. simpl. split; [done|]. by apply Hstrong. }
  assert (∀ pos how x, length xs = capacity_ (data_ v) → pos ≤ length xs →
            wp (Vector.Emplace a pos how x) (mkWorld o h n fs l)
               (λ _ _, True) (λ w', objs w' = o ∧ heap w' = h)) as HEmplace.
  { intros pos how x Hfull Hpos.
    rewrite <-(take_drop pos xs) in Hr, Hfull.
    replace pos with (length (take pos xs)) at 1 by (rewrite length_take; lia).
    eapply wp_Emplace; [done..|by left| | | |]; try done.
    all: intros; first [lia | by apply HE]. }
  split_and!.
  - intros k _. apply wp_run. eapply wp_Reserve; [done..| | |]; try done.
    all: intros; by apply HE.
  - intros x. apply wp_run. rewrite PushBack_push_with.
    eapply wp_push_with; [done..| | |]; try done.
  - intros x. apply wp_run. rewrite PushBack_move_push_with.
    eapply wp_push_with; [done..| | |]; try done.
  - intros how x. apply wp_run. eapply wp_EmplaceBack; [done..| | |]; try done.
  - intros pos how x Hfull Hpos _. apply wp_run. by apply HEmplace.
  - intros pos x Hfull Hpos _. apply wp_run. by apply HEmplace.
  - intros pos x Hfull Hpos _. apply wp_run. by apply HEmplace.
Qed.

End AssignAndGrow.


Section CapacityAndDispatch.
Context {T : Type} `{!Element T}.
Implicit Types (w : World T) (v : Vector) (xs ys : list T).
Implicit Types (o : gmap addr Vector) (h : gmap addr (list (option T))).

Lemma grown_max c : grown c = 1 `max` (2 * c).
Proof. unfold grown. case_decide; lia. Qed.

Lemma capacity_at_insert o h n fs l a v' :
  capacity_at (mkWorld (<[a := v']> o) h n fs l) a = Some (capacity_ (data_ v')).
Proof. unfold capacity_at; simpl. by rewrite lookup_insert_eq. Qed.

Lemma capacity_at_same o h n fs l a v :
  o !! a = Some v → capacity_at (mkWorld o h n fs l) a = Some (capacity_ (data_ v)).
Proof. intros Ha. unfold capacity_at; simpl. by rewrite Ha. Qed.

(** C5, as amended.  Among the operations on one vector and copy
    assignment to it, none lowers its capacity and none allocates more
    than one block, whether it returns or throws; and when the vector is
    full, [PushBack], [EmplaceBack] and [Emplace] (hence [Insert]) leave
    it with capacity [max 1 (2 * C)], [C] being the capacity before.
    The operations are taken where the code handles them: [PopBack] on an
    empty vector, [Emplace] before [end()] or on a full vector, [Erase]
    at an element; a requested size is one whose byte size [size_t]
    holds, and a position one that [int] holds. *)
Theorem capacity_never_shrinks (w : World T) (a : addr) (v : Vector) (xs : list T) :
  objs w !! a = Some v → repr (heap w) v xs → heap w !! next_block w = None →
  let no_less {A} (r : result T A) :=
    match r with
    | Ok _ w' =>
        (∃ c', capacity_at w' a = Some c' ∧ capacity_ (data_ v) ≤ c') ∧
        next_block w' ≤ S (next_block w)
    | Throw w' =>
        (∃ c', capacity_at w' a = Some c' ∧ capacity_ (data_ v) ≤ c') ∧
        next_block w' ≤ S (next_block w)
    | Undefined => False
    end in
  let doubled {A} (r : result T A) :=
    match r with
    | Ok _ w' => capacity_at w' a = Some (1 `max` (2 * capacity_ (data_ v)))
    | _ => True
    end in
  (∀ k, fits_size_t (T := T) k → no_less (Vector.Reserve a k w)) ∧
  (∀ k, fits_size_t (T := T) k → no_less (Vector.Resize a k w)) ∧
  (∀ x, no_less (Vector.PushBack a x w)) ∧
  (∀ x, no_less (Vector.PushBack_move a x w)) ∧
  (∀ how x, no_less (Vector.EmplaceBack a how x w)) ∧
  (∀ pre suf how x, xs = pre ++ suf →
     length xs = capacity_ (data_ v) ∨ suf ≠ [] → fits_int (length pre) →
     no_less (Vector.Emplace a (length pre) how x w)) ∧
  (∀ pre y suf, xs = pre ++ y :: suf → fits_int (length pre) →
     no_less (Vector.Erase a (length pre) w)) ∧
  (xs = [] → no_less (Vector.PopBack a w)) ∧
  (∀ b vb ys, a ≠ b → objs w !! b = Some vb → repr (heap w) vb ys →
     (∀ p : addr, buffer_ (data_ v) = Some p → buffer_ (data_ vb) ≠ Some p) →
     no_less (Vector.copy_assignment a b w)) ∧
  (length xs = capacity_ (data_ v) →
     (∀ x, doubled (Vector.PushBack a x w)) ∧
     (∀ x, doubled (Vector.PushBack_move a x w)) ∧
     (∀ how x, doubled (Vector.EmplaceBack a how x w)) ∧
     (∀ pre suf how x, xs = pre ++ suf → fits_int (length pre) →
        doubled (Vector.Emplace a (length pre) how x w))).
Proof.
  destruct w as [o h n fs l]; simpl. intros Ha Hr Hn.
  pose proof Hr as (Hsz & Hcap & Hb).
  pose proof (grown_gt (size_ v)) as Hg.
  set (CAP := λ (w' : World T),
         ∃ c', capacity_at w' a = Some c' ∧ capacity_ (data_ v) ≤ c').
  assert (∀ v' h' n' fs' l', capacity_ (data_ v) ≤ capacity_ (data_ v') →
            CAP (mkWorld (<[a := v']> o) h' n' fs' l')) as HQ.
  { intros. eexists. by rewrite capacity_at_insert. }
  assert (∀ h' n' fs' l', CAP (mkWorld o h' n' fs' l')) as HE.
  { intros. eexists. by rewrite (capacity_at_same _ _ _ _ _ _ v). }
  assert (∀ {A} (m : M T A), allocates_once m →
            wp m (mkWorld o h n fs l) (λ _, CAP) CAP →
            match m (mkWorld o h n fs l) with
            | Ok _ w' => CAP w' ∧ next_block w' ≤ S n
            | Throw w' => CAP w' ∧ next_block w' ≤ S n
            | Undefined => False
            end) as Hrun.
  { intros A m Honce Hwp. specialize (Honce (mkWorld o h n fs l)).
    unfold wp in Hwp. by destruct (m _). }
  split_and!.
  - intros k _. apply Hrun; [apply once_Reserve|].
    eapply wp_Reserve; [done..| | |].
    + intros _. apply HE.
    + intros Hk fs'. apply HQ; simpl; lia.
    + intros; apply HE.
  - intros k _. apply Hrun; [apply once_Resize|].
    eapply wp_Resize; [done..| | | | |].
    + intros _. apply HQ; simpl; lia.
    + intros _ _ fs'. apply HQ; simpl; lia.
    + intros Hk fs'. apply HQ; simpl; lia.
    + intros; apply HE.
    + intros Hk fs' l'. apply HQ; simpl; lia.
  - intros x. apply Hrun; [apply once_PushBack|]. rewrite PushBack_push_with.
    eapply wp_push_with; [done..| | |].
    + intros _ fs'. apply HQ; simpl; lia.
    + intros Hfull fs'. apply HQ; simpl; lia.
    + intros; apply HE.
  - intros x. apply Hrun; [apply once_PushBack_move|]. rewrite PushBack_move_push_with.
    eapply wp_push_with; [done..| | |].
    + intros _ fs'. apply HQ; simpl; lia.
    + intros Hfull fs'. apply HQ; simpl; lia.
    + intros; apply HE.
  - intros how x. apply Hrun; [apply once_EmplaceBack|].
    eapply wp_EmplaceBack; [done..| | |].
    + intros _ fs'. apply HQ; simpl; lia.
    + intros Hfull fs'. apply HQ; simpl; lia.
    + intros; apply HE.
  - intros pre suf how x -> Hpos _. apply Hrun; [apply once_Emplace|].
    eapply wp_Emplace; [done..| | | |].
    + intros _ fs'. apply HQ; simpl; lia.
    + intros Hfull fs'. apply HQ; simpl; lia.
    + intros; apply HE.
    + intros; apply HE.
  - intros pre y suf -> _. apply Hrun; [apply once_of_keeps, keeps_Erase|].
    eapply wp_Erase; [done..| |].
    + intros fs'. apply HQ; simpl; lia.
    + intros; apply HE.
  - intros ->. apply Hrun; [apply once_of_keeps, keeps_PopBack|].
    eapply PopBack_empty; [done..|]. apply HE.
  - intros b vb ys Hne Hbo Hrb Hown. apply Hrun; [apply once_copy_assignment|].
    eapply wp_copy_assignment; [done..| | | |].
    + intros Hbig fs'. apply HQ; simpl; lia.
    + intros _ fs'. apply HQ; simpl; lia.
    + intros; apply HE.
    + intros; apply HE.
  - intros Hfull.
    assert (∀ {A} (m : M T A),
              wp m (mkWorld o h n fs l)
                 (λ _ w', capacity_at w' a = Some (1 `max` (2 * capacity_ (data_ v))))
                 (λ _, True) →
              match m (mkWorld o h n fs l) with
              | Ok _ w' => capacity_at w' a = Some (1 `max` (2 * capacity_ (data_ v)))
              | _ => True end) as Hrun2.
    { intros A m Hwp. unfold wp in Hwp. by destruct (m _). }
    assert (grown (size_ v) = 1 `max` (2 * capacity_ (data_ v))) as Hgr.
    { rewrite grown_max. f_equal. lia. }
    split_and!.
    + intros x. apply Hrun2. rewrite PushBack_push_with.
      eapply wp_push_with; [done..| | |]; [intros; lia| |done].
      intros _ fs'. by rewrite capacity_at_insert, <-Hgr.
    + intros x. apply Hrun2. rewrite PushBack_move_push_with.
      eapply wp_push_with; [done..| | |]; [intros; lia| |done].
      intros _ fs'. by rewrite capacity_at_insert, <-Hgr.
    + intros how x. apply Hrun2.
      eapply wp_EmplaceBack; [done..| | |]; [intros; lia| |done].
      intros _ fs'. by rewrite capacity_at_insert, <-Hgr.
    + intros pre suf how x -> _. apply Hrun2.
      eapply wp_Emplace; [done..|by left| | | |]; [intros; lia| |done|intros; lia].
      intros _ fs'. by rewrite capacity_at_insert, <-Hgr.
Qed.

(** C6.  In every growth path the old elements are transferred by the
    constructor that the traits of the element type select, and by no
    other: the move constructor if [is_nothrow_move_constructible] holds
    or [is_copy_constructible] does not, else the copy constructor; one
    call per element.  The test reads nothing but the two traits.  The
    log of an operation that grows and returns is: the allocation, the
    construction of the new element where there is one, the transfers,
    the destruction of the old elements, the release of the old block.
    After [Reallocate] by copy the old block is untouched; after
    [Reallocate] by move it holds the moved-from elements.  The request
    given to [Reserve] is one whose byte size [size_t] holds, and the
    position given to [Emplace] one that [int] holds. *)
Theorem transfer_dispatch (w : World T) (a : addr) (v : Vector) (xs : list T) :
  objs w !! a = Some v → repr (heap w) v xs → heap w !! next_block w = None →
  let moves := is_nothrow_move_constructible || negb is_copy_constructible in
  let transfers := replicate (length xs) (if moves then MoveCtor else CopyCtor) in
  let rest := transfers ++ replicate (length xs) Dtor ++ release_log (buffer_ (data_ v)) in
  let logged {A} (r : result T A) (evs : list event) :=
    match r with
    | Ok _ w' => log w' = log w ++ evs
    | Throw _ => True
    | Undefined => False
    end in
  (∀ nb k nblk, buffer_ (data_ v) ≠ Some nb → heap w !! nb = Some nblk →
     take (length xs) nblk = replicate (length xs) None →
     match Vector.Reallocate a (mkRawMemory (Some nb) k) w with
     | Ok _ w' =>
         log w' = log w ++ transfers ∧
         heap w' !! nb = Some (list_inserts 0 (Some <$> xs) nblk) ∧
         ∀ b, buffer_ (data_ v) = Some b →
              heap w' !! b = Some (block_of (if moves then moved_from <$> xs else xs)
                                            (capacity_ (data_ v)))
     | Throw _ => True
     | Undefined => False
     end) ∧
  (∀ k, capacity_ (data_ v) < k → fits_size_t (T := T) k →
     logged (Vector.Reserve a k w) ([Alloc] ++ rest)) ∧
  (length xs = capacity_ (data_ v) →
     (∀ x, logged (Vector.PushBack a x w) ([Alloc; CopyCtor] ++ rest)) ∧
     (∀ x, logged (Vector.PushBack_move a x w) ([Alloc; MoveCtor] ++ rest)) ∧
     (∀ how x, logged (Vector.EmplaceBack a how x w) ([Alloc; event_of how] ++ rest)) ∧
     (∀ pos how x, pos ≤ length xs → fits_int pos →
        logged (Vector.Emplace a pos how x w) ([Alloc; event_of how] ++ rest))).
Proof.
  destruct w as [o h n fs l]; simpl. intros Ha Hr Hn.
  pose proof Hr as (Hsz & Hcap & Hb).
  fold by_move. change (if by_move then MoveCtor else CopyCtor) with transfer_event.
  split_and!.
  - intros nb k nblk Hne Hnb Hraw. apply wp_run.
    eapply wp_Reallocate; [done..|by rewrite drop_0| |done].
    intros fs'. simpl. split_and!.
    + done.
    + by rewrite lookup_insert_eq.
    + intros b Hbuf. rewrite Hbuf. simpl.
      rewrite lookup_insert_ne by congruence. by rewrite lookup_insert_eq.
  - intros k Hk _. apply wp_run. eapply wp_Reserve; [done..| | |]; [intros; lia| |done].
    intros _ fs'. done.
  - intros Hfull. split_and!.
    + intros x. apply wp_run. rewrite PushBack_push_with.
      eapply wp_push_with; [done..| | |]; [intros; lia| |done].
      intros _ fs'. simpl. by rewrite <-?app_assoc.
    + intros x. apply wp_run. rewrite PushBack_move_push_with.
      eapply wp_push_with; [done..| | |]; [intros; lia| |done].
      intros _ fs'. simpl. by rewrite <-?app_assoc.
    + intros how x. apply wp_run.
      eapply wp_EmplaceBack; [done..| | |]; [intros; lia| |done].
      intros _ fs'. simpl. by rewrite <-?app_assoc.
    + intros pos how x Hpos _. apply wp_run.
      rewrite <-(take_drop pos xs) in Hr, Hfull.
      replace pos with (length (take pos xs)) at 1 by (rewrite length_take; lia).
      eapply wp_Emplace; [done..|by left| | | |]; [intros; lia| |done|intros; lia].
      intros _ fs'. simpl. rewrite take_drop. by rewrite <-?app_assoc.
Qed.

End CapacityAndDispatch.


(** ** Concrete runs *)

(** An element type that can be copied and whose move constructor may
    throw: the case in which the transfer falls back to copies. *)
Definition copy_fallback : Element nat :=
  {| value_init := 0; moved_from := λ _, 0;
     is_nothrow_move_constructible := false; is_copy_constructible := true;
     sizeof_T := 4 |}.

(** A full vector at address 0 holding [1; 2]; the third fallible step
    throws: after the allocation and the transfer of the first element,
    the transfer of the second fails. *)
Definition full_vector : World nat :=
  mkWorld {[0 := mkVector (mkRawMemory (Some 0) 2) 2]} {[0 := [Some 1; Some 2]]} 1
          [false; false; true] [].

(** C4, counterexample.  For a move-only type whose move constructor may
    throw, [Reserve] transfers by move; when the second move throws, the
    first element of the vector has already been moved from, and the
    exception leaves the vector holding [0; 2] instead of [1; 2]. *)
Lemma strong_guarantee_needs_safe_transfer :
  ∃ w', @Vector.Reserve nat fragile 0 4 full_vector = Throw w' ∧
        objs w' = objs full_vector ∧
        heap full_vector !! 0 = Some [Some 1; Some 2] ∧
        heap w' !! 0 = Some [Some 0; Some 2].
Proof. eexists. split; [vm_compute; reflexivity|]. split_and!; reflexivity. Qed.

Lemma growth_strong_guarantee_witness :
  ∃ w', @Vector.Reserve nat copy_fallback 0 4 full_vector = Throw w' ∧
        objs w' = objs full_vector ∧ heap w' = heap full_vector.
Proof.
  destruct (@growth_strong_guarantee nat copy_fallback full_vector 0
              (mkVector (mkRawMemory (Some 0) 2) 2) [1; 2]) as [HReserve _].
  - right. reflexivity.
  - reflexivity.
  - split; [reflexivity|split; [simpl; lia|reflexivity]].
  - reflexivity.
  - specialize (HReserve 4 ltac:(reflexivity)).
    destruct (@Vector.Reserve nat copy_fallback 0 4 full_vector) as [? w'|w'|] eqn:Hrun.
    + vm_compute in Hrun. discriminate.
    + exists w'. split; [reflexivity|exact HReserve].
    + destruct HReserve.
Defined.

(** C5, counterexample.  [Swap] exchanges the blocks: the vector at
    address 1 goes from capacity 2 to capacity 1.  Move assignment leaves
    its right-hand side with capacity 0. *)
Lemma capacity_can_decrease :
  (∃ w', Vector.Swap 1 0 two_vectors = Ok tt w' ∧
         capacity_at two_vectors 1 = Some 2 ∧ capacity_at w' 1 = Some 1) ∧
  (∃ w', Vector.move_assignment 0 1 two_vectors = Ok tt w' ∧
         capacity_at two_vectors 1 = Some 2 ∧ capacity_at w' 1 = Some 0).
Proof. split; (eexists; split; [vm_compute; reflexivity|]; split; reflexivity). Qed.

Lemma capacity_never_shrinks_witness :
  match @Vector.PushBack nat int_like 0 3 full_vector with
  | Ok _ w' => capacity_at w' 0 = Some 4
  | _ => True
  end.
Proof.
  destruct (@capacity_never_shrinks nat int_like full_vector 0
              (mkVector (mkRawMemory (Some 0) 2) 2) [1; 2])
    as (_ & _ & _ & _ & _ & _ & _ & _ & _ & Hdouble).
  - reflexivity.
  - split; [reflexivity|split; [simpl; lia|reflexivity]].
  - reflexivity.
  - destruct (Hdouble eq_refl) as [HPush _]. exact (HPush 3).
Defined.

(** The same vector with no fault scheduled. *)
Definition calm_vector : World nat :=
  mkWorld {[0 := mkVector (mkRawMemory (Some 0) 2) 2]} {[0 := [Some 1; Some 2]]} 1 [] [].

Lemma transfer_dispatch_witness :
  match @Vector.Reserve nat copy_fallback 0 4 calm_vector with
  | Ok _ w' => log w' = [Alloc; CopyCtor; CopyCtor; Dtor; Dtor; Dealloc]
  | _ => False
  end ∧
  match @Vector.Reserve nat int_like 0 4 calm_vector with
  | Ok _ w' => log w' = [Alloc; MoveCtor; MoveCtor; Dtor; Dtor; Dealloc]
  | _ => False
  end.
Proof.
  split.
  - destruct (@transfer_dispatch nat copy_fallback calm_vector 0
                (mkVector (mkRawMemory (Some 0) 2) 2) [1; 2]) as (_ & HReserve & _).
    + reflexivity.
    + split; [reflexivity|split; [simpl; lia|reflexivity]].
    + reflexivity.
    + specialize (HReserve 4 ltac:(simpl; lia) ltac:(reflexivity)).
      destruct (@Vector.Reserve nat copy_fallback 0 4 calm_vector) eqn:Hrun.
      * exact HReserve.
      * vm_compute in Hrun. discriminate.
      * destruct HReserve.
  - destruct (@transfer_dispatch nat int_like calm_vector 0
                (mkVector (mkRawMemory (Some 0) 2) 2) [1; 2]) as (_ & HReserve & _).
    + reflexivity.
    + split; [reflexivity|split; [simpl; lia|reflexivity]].
    + reflexivity.
    + specialize (HReserve 4 ltac:(simpl; lia) ltac:(reflexivity)).
      destruct (@Vector.Reserve nat int_like 0 4 calm_vector) eqn:Hrun.
      * exact HReserve.
      * vm_compute in Hrun. discriminate.
      * destruct HReserve.
Defined.

(** A vector of two elements and capacity 2 at address 0, and a vector of
    three elements at address 1. *)
Definition small_and_large : World nat :=
  mkWorld {[0 := mkVector (mkRawMemory (Some 0) 2) 2;
            1 := mkVector (mkRawMemory (Some 1) 3) 3]}
          {[0 := [Some 1; Some 2]; 1 := [Some 7; Some 8; Some 9]]} 2 [] [].

Lemma copy_assignment_spec_witness :
  match Vector.copy_assignment 0 1 small_and_large with
  | Ok _ w' => holds w' 0 [7; 8; 9] ∧ capacity_at w' 0 = Some 3
  | _ => False
  end.
Proof.
  pose proof (copy_assignment_spec small_and_large 0 1
                (mkVector (mkRawMemory (Some 0) 2) 2) (mkVector (mkRawMemory (Some 1) 3) 3)
                [1; 2] [7; 8; 9]) as Hspec.
  destruct (Vector.copy_assignment 0 1 small_and_large) as [? w'|w'|] eqn:Hrun.
  - destruct Hspec as (Hholds & _ & _ & _ & Hcap & _).
    + lia.
    + reflexivity.
    + reflexivity.
    + split; [reflexivity|split; [simpl; lia|reflexivity]].
    + split; [reflexivity|split; [simpl; lia|reflexivity]].
    + intros p Hp. simpl in *. congruence.
    + reflexivity.
    + split; assumption.
  - vm_compute in Hrun. discriminate.
  - vm_compute in Hrun. discriminate.
Defined.

(** C9.  The scenario of the specification: push 1, 2, 3, insert 9 at
    position 1, erase position 0.  The vector then satisfies the invariant
    and holds [9; 2; 3]; the next public operation, [PopBack], has
    undefined behaviour instead of leaving [9; 2]: it destroys slot 3,
    which holds no object, and never ends the lifetime of the element in
    slot 2. *)
Theorem PopBack_breaks_scenario :
  ∃ p w, (Vector.default_ctor 0;; Vector.PushBack 0 1;; Vector.PushBack 0 2;;
          Vector.PushBack 0 3;; Vector.Insert 0 1 9;; Vector.Erase 0 0) (start [])
         = Ok p w ∧
         holds w 0 [9; 2; 3] ∧ capacity_at w 0 = Some 4 ∧
         heap w !! 2 = Some [Some 9; Some 2; Some 3; None] ∧
         Vector.PopBack 0 w = Undefined.
Proof.
  eexists _, _. split; [vm_compute; reflexivity|].
  split_and!; try reflexivity.
  eexists. split; [reflexivity|].
  split; [reflexivity|split; [simpl; lia|reflexivity]].
Qed.

(** * The invariant along normal executions *)

Section Invariant.
Context {T : Type} `{!Element T}.
Implicit Types (w : World T) (v : Vector) (xs ys : list T).
Implicit Types (o : gmap addr Vector) (h : gmap addr (list (option T))).
Implicit Types (n : addr) (fs : list bool) (l : list event).

(** A well-formed world: every vector satisfies the invariant of the
    class, no block has two owners, and the allocator has not handed out
    the blocks from [next_block] on. *)
Definition wf (w : World T) : Prop :=
  (∀ a v, objs w !! a = Some v → ∃ xs, repr (heap w) v xs) ∧
  (∀ a1 a2 v1 v2 p, objs w !! a1 = Some v1 → objs w !! a2 = Some v2 →
     buffer_ (data_ v1) = Some p → buffer_ (data_ v2) = Some p → a1 = a2) ∧
  (∀ p, is_Some (heap w !! p) → p < next_block w).

Lemma wf_fresh w : wf w → heap w !! next_block w = None.
Proof.
  intros (_ & _ & Hdom). destruct (heap w !! next_block w) eqn:Hn; [|done].
  assert (next_block w < next_block w) by (apply Hdom; by eexists). lia.
Qed.

Lemma repr_block_exists h v xs p :
  repr h v xs → buffer_ (data_ v) = Some p → is_Some (h !! p).
Proof. intros (_ & _ & Hb) Hp. rewrite Hp in Hb. by eexists. Qed.

(** The general step: the vector at [a] gets the members [v'], which
    describe a vector in the new heap; the blocks of the other vectors are
    untouched and are not the block of [v']. *)
Lemma wf_step o h n fs l a v' xs' h' n' fs' l' :
  wf (mkWorld o h n fs l) →
  repr h' v' xs' →
  (∀ a2 v2 p, a2 ≠ a → o !! a2 = Some v2 → buffer_ (data_ v2) = Some p →
     h' !! p = h !! p ∧ buffer_ (data_ v') ≠ Some p) →
  (∀ p, is_Some (h' !! p) → p < n') →
  wf (mkWorld (<[a := v']> o) h' n' fs' l').
Proof.
  intros (Hinv & Hown & Hdom) Hr Hothers Hdom'. simpl in *. split_and!; simpl.
  - intros a2 v2. destruct (decide (a2 = a)) as [->|Hne].
    + rewrite lookup_insert_eq. intros [= <-]. by eexists.
    + rewrite lookup_insert_ne by done. intros Ha2.
      destruct (Hinv _ _ Ha2) as [xs2 Hr2]. exists xs2.
      eapply repr_frame; [done|]. intros p Hp.
      by destruct (Hothers a2 v2 p).
  - intros a1 a2 v1 v2 p.
    destruct (decide (a1 = a)) as [->|Hne1], (decide (a2 = a)) as [->|Hne2];
      rewrite ?lookup_insert_eq, ?lookup_insert_ne by done; try done.
    + intros [= <-] Ha2 Hp1 Hp2. destruct (Hothers a2 v2 p) as [_ ?]; done.
    + intros Ha1 [= <-] Hp1 Hp2. destruct (Hothers a1 v1 p) as [_ ?]; done.
    + apply Hown.
  - done.
Qed.

(** Its instances for the three ways an operation changes the heap. *)
Lemma wf_set_block o h n fs l a v v' xs' blk' fs' l' :
  wf (mkWorld o h n fs l) → o !! a = Some v → data_ v' = data_ v →
  repr (set_block (buffer_ (data_ v)) blk' h) v' xs' →
  wf (mkWorld (<[a := v']> o) (set_block (buffer_ (data_ v)) blk' h) n fs' l').
Proof.
  intros Hwf Ha Hdata Hr. pose proof Hwf as (Hinv & Hown & Hdom). simpl in *.
  eapply wf_step; [done..| |].
  - intros a2 v2 p Hne Ha2 Hp. rewrite Hdata. split.
    + destruct (buffer_ (data_ v)) as [b|] eqn:Hb; simpl; [|done].
      rewrite lookup_insert_ne; [done|]. intros ->.
      by pose proof (Hown _ _ _ _ _ Ha2 Ha Hp Hb).
    + intros Hb. by pose proof (Hown _ _ _ _ _ Ha2 Ha Hp Hb).
  - intros p. destruct (buffer_ (data_ v)) as [b|] eqn:Hb; simpl; [|apply Hdom].
    rewrite lookup_insert_is_Some'. intros [<-|?]; [|by apply Hdom].
    destruct (Hinv _ _ Ha) as [xs Hrv]. apply Hdom.
    by eapply repr_block_exists.
Qed.

Lemma wf_new_block o h n fs l a (old : option addr) v' xs' blk fs' l' :
  wf (mkWorld o h n fs l) →
  (∀ a2 v2, a2 ≠ a → o !! a2 = Some v2 → buffer_ (data_ v2) ≠ old ∨ old = None) →
  buffer_ (data_ v') = Some n →
  repr (<[n := blk]> (release old h)) v' xs' →
  wf (mkWorld (<[a := v']> o) (<[n := blk]> (release old h)) (S n) fs' l').
Proof.
  intros Hwf Hold Hbuf Hr. pose proof Hwf as (Hinv & Hown & Hdom). simpl in *.
  eapply wf_step; [done..| |].
  - intros a2 v2 p Hne Ha2 Hp.
    destruct (Hinv _ _ Ha2) as [xs2 Hr2].
    assert (p < n) by (apply Hdom; by eapply repr_block_exists).
    split; [|rewrite Hbuf; intros [= ->]; lia].
    rewrite lookup_insert_ne by lia.
    destruct old as [q|]; simpl; [|done].
    rewrite lookup_delete_ne; [done|]. intros ->.
    destruct (Hold a2 v2 Hne Ha2) as [?|?]; congruence.
  - intros p. rewrite lookup_insert_is_Some'. intros [<-|Hp]; [lia|].
    assert (p < n); [|lia]. apply Hdom.
    destruct old as [q|]; simpl in *; [|done].
    apply lookup_delete_is_Some in Hp as [_ ?]. done.
Qed.

Lemma wf_others_not_owner o h n fs l a v :
  wf (mkWorld o h n fs l) → o !! a = Some v →
  ∀ a2 v2, a2 ≠ a → o !! a2 = Some v2 →
    buffer_ (data_ v2) ≠ buffer_ (data_ v) ∨ buffer_ (data_ v) = None.
Proof.
  intros (_ & Hown & _) Ha a2 v2 Hne Ha2. simpl in *.
  destruct (buffer_ (data_ v)) as [b|] eqn:Hb; [|by right]. left.
  intros Hb2. by pose proof (Hown _ _ _ _ _ Ha2 Ha Hb2 Hb).
Qed.

End Invariant.

(** ** Calls that cannot return *)

Section NeverReturns.
Context {T : Type} `{!Element T}.
Implicit Types (w : World T) (v : Vector).

(** [never_ok m w]: run from [w], [m] does not return normally. *)
Definition never_ok {A} (m : M T A) (w : World T) : Prop :=
  match m w with Ok _ _ => False | _ => True end.

Lemma never_ok_undefined {A} w : never_ok (undefined : M T A) w.
Proof. done. Qed.

Lemma never_ok_bind {A B} (m : M T A) (k : A → M T B) w :
  (∀ a w', m w = Ok a w' → never_ok (k a) w') → never_ok (bind m k) w.
Proof. unfold never_ok, bind. intros Hk. destruct (m w) eqn:Hm; [by apply Hk|done..]. Qed.

Lemma never_ok_bind_l {A B} (m : M T A) (k : A → M T B) w :
  never_ok m w → never_ok (bind m k) w.
Proof. unfold never_ok, bind. by destruct (m w). Qed.

Lemma never_ok_on_throw {A} (m : M T A) c w :
  never_ok m w → never_ok (on_throw m c) w.
Proof.
  unfold never_ok, on_throw. destruct (m w) as [| w' |]; [done| |done].
  intros _. by destruct (c w').
Qed.

Lemma get_ok a w v w' : Vector.get a w = Ok v w' → objs w !! a = Some v ∧ w' = w.
Proof. unfold Vector.get. destruct (objs w !! a); [|done]. by intros [= -> ->]. Qed.

Lemma plus_ok (d : RawMemory) k w (p : ptr) w' :
  RawMemory.plus (T := T) d k w = Ok p w' → p = (buffer_ d, k).
Proof. unfold RawMemory.plus. case_decide; [|done]. by intros [= <- _]. Qed.

Lemma perform_objs e w (u : unit) w' : perform (T := T) e w = Ok u w' → objs w' = objs w.
Proof.
  unfold perform, bind, tick, emit, ret.
  destruct (may_throw e); [|by intros [= _ <-]].
  destruct (faults w) as [|[] fs]; [|done|]; by intros [= _ <-].
Qed.

(** [std::move_backward] on a range whose first iterator lies after its
    last has no defined behaviour. *)
Lemma move_backward_reversed (first last d_last : ptr) w :
  last.2 < first.2 → never_ok (move_backward first last d_last) w.
Proof.
  intros Hlt. unfold never_ok, move_backward.
  rewrite decide_False; [done|]. intros [_ ?]. lia.
Qed.

(** Without growth, [Emplace] at [end()] never returns: on an empty vector
    [data_[size_ - 1]] is out of the block, and otherwise the range given
    to [std::move_backward] is reversed.  The only defined outcome is an
    exception thrown by the construction of [new_elem]. *)
Lemma Emplace_end_spare a v how (x : T) w :
  objs w !! a = Some v → size_ v < capacity_ (data_ v) →
  never_ok (Vector.Emplace a (size_ v) how x) w.
Proof.
  intros Ha Hlt. unfold Vector.Emplace.
  apply never_ok_bind. intros v' w1 [Hv' ->]%get_ok.
  assert (v' = v) as -> by congruence.
  apply never_ok_bind_l. unfold RawMemory.Capacity.
  rewrite decide_False by lia.
  apply never_ok_bind. intros u w2 Hw2%perform_objs.
  apply never_ok_bind_l, never_ok_on_throw.
  apply never_ok_bind. intros e w3 He.
  unfold Vector.end_ in He. unfold bind in He.
  destruct (Vector.get a w2) as [v2 w2'| |] eqn:Hget; [|done..].
  apply get_ok in Hget as [Hv2 ->]. rewrite Hw2, Ha in Hv2. injection Hv2 as <-.
  apply plus_ok in He.
  destruct (size_ v) as [|k] eqn:Hsz.
  { apply never_ok_bind_l, never_ok_undefined. }
  apply never_ok_bind. intros last w4 _.
  apply never_ok_bind. intros _ w5 _.
  apply never_ok_bind. intros b w6 Hb.
  unfold Vector.begin_, bind in Hb.
  destruct (Vector.get a w5) as [v5 w5'| |]; [|done..].
  injection Hb as <- _.
  apply never_ok_bind. intros e1 w7 He1.
  destruct (e.2) as [|j] eqn:Hj; [done|]. injection He1 as <- _.
  apply never_ok_bind_l, move_backward_reversed.
  subst e. simpl in *. lia.
Qed.

End NeverReturns.

Section Reachable.
Context {T : Type} `{!Element T}.
Implicit Types (w : World T) (v : Vector) (xs ys : list T).
Implicit Types (o : gmap addr Vector) (h : gmap addr (list (option T))).
Implicit Types (n : addr) (fs : list bool) (l : list event).

Lemma repr_resized h v xs ys :
  repr h v xs → length ys ≤ capacity_ (data_ v) →
  repr (set_block (buffer_ (data_ v)) (block_of ys (capacity_ (data_ v))) h)
       (mkVector (data_ v) (length ys)) ys.
Proof.
  intros (Hsz & Hcap & Hb) Hlen. split; [done|]. split; [done|]. simpl.
  destruct (buffer_ (data_ v)); simpl; [by rewrite lookup_insert_eq|done].
Qed.

Lemma repr_resized_to h v xs ys s :
  repr h v xs → s = length ys → s ≤ capacity_ (data_ v) →
  repr (set_block (buffer_ (data_ v)) (block_of ys (capacity_ (data_ v))) h)
       (mkVector (data_ v) s) ys.
Proof. intros Hr -> Hle. by eapply repr_resized. Qed.

Lemma repr_fresh_block_to h n k s ys :
  s = length ys → s ≤ k →
  repr (<[n := block_of ys k]> h) (mkVector (mkRawMemory (Some n) k) s) ys.
Proof. intros -> Hle. by apply repr_fresh_block. Qed.

Lemma wf_take_over o h n fs l a b vb :
  wf (mkWorld o h n fs l) → a ≠ b → o !! b = Some vb →
  wf (mkWorld (<[b := mkVector (mkRawMemory None 0) 0]> (<[a := vb]> o)) h n fs l).
Proof.
  intros (Hinv & Hown & Hdom) Hne Hb. simpl in *. split_and!; simpl; [| |done].
  - intros c v. rewrite !lookup_insert. repeat case_decide; simplify_eq.
    + intros [= <-]. exists []. by repeat split.
    + intros [= <-]. by eapply Hinv.
    + apply Hinv.
  - intros a1 a2 v1 v2 p. rewrite !lookup_insert.
    repeat case_decide; simplify_eq; try done; intros; simplify_eq/=;
      try done; naive_solver.
Qed.

Lemma wf_swapped o h n fs l a b va vb :
  wf (mkWorld o h n fs l) → o !! a = Some va → o !! b = Some vb →
  wf (mkWorld (<[b := va]> (<[a := vb]> o)) h n fs l).
Proof.
  intros (Hinv & Hown & Hdom) Ha Hb. simpl in *. split_and!; simpl; [| |done].
  - intros c v. rewrite !lookup_insert. repeat case_decide; simplify_eq.
    + intros [= <-]. by eapply Hinv.
    + intros [= <-]. by eapply Hinv.
    + apply Hinv.
  - intros a1 a2 v1 v2 p. rewrite !lookup_insert.
    repeat case_decide; simplify_eq; try done; intros; simplify_eq/=;
      try done; naive_solver.
Qed.

Lemma wf_destroyed o h n fs l a v fs' l' :
  wf (mkWorld o h n fs l) → o !! a = Some v →
  wf (mkWorld (delete a o) (release (buffer_ (data_ v)) h) n fs' l').
Proof.
  intros (Hinv & Hown & Hdom) Ha. simpl in *. split_and!; simpl.
  - intros c v2. rewrite lookup_delete. case_decide; [done|]. intros Hc.
    destruct (Hinv _ _ Hc) as [xs Hr]. exists xs.
    eapply repr_frame; [done|]. intros p Hp.
    destruct (buffer_ (data_ v)) as [b|] eqn:Hb; simpl; [|done].
    rewrite lookup_delete_ne; [done|]. intros ->.
    by pose proof (Hown _ _ _ _ _ Ha Hc Hb Hp).
  - intros a1 a2 v1 v2 p. rewrite !lookup_delete.
    repeat case_decide; try done. apply Hown.
  - intros p Hp. apply Hdom.
    destruct (buffer_ (data_ v)) as [b|]; simpl in *; [|done].
    by apply lookup_delete_is_Some in Hp as [_ ?].
Qed.

Lemma wf_relabel o h n fs l fs' l' :
  wf (mkWorld o h n fs l) → wf (mkWorld o h n fs' l').
Proof. done. Qed.

Lemma wf_plain_object o h n fs l a :
  wf (mkWorld o h n fs l) → o !! a = None →
  wf (mkWorld (<[a := mkVector (mkRawMemory None 0) 0]> o) h n fs l).
Proof.
  intros Hwf Ha. pose proof Hwf as (Hinv & Hown & Hdom).
  eapply (wf_step _ _ _ _ _ _ _ []); [done| | |done].
  - by repeat split.
  - intros a2 v2 p ???. done.
Qed.

(** ** The public operations as commands *)

Inductive command :=
  | Construct (a : addr)
  | ConstructSized (a : addr) (k : nat)
  | ConstructCopy (a b : addr)
  | ConstructMove (a b : addr)
  | Destruct (a : addr)
  | Assign (a b : addr)
  | AssignMove (a b : addr)
  | DoReserve (a : addr) (k : nat)
  | DoResize (a : addr) (k : nat)
  | DoPushBack (a : addr) (x : T)
  | DoPushBackMove (a : addr) (x : T)
  | DoEmplaceBack (a : addr) (how : ctor_kind) (x : T)
  | DoEmplace (a : addr) (pos : nat) (how : ctor_kind) (x : T)
  | DoErase (a : addr) (pos : nat)
  | DoPopBack (a : addr)
  | DoSwap (a b : addr).

Definition run (c : command) : M T unit :=
  match c with
  | Construct a => Vector.default_ctor a
  | ConstructSized a k => Vector.size_ctor a k
  | ConstructCopy a b => Vector.copy_ctor a b
  | ConstructMove a b => Vector.move_ctor a b
  | Destruct a => Vector.dtor a
  | Assign a b => Vector.copy_assignment a b
  | AssignMove a b => Vector.move_assignment a b
  | DoReserve a k => Vector.Reserve a k
  | DoResize a k => Vector.Resize a k
  | DoPushBack a x => Vector.PushBack a x
  | DoPushBackMove a x => Vector.PushBack_move a x
  | DoEmplaceBack a how x => _ ← Vector.EmplaceBack a how x; ret tt
  | DoEmplace a pos how x => _ ← Vector.Emplace a pos how x; ret tt
  | DoErase a pos => _ ← Vector.Erase a pos; ret tt
  | DoPopBack a => Vector.PopBack a
  | DoSwap a b => Vector.Swap a b
  end.

(** What the caller owes: objects are constructed where there is none and
    used where there is one; [Erase] gets the position of an element and
    [Emplace] a position up to [end()]. *)
Definition in_contract (w : World T) (c : command) : Prop :=
  match c with
  | Construct a | ConstructSized a _ => objs w !! a = None
  | ConstructCopy a b | ConstructMove a b =>
      objs w !! a = None ∧ is_Some (objs w !! b)
  | Assign a b | AssignMove a b | DoSwap a b =>
      is_Some (objs w !! a) ∧ is_Some (objs w !! b)
  | Destruct a | DoReserve a _ | DoResize a _ | DoPushBack a _ | DoPushBackMove a _
  | DoEmplaceBack a _ _ | DoPopBack a => is_Some (objs w !! a)
  | DoEmplace a pos _ _ =>
      ∃ v, objs w !! a = Some v ∧ pos ≤ size_ v
  | DoErase a pos => ∃ v, objs w !! a = Some v ∧ pos < size_ v
  end.

Local Ltac len :=
  rewrite ?length_app, ?length_take, ?length_drop, ?length_replicate;
  simpl in *; lia.

(** The two calls in contract that the code does not handle: [PopBack]
    on a vector that is not empty, and [Emplace] at [end()] of a vector
    with spare capacity. *)
Definition unhandled (w : World T) (c : command) : Prop :=
  match c with
  | DoPopBack a => ∃ v, objs w !! a = Some v ∧ size_ v ≠ 0
  | DoEmplace a pos _ _ =>
      ∃ v, objs w !! a = Some v ∧ pos = size_ v ∧ size_ v < capacity_ (data_ v)
  | _ => False
  end.

(** Every command in contract has defined behaviour, except the two
    unhandled calls; and when the command returns, the world is well
    formed again. *)
Lemma run_preserves_wf (w : World T) (c : command) :
  wf w → in_contract w c →
  match run c w with
  | Ok _ w' => wf w'
  | Throw _ => True
  | Undefined => unhandled w c
  end.
Proof.
  intros Hwf Hc. pose proof (wf_fresh w Hwf) as Hn.
  destruct w as [o h n fs l]. pose proof Hwf as (Hinv & Hown & Hdom). simpl in *.
  assert (∀ (m : M T unit),
            wp m (mkWorld o h n fs l) (λ _ w', wf w') (λ _, True) →
            match m (mkWorld o h n fs l) with
            | Ok _ w' => wf w' | Throw _ => True
            | Undefined => unhandled (mkWorld o h n fs l) c
            end) as Hrun.
  { intros m Hwp. unfold wp in Hwp. by destruct (m _). }
  destruct c as [a|a k|a b|a b|a|a b|a b|a k|a k|a x|a x|a how x|a pos how x|a pos|a|a b];
    simpl in Hc |- *.
  - (* Construct *)
    apply Hrun. eapply wp_default_ctor; [done|]. cbv beta. by eapply wf_plain_object.
  - (* ConstructSized *)
    apply Hrun. eapply wp_size_ctor; [done..| | |done].
    + intros _. cbv beta. by eapply wf_plain_object.
    + intros Hk fs'. cbv beta.
      eapply (wf_new_block _ _ _ _ _ _ None _ (replicate k value_init));
        [done|by right|done|].
      pose proof (repr_fresh_block h n k (replicate k value_init)) as Hr.
      rewrite length_replicate in Hr. by apply Hr.
  - (* ConstructCopy *)
    destruct Hc as [Ha [vb Hb]]. destruct (Hinv _ _ Hb) as [ys Hrb].
    apply Hrun. eapply wp_copy_ctor; [done..| | |done].
    + intros _. cbv beta. by eapply wf_plain_object.
    + intros _ fs'. cbv beta.
      eapply (wf_new_block _ _ _ _ _ _ None _ ys); [done|by right|done|].
      by apply repr_fresh_block_to; len.
  - (* ConstructMove *)
    destruct Hc as [Ha [vb Hb]].
    apply Hrun. eapply wp_move_ctor; [done..|]. cbv beta.
    eapply wf_take_over; [done|congruence|done].
  - (* Destruct *)
    destruct Hc as [v Ha]. destruct (Hinv _ _ Ha) as [xs Hr].
    apply Hrun. eapply wp_dtor; [done..|]. cbv beta. by eapply wf_destroyed.
  - (* Assign *)
    destruct Hc as [[va Ha] [vb Hb]].
    destruct (decide (a = b)) as [->|Hne].
    { unfold Vector.copy_assignment. by rewrite decide_False by (by intros ?). }
    destruct (Hinv _ _ Ha) as [xs Hra]. destruct (Hinv _ _ Hb) as [ys Hrb].
    pose proof Hra as (Hsza & Hcapa & Hba).
    apply Hrun. eapply wp_copy_assignment; [done..| | | | |done|done].
    + intros p Hpa Hpb. by pose proof (Hown _ _ _ _ _ Ha Hb Hpa Hpb).
    + done.
    + intros Hbig fs'. cbv beta.
      eapply (wf_new_block _ _ _ _ _ _ _ _ ys);
        [done|by eapply wf_others_not_owner|done|apply repr_fresh_block_to; len].
    + intros Hfit fs'. cbv beta. eapply (wf_set_block _ _ _ _ _ _ _ _ ys); [done..|].
      eapply repr_resized_to; [done|len..].
  - (* AssignMove *)
    destruct Hc as [[va Ha] [vb Hb]].
    destruct (decide (a = b)) as [->|Hne].
    { unfold Vector.move_assignment. by rewrite decide_False by (by intros ?). }
    apply Hrun. eapply wp_move_assignment; [done..|]. cbv beta. by eapply wf_take_over.
  - (* Reserve *)
    destruct Hc as [v Ha]. destruct (Hinv _ _ Ha) as [xs Hr].
    pose proof Hr as (Hsz & Hcap & Hb).
    apply Hrun. eapply wp_Reserve; [done..| |done].
    intros Hk fs'.
    eapply (wf_new_block _ _ _ _ _ _ _ _ xs);
      [done|by eapply wf_others_not_owner|done|].
    apply repr_fresh_block_to; len.
  - (* Resize *)
    destruct Hc as [v Ha]. destruct (Hinv _ _ Ha) as [xs Hr].
    pose proof Hr as (Hsz & Hcap & Hb).
    apply Hrun. eapply wp_Resize; [done..| | | |done|done].
    + intros Hk. cbv beta. eapply (wf_set_block _ _ _ _ _ _ _ _ (take k xs)); [done..|].
      eapply repr_resized_to; [done|len..].
    + intros Hk Hk' fs'. cbv beta.
      eapply (wf_set_block _ _ _ _ _ _ _ _ (xs ++ replicate (k - length xs) value_init));
        [done..|].
      eapply repr_resized_to; [done|len..].
    + intros Hk fs'. cbv beta.
      eapply (wf_new_block _ _ _ _ _ _ _ _ (xs ++ replicate (k - length xs) value_init));
        [done|by eapply wf_others_not_owner|done|].
      apply repr_fresh_block_to; len.
  - (* PushBack *)
    destruct Hc as [v Ha]. destruct (Hinv _ _ Ha) as [xs Hr].
    pose proof Hr as (Hsz & Hcap & Hb). pose proof (grown_gt (size_ v)) as Hg.
    apply Hrun. rewrite PushBack_push_with. eapply wp_push_with; [done..| | |done].
    + intros Hlt fs'. cbv beta. eapply (wf_set_block _ _ _ _ _ _ _ _ (xs ++ [x])); [done..|].
      eapply repr_resized_to; [done|len..].
    + intros Hfull fs'. cbv beta.
      eapply (wf_new_block _ _ _ _ _ _ _ _ (xs ++ [x]));
        [done|by eapply wf_others_not_owner|done|].
      apply repr_fresh_block_to; len.
  - (* PushBack, rvalue *)
    destruct Hc as [v Ha]. destruct (Hinv _ _ Ha) as [xs Hr].
    pose proof Hr as (Hsz & Hcap & Hb). pose proof (grown_gt (size_ v)) as Hg.
    apply Hrun. rewrite PushBack_move_push_with. eapply wp_push_with; [done..| | |done].
    + intros Hlt fs'. cbv beta. eapply (wf_set_block _ _ _ _ _ _ _ _ (xs ++ [x])); [done..|].
      eapply repr_resized_to; [done|len..].
    + intros Hfull fs'. cbv beta.
      eapply (wf_new_block _ _ _ _ _ _ _ _ (xs ++ [x]));
        [done|by eapply wf_others_not_owner|done|].
      apply repr_fresh_block_to; len.
  - (* EmplaceBack *)
    destruct Hc as [v Ha]. destruct (Hinv _ _ Ha) as [xs Hr].
    pose proof Hr as (Hsz & Hcap & Hb). pose proof (grown_gt (size_ v)) as Hg.
    apply Hrun. apply wp_bind. eapply wp_EmplaceBack; [done..| | |done].
    + intros Hlt fs'. apply wp_ret. cbv beta.
      eapply (wf_set_block _ _ _ _ _ _ _ _ (xs ++ [x])); [done..|].
      eapply repr_resized_to; [done|len..].
    + intros Hfull fs'. apply wp_ret. cbv beta.
      eapply (wf_new_block _ _ _ _ _ _ _ _ (xs ++ [x]));
        [done|by eapply wf_others_not_owner|done|].
      apply repr_fresh_block_to; len.
  - (* Emplace *)
    destruct Hc as (v & Ha & Hpos). destruct (Hinv _ _ Ha) as [xs Hr].
    pose proof Hr as (Hsz & Hcap & Hb). pose proof (grown_gt (size_ v)) as Hg.
    destruct (decide (pos = size_ v ∧ size_ v < capacity_ (data_ v))) as [[-> Hlt]|Hin].
    { pose proof (Emplace_end_spare a v how x (mkWorld o h n fs l) Ha Hlt) as Hnever.
      unfold never_ok in Hnever. unfold bind.
      destruct (Vector.Emplace _ _ _ _ _); [done|done|]. by exists v. }
    assert (∃ pre suf, xs = pre ++ suf ∧ pos = length pre) as (pre & suf & -> & ->).
    { exists (take pos xs), (drop pos xs). rewrite take_drop. split; [done|len]. }
    rewrite length_app in Hsz, Hcap.
    apply Hrun. apply wp_bind. eapply wp_Emplace; [done..| | | |done|done].
    + rewrite length_app. destruct suf; [left; simpl in *; lia|by right].
    + rewrite length_app. intros Hlt fs'. apply wp_ret. cbv beta.
      eapply (wf_set_block _ _ _ _ _ _ _ _ (pre ++ [x] ++ suf)); [done..|].
      eapply repr_resized_to; [done|len..].
    + rewrite length_app. intros Hfull fs'. apply wp_ret. cbv beta.
      eapply (wf_new_block _ _ _ _ _ _ _ _ (pre ++ [x] ++ suf));
        [done|by eapply wf_others_not_owner|done|].
      apply repr_fresh_block_to; len.
  - (* Erase *)
    destruct Hc as (v & Ha & Hpos). destruct (Hinv _ _ Ha) as [xs Hr].
    pose proof Hr as (Hsz & Hcap & Hb).
    assert (∃ pre y suf, xs = pre ++ y :: suf ∧ pos = length pre)
      as (pre & y & suf & -> & ->).
    { destruct (drop pos xs) as [|y suf] eqn:Hdrop.
      { apply (f_equal length) in Hdrop. rewrite length_drop in Hdrop. simpl in Hdrop. lia. }
      exists (take pos xs), y, suf. rewrite <-Hdrop, take_drop. split; [done|len]. }
    rewrite length_app in Hsz, Hcap. simpl in Hsz, Hcap.
    apply Hrun. apply wp_bind. eapply wp_Erase; [done..| |done].
    intros fs'. apply wp_ret. cbv beta.
    eapply (wf_set_block _ _ _ _ _ _ _ _ (pre ++ suf)); [done..|].
    eapply repr_resized_to; [done|len..].
  - (* PopBack *)
    destruct Hc as [v Ha]. destruct (Hinv _ _ Ha) as [xs Hr].
    destruct xs as [|x0 xs'].
    + apply Hrun. eapply PopBack_empty; [done| |done]. by destruct Hr as [-> _].
    + rewrite (PopBack_nonempty a v (x0 :: xs')) by done.
      exists v. split; [done|]. destruct Hr as [-> _]. done.
  - (* Swap *)
    destruct Hc as [[va Ha] [vb Hb]].
    apply Hrun. eapply wp_Swap; [done..|]. cbv beta. by eapply wf_swapped.
Qed.

(** The worlds a program can reach by calling the public operations in
    contract, each call returning normally. *)
Inductive reachable : World T → Prop :=
  | reachable_start fs : reachable (start fs)
  | reachable_step w c w' :
      reachable w → in_contract w c → run c w = Ok tt w' → reachable w'.

Lemma wf_start fs : wf (start fs : World T).
Proof.
  split_and!; simpl.
  - intros a v Ha. by rewrite lookup_empty in Ha.
  - intros a1 a2 v1 v2 p Ha. by rewrite lookup_empty in Ha.
  - intros p [? Hp]. by rewrite lookup_empty in Hp.
Qed.

(** Reachable worlds are well formed. *)
Lemma reachable_wf (w : World T) : reachable w → wf w.
Proof.
  induction 1 as [fs|w c w' _ IH Hc Hrun]; [apply wf_start|].
  pose proof (run_preserves_wf w c IH Hc) as Hstep. by rewrite Hrun in Hstep.
Qed.

End Reachable.

(** * Further properties of the operations *)

(** Turns a goal on the three outcomes of a run into a [wp] goal. *)
Ltac as_wp :=
  lazymatch goal with
  | |- match ?m ?w with Ok a w' => @?Q a w' | Throw w'' => @?E w'' | Undefined => False end =>
      change (wp m w Q E); cbv beta
  end.

Section Construction.
Context {T : Type} `{!Element T}.
Implicit Types (w : World T) (v : Vector) (xs ys : list T).

Lemma holds_insert o h n fs l a v xs :
  repr h v xs → holds (mkWorld (<[a := v]> o) h n fs l) a xs.
Proof. intros Hr. exists v. split; [simpl; by rewrite lookup_insert_eq|done]. Qed.

(** X1. [Vector(size_t size)], for a size whose byte size [size_t]
    holds, builds [size] value-initialised elements in a block of exactly
    [size] slots, and allocates nothing for size 0.  When the allocation
    or a constructor throws, the block is released and no object exists:
    objects and heap are as before. *)
Theorem size_ctor_spec (w : World T) (a : addr) (k : nat) :
  objs w !! a = None → heap w !! next_block w = None → fits_size_t (T := T) k →
  match Vector.size_ctor a k w with
  | Ok _ w' =>
      holds w' a (replicate k value_init) ∧
      size_at w' a = Some k ∧ capacity_at w' a = Some k ∧
      (∀ b, b ≠ a → objs w' !! b = objs w !! b) ∧
      (∀ p, p ≠ next_block w → heap w' !! p = heap w !! p) ∧
      (k = 0 → heap w' = heap w ∧ log w' = log w) ∧
      (k ≠ 0 → log w' = log w ++ [Alloc] ++ replicate k DefaultCtor)
  | Throw w' => objs w' = objs w ∧ heap w' = heap w
  | Undefined => False
  end.
Proof.
  destruct w as [o h n fs l]. simpl. intros Ha Hn _. as_wp.
  eapply wp_size_ctor; [done..| | |done].
  - intros ->. split_and!; try done.
    + apply holds_insert. by repeat split.
    + unfold size_at; simpl. by rewrite lookup_insert_eq.
    + unfold capacity_at; simpl. by rewrite lookup_insert_eq.
    + intros b Hb; simpl. by rewrite lookup_insert_ne.
  - intros Hk fs'. split_and!; try done.
    + apply holds_insert.
      pose proof (repr_fresh_block h n k (replicate k value_init)) as Hr.
      rewrite length_replicate in Hr. by apply Hr.
    + unfold size_at; simpl. by rewrite lookup_insert_eq.
    + unfold capacity_at; simpl. by rewrite lookup_insert_eq.
    + intros b Hb; simpl. by rewrite lookup_insert_ne.
    + intros p Hp; simpl. by rewrite lookup_insert_ne.
Qed.

(** X2. The copy constructor gives the new vector the elements of the
    source in a block of exactly [size] slots (not the capacity of the
    source), by one copy construction per element, and leaves the source
    as it was.  When it throws, objects and heap are as before. *)
Theorem copy_ctor_spec (w : World T) (a b : addr) (vb : Vector) (ys : list T) :
  objs w !! a = None → objs w !! b = Some vb → repr (heap w) vb ys →
  heap w !! next_block w = None →
  match Vector.copy_ctor a b w with
  | Ok _ w' =>
      holds w' a ys ∧ capacity_at w' a = Some (length ys) ∧
      objs w' !! b = Some vb ∧ holds w' b ys ∧
      (∀ p, p ≠ next_block w → heap w' !! p = heap w !! p) ∧
      log w' = log w ++ (if decide (ys = []) then []
                         else [Alloc] ++ replicate (length ys) CopyCtor)
  | Throw w' => objs w' = objs w ∧ heap w' = heap w
  | Undefined => False
  end.
Proof.
  destruct w as [o h n fs l]. simpl. intros Ha Hb Hr Hn. as_wp.
  assert (a ≠ b) as Hab by congruence.
  assert (buffer_ (data_ vb) ≠ Some n) as Hfresh.
  { intros Hp. destruct Hr as (_ & _ & Hblk). rewrite Hp in Hblk. congruence. }
  eapply wp_copy_ctor; [done..| | |done].
  - intros ->. split_and!; try done.
    + apply holds_insert. by repeat split.
    + unfold capacity_at; simpl. by rewrite lookup_insert_eq.
    + simpl. by rewrite lookup_insert_ne.
    + exists vb. split; [simpl; by rewrite lookup_insert_ne|done].
    + simpl. by rewrite app_nil_r.
  - intros Hne fs'. split_and!; try done.
    + apply holds_insert. by apply repr_fresh_block.
    + unfold capacity_at; simpl. by rewrite lookup_insert_eq.
    + simpl. by rewrite lookup_insert_ne.
    + exists vb. split; [simpl; by rewrite lookup_insert_ne|]. simpl.
      eapply repr_frame; [done|]. intros p Hp. rewrite lookup_insert_ne; [done|congruence].
    + intros p Hp; simpl. by rewrite lookup_insert_ne.
    + simpl. by rewrite decide_False.
Qed.

(** X3. The destructor destroys every element, releases the block (a
    vector without block releases nothing) and ends the object.  It
    returns normally whatever the schedule of faults, which it does not
    consume. *)
Theorem dtor_spec (w : World T) (a : addr) (v : Vector) (xs : list T) :
  objs w !! a = Some v → repr (heap w) v xs →
  Vector.dtor a w =
  Ok tt (mkWorld (delete a (objs w)) (release (buffer_ (data_ v)) (heap w))
                 (next_block w) (faults w)
                 (log w ++ replicate (length xs) Dtor ++ release_log (buffer_ (data_ v)))).
Proof.
  destruct w as [o h n fs l]. simpl. intros Ha Hr.
  apply wp_equals. eapply wp_dtor; [done..|]. done.
Qed.

(** X4. A temporary copy leaks nothing: copy construction followed by
    destruction restores the objects and the heap exactly, and the log
    shows as many destructions as constructions and one release for the
    one allocation.  The same holds when the copy throws. *)
Theorem copy_then_destroy_restores (w : World T) (a b : addr) (vb : Vector) (ys : list T) :
  objs w !! a = None → objs w !! b = Some vb → repr (heap w) vb ys →
  heap w !! next_block w = None →
  match (Vector.copy_ctor a b;; Vector.dtor a) w with
  | Ok _ w' =>
      objs w' = objs w ∧ heap w' = heap w ∧
      log w' = log w ++ (if decide (ys = []) then []
                         else [Alloc] ++ replicate (length ys) CopyCtor
                              ++ replicate (length ys) Dtor ++ [Dealloc])
  | Throw w' => objs w' = objs w ∧ heap w' = heap w
  | Undefined => False
  end.
Proof.
  destruct w as [o h n fs l]. simpl. intros Ha Hb Hr Hn. as_wp.
  apply wp_bind. eapply wp_copy_ctor; [done..| | |done].
  - intros ->. eapply (wp_dtor _ _ []); [by rewrite lookup_insert_eq|by repeat split|].
    simpl. rewrite delete_insert_id by done. by rewrite app_nil_r.
  - intros Hne fs'.
    eapply (wp_dtor _ _ ys); [by rewrite lookup_insert_eq|by apply repr_fresh_block|].
    simpl. rewrite !delete_insert_id by done. split_and!; [done..|].
    rewrite decide_False by done. by rewrite <-!app_assoc.
Qed.

End Construction.

Section Access.
Context {T : Type} `{!Element T}.
Implicit Types (w : World T) (v : Vector) (xs ys : list T).

Lemma block_of_lookup_total xs cap i :
  length xs ≤ cap →
  block_of xs cap !! i =
  match xs !! i with
  | Some x => Some (Some x)
  | None => if decide (i < cap) then Some None else None
  end.
Proof.
  intros Hle. unfold block_of.
  destruct (xs !! i) as [x|] eqn:Hi.
  - rewrite lookup_app_l by (rewrite length_fmap; by eapply lookup_lt_Some).
    by rewrite list_lookup_fmap, Hi.
  - apply lookup_ge_None in Hi.
    rewrite lookup_app_r by (rewrite length_fmap; lia). rewrite length_fmap.
    case_decide.
    + apply lookup_replicate_2. lia.
    + apply lookup_ge_None. rewrite length_replicate. lia.
Qed.

(** Reading through a pointer into the block of a vector. *)
Lemma load_slot w v xs i :
  repr (heap w) v xs →
  load (buffer_ (data_ v), i) w =
  match xs !! i with Some x => Ok x w | None => Undefined end.
Proof.
  intros (Hsz & Hcap & Hblk). unfold load, bind, peek; simpl.
  destruct (buffer_ (data_ v)) as [b|].
  - rewrite Hblk, block_of_lookup_total by done.
    destruct (xs !! i); [done|]. by case_decide.
  - assert (xs = []) as -> by (destruct xs; [done|simpl in *; lia]). done.
Qed.

(** X5. [operator[]], in both overloads, yields the element at [index]
    when [index < size]; otherwise its assertion fails, also for an index
    within the capacity. *)
Theorem index_spec (w : World T) (a : addr) (v : Vector) (xs : list T) (i : nat) :
  objs w !! a = Some v → repr (heap w) v xs →
  (p ← Vector.index a i; load p) w =
    match xs !! i with Some x => Ok x w | None => Undefined end ∧
  (p ← Vector.index_const a i; load p) w =
    match xs !! i with Some x => Ok x w | None => Undefined end ∧
  (length xs ≤ i → Vector.index a i w = Undefined).
Proof.
  intros Ha Hr. pose proof Hr as (Hsz & Hcap & _).
  assert ((p ← Vector.index a i; load p) w =
          match xs !! i with Some x => Ok x w | None => Undefined end) as Hidx.
  { unfold Vector.index, Vector.get, RawMemory.index, bind. rewrite Ha. simpl.
    destruct (xs !! i) as [x|] eqn:Hi.
    - pose proof (lookup_lt_Some _ _ _ Hi) as Hlt.
      rewrite !decide_True by lia.
      change (load (buffer_ (data_ v), i) w = Ok x w).
      by rewrite (load_slot w v xs i Hr), Hi.
    - apply lookup_ge_None in Hi. by rewrite decide_False by lia. }
  split; [done|]. split; [done|].
  intros Hi. unfold Vector.index, Vector.get, bind. rewrite Ha.
  by rewrite decide_False by lia.
Qed.

(** X6. [begin()] and [end()], [cbegin()] and [cend()] and the const
    overloads all designate the same range; [end() - begin()] is
    [Size()]; [begin() + i] designates element [i] for [i < size], and
    reading through [end()] or beyond has no defined behaviour. *)
Theorem iterators_span_elements (w : World T) (a : addr) (v : Vector) (xs : list T) :
  objs w !! a = Some v → repr (heap w) v xs →
  Vector.begin_ a w = Ok (buffer_ (data_ v), 0) w ∧
  Vector.end_ a w = Ok (buffer_ (data_ v), length xs) w ∧
  Vector.cbegin a w = Vector.begin_ a w ∧ Vector.cend a w = Vector.end_ a w ∧
  Vector.begin_const a w = Vector.begin_ a w ∧ Vector.end_const a w = Vector.end_ a w ∧
  Vector.Size a w = Ok (length xs) w ∧
  Vector.Capacity a w = Ok (capacity_ (data_ v)) w ∧
  (∀ i, (b ← Vector.begin_ a; load (ptr_add b i)) w =
        match xs !! i with Some x => Ok x w | None => Undefined end).
Proof.
  intros Ha Hr. pose proof Hr as (Hsz & Hcap & _).
  assert (Vector.begin_ a w = Ok (buffer_ (data_ v), 0) w) as Hbegin.
  { unfold Vector.begin_, Vector.get, bind. by rewrite Ha. }
  split_and!; try done.
  - unfold Vector.end_, Vector.get, RawMemory.plus, bind. rewrite Ha.
    rewrite decide_True by lia. by rewrite Hsz.
  - unfold Vector.Size, Vector.get, bind. rewrite Ha. by rewrite Hsz.
  - unfold Vector.Capacity, Vector.get, bind. by rewrite Ha.
  - intros i. unfold bind at 1. rewrite Hbegin.
    change (load (buffer_ (data_ v), 0 + i) w =
            match xs !! i with Some x => Ok x w | None => Undefined end).
    by apply load_slot.
Qed.

(** X7. [Swap] exchanges the blocks, sizes and capacities of two vectors
    without constructing, assigning or destroying any element and without
    touching the heap; it cannot throw; swapping twice, or a vector with
    itself, restores the world. *)
Theorem Swap_exchanges (w : World T) (a b : addr) (va vb : Vector) (xs ys : list T) :
  objs w !! a = Some va → objs w !! b = Some vb →
  repr (heap w) va xs → repr (heap w) vb ys →
  ∃ w', Vector.Swap a b w = Ok tt w' ∧
        objs w' !! a = Some vb ∧ objs w' !! b = Some va ∧
        holds w' a ys ∧ holds w' b xs ∧
        (∀ c, c ≠ a → c ≠ b → objs w' !! c = objs w !! c) ∧
        heap w' = heap w ∧ log w' = log w ∧ faults w' = faults w ∧
        next_block w' = next_block w ∧
        Vector.Swap a b w' = Ok tt w ∧
        (a = b → w' = w).
Proof.
  destruct w as [o h n fs l]. simpl. intros Ha Hb Hra Hrb.
  assert (va = vb ∨ a ≠ b) as Hab.
  { destruct (decide (a = b)) as [->|]; [left; congruence|by right]. }
  assert ((<[b := va]> (<[a := vb]> o)) !! a = Some vb) as Ha'.
  { destruct Hab as [->|Hne].
    - destruct (decide (a = b)) as [->|]; [by rewrite lookup_insert_eq|].
      rewrite lookup_insert_ne by done. by rewrite lookup_insert_eq.
    - rewrite lookup_insert_ne by done. by rewrite lookup_insert_eq. }
  assert ((<[b := va]> (<[a := vb]> o)) !! b = Some va) as Hb'
    by (by rewrite lookup_insert_eq).
  assert (<[b := vb]> (<[a := va]> (<[b := va]> (<[a := vb]> o))) = o) as Hback.
  { apply map_eq. intros c. rewrite !lookup_insert.
    repeat case_decide; simplify_eq; done. }
  eexists. split; [apply wp_equals; eapply wp_Swap; [done..|]; done|].
  simpl. split_and!; try done.
  - by exists vb.
  - by exists va.
  - intros c Hca Hcb. by rewrite !lookup_insert_ne.
  - apply wp_equals. eapply wp_Swap; [done..|]. by rewrite Hback.
  - intros ->. f_equal. assert (va = vb) as -> by congruence.
    rewrite insert_insert_eq. by apply insert_id.
Qed.

End Access.

Section Modifiers.
Context {T : Type} `{!Element T}.
Implicit Types (w : World T) (v : Vector) (xs ys : list T).
Implicit Types (o : gmap addr Vector) (h : gmap addr (list (option T))).

Local Ltac len :=
  rewrite ?length_app, ?length_take, ?length_drop, ?length_replicate;
  simpl in *; lia.

Lemma size_at_insert o h n fs l a v :
  size_at (mkWorld (<[a := v]> o) h n fs l) a = Some (size_ v).
Proof. unfold size_at; simpl. by rewrite lookup_insert_eq. Qed.

Lemma holds_resized o h n fs l a v xs ys s :
  repr h v xs → s = length ys → s ≤ capacity_ (data_ v) →
  holds (mkWorld (<[a := mkVector (data_ v) s]> o)
                 (set_block (buffer_ (data_ v)) (block_of ys (capacity_ (data_ v))) h)
                 n fs l) a ys.
Proof. intros. apply holds_insert. by eapply repr_resized_to. Qed.

Lemma holds_fresh o h n fs l a k s ys :
  s = length ys → s ≤ k →
  holds (mkWorld (<[a := mkVector (mkRawMemory (Some n) k) s]> o)
                 (<[n := block_of ys k]> h) (S n) fs l) a ys.
Proof. intros. apply holds_insert. by apply repr_fresh_block_to. Qed.

(** X8. [Reserve], for a request whose byte size [size_t] holds, keeps
    the elements and the size and leaves the capacity at the larger of
    the old capacity and the request.  A request within
    the capacity changes nothing at all: no allocation, no fault consumed;
    a larger one allocates once, transfers each element once and destroys
    each old element once. *)
Theorem Reserve_keeps_elements (w : World T) (a : addr) (v : Vector) (xs : list T) (k : nat) :
  objs w !! a = Some v → repr (heap w) v xs → heap w !! next_block w = None →
  fits_size_t (T := T) k →
  match Vector.Reserve a k w with
  | Ok _ w' =>
      holds w' a xs ∧ size_at w' a = Some (length xs) ∧
      capacity_at w' a = Some (capacity_ (data_ v) `max` k) ∧
      (k ≤ capacity_ (data_ v) → w' = w) ∧
      (capacity_ (data_ v) < k →
         log w' = log w ++ [Alloc] ++ replicate (length xs) transfer_event
                        ++ replicate (length xs) Dtor
                        ++ release_log (buffer_ (data_ v)))
  | Throw w' => objs w' = objs w ∧ capacity_ (data_ v) < k
  | Undefined => False
  end.
Proof.
  destruct w as [o h n fs l]. simpl. intros Ha Hr Hn _. as_wp.
  pose proof Hr as (Hsz & Hcap & Hb).
  eapply wp_Reserve; [done..| | |].
  - intros Hk. split_and!; try done.
    + by exists v.
    + unfold size_at; simpl. by rewrite Ha, <-Hsz.
    + rewrite (capacity_at_same _ _ _ _ _ _ v) by done. f_equal. lia.
    + lia.
  - intros Hk fs'. split_and!; try done.
    + apply holds_insert. apply repr_fresh_block_to; [done|lia].
    + rewrite size_at_insert. simpl. by rewrite Hsz.
    + rewrite capacity_at_insert. simpl. f_equal. lia.
    + lia.
  - intros Hk fs' l' n' h' _. done.
Qed.

(** X9. [Resize] to a [k] whose byte size [size_t] holds keeps the
    first [k] elements, or appends
    value-initialised elements up to [k]; the capacity becomes the larger
    of the old capacity and [k] (no doubling).  Shrinking never throws.
    When growing throws and the element type is copyable or cannot throw
    on move construction, the vector still holds its elements. *)
Theorem Resize_spec (w : World T) (a : addr) (v : Vector) (xs : list T) (k : nat) :
  objs w !! a = Some v → repr (heap w) v xs → heap w !! next_block w = None →
  fits_size_t (T := T) k →
  match Vector.Resize a k w with
  | Ok _ w' =>
      holds w' a (take k xs ++ replicate (k - length xs) value_init) ∧
      size_at w' a = Some k ∧
      capacity_at w' a = Some (capacity_ (data_ v) `max` k)
  | Throw w' =>
      length xs < k ∧
      (is_nothrow_move_constructible = true ∨ is_copy_constructible = true →
       holds w' a xs)
  | Undefined => False
  end.
Proof.
  destruct w as [o h n fs l]. simpl. intros Ha Hr Hn _. as_wp.
  pose proof Hr as (Hsz & Hcap & Hb).
  eapply wp_Resize; [done..| | | | |].
  - intros Hk. cbv beta. replace (k - length xs) with 0 by lia. simpl. rewrite app_nil_r.
    split_and!.
    + apply holds_resized with xs; [done|len..].
    + by rewrite size_at_insert.
    + rewrite capacity_at_insert. simpl. f_equal. lia.
  - intros Hk Hk' fs'. cbv beta. rewrite take_ge by lia. split_and!.
    + apply holds_resized with xs; [done|len..].
    + by rewrite size_at_insert.
    + rewrite capacity_at_insert. simpl. f_equal. lia.
  - intros Hk fs'. cbv beta. rewrite take_ge by lia. split_and!.
    + apply holds_insert. apply repr_fresh_block_to; len.
    + by rewrite size_at_insert.
    + rewrite capacity_at_insert. simpl. f_equal. lia.
  - intros Hk fs' l' n' h' [Hsame _]. split; [done|].
    intros Hsafe. rewrite (Hsame Hsafe). by exists v.
  - intros Hk fs' l'. split; [lia|]. intros _.
    apply holds_insert. apply repr_fresh_block_to; [done|lia].
Qed.

(** X10. [PushBack], in both overloads, appends its argument and keeps
    the elements before it.  With spare capacity it performs exactly one
    construction, the copy or the move of the argument, allocates nothing
    and keeps the capacity. *)
Theorem PushBack_appends (w : World T) (a : addr) (v : Vector) (xs : list T) (x : T) :
  objs w !! a = Some v → repr (heap w) v xs → heap w !! next_block w = None →
  let appended (e : event) (r : result T unit) :=
    match r with
    | Ok _ w' =>
        holds w' a (xs ++ [x]) ∧ size_at w' a = Some (S (length xs)) ∧
        (length xs < capacity_ (data_ v) →
           log w' = log w ++ [e] ∧ next_block w' = next_block w ∧
           capacity_at w' a = Some (capacity_ (data_ v)))
    | Throw _ => True
    | Undefined => False
    end in
  appended CopyCtor (Vector.PushBack a x w) ∧
  appended MoveCtor (Vector.PushBack_move a x w).
Proof.
  destruct w as [o h n fs l]. simpl. intros Ha Hr Hn.
  pose proof Hr as (Hsz & Hcap & Hb). pose proof (grown_gt (size_ v)) as Hg.
  rewrite PushBack_push_with, PushBack_move_push_with.
  split; as_wp.
  all: eapply wp_push_with; [done..| | |done].
  all: intros Hk fs'; split_and!.
  all: try (by rewrite size_at_insert; simpl; rewrite Hsz).
  all: try (apply holds_resized with xs; [done|len..]).
  all: try (apply holds_insert; apply repr_fresh_block_to; len).
  all: try (intros _; split_and!; [done..|by rewrite capacity_at_insert]).
  all: lia.
Qed.

(** X11. [EmplaceBack] appends the element it constructs and returns a
    reference to it: reading through the result yields the new element,
    which is the last of the vector. *)
Theorem EmplaceBack_returns_last (w : World T) (a : addr) (v : Vector) (xs : list T)
    (how : ctor_kind) (x : T) :
  objs w !! a = Some v → repr (heap w) v xs → heap w !! next_block w = None →
  match Vector.EmplaceBack a how x w with
  | Ok p w' =>
      holds w' a (xs ++ [x]) ∧ load p w' = Ok x w' ∧ p.2 = length xs ∧
      Vector.index a (length xs) w' = Ok p w'
  | Throw _ => True
  | Undefined => False
  end.
Proof.
  destruct w as [o h n fs l]. simpl. intros Ha Hr Hn. as_wp.
  pose proof Hr as (Hsz & Hcap & Hb). pose proof (grown_gt (size_ v)) as Hg.
  assert ((xs ++ [x]) !! size_ v = Some x) as Hlast.
  { rewrite Hsz, lookup_app_r by done. by rewrite Nat.sub_diag. }
  eapply wp_EmplaceBack; [done..| | |done].
  - intros Hk fs'.
    assert (repr (set_block (buffer_ (data_ v))
                    (block_of (xs ++ [x]) (capacity_ (data_ v))) h)
                 (mkVector (data_ v) (S (size_ v))) (xs ++ [x])) as Hr'
      by (eapply repr_resized_to; [done|len..]).
    split_and!; [by apply holds_insert| |done|].
    + pose proof (load_slot (mkWorld (<[a := mkVector (data_ v) (S (size_ v))]> o) _ n fs'
                                     (l ++ [event_of how])) _ _ (size_ v) Hr') as Hl.
      simpl in Hl. by rewrite Hlast in Hl.
    + unfold Vector.index, Vector.get, RawMemory.index, bind; simpl.
      rewrite lookup_insert_eq. simpl. rewrite !decide_True by lia. by rewrite Hsz.
  - intros Hk fs'.
    assert (repr (<[n := block_of (xs ++ [x]) (grown (size_ v))]>
                    (release (buffer_ (data_ v)) h))
                 (mkVector (mkRawMemory (Some n) (grown (size_ v))) (S (size_ v)))
                 (xs ++ [x])) as Hr'
      by (apply repr_fresh_block_to; len).
    split_and!; [by apply holds_insert| |done|].
    + pose proof (load_slot (mkWorld (<[a := mkVector (mkRawMemory (Some n) (grown (size_ v)))
                                                     (S (size_ v))]> o) _ (S n) fs'
                                     (l ++ [Alloc] ++ ([event_of how] ++
                                        replicate (length xs) transfer_event)
                                        ++ replicate (length xs) Dtor
                                        ++ release_log (buffer_ (data_ v))))
                     _ _ (size_ v) Hr') as Hl.
      simpl in Hl. by rewrite Hlast in Hl.
    + unfold Vector.index, Vector.get, RawMemory.index, bind; simpl.
      rewrite lookup_insert_eq. simpl. rewrite !decide_True by lia. by rewrite Hsz.
Qed.

End Modifiers.

Section InsertErase.
Context {T : Type} `{!Element T}.
Implicit Types (w : World T) (v : Vector) (xs ys : list T).
Implicit Types (o : gmap addr Vector) (h : gmap addr (list (option T))).

Local Ltac len :=
  rewrite ?length_app, ?length_take, ?length_drop, ?length_replicate in *;
  simpl in *; lia.

Lemma shape_all_raw (blk : list (option T)) k :
  shape blk = replicate k false → blk = replicate k None.
Proof.
  revert k. induction blk as [|s blk IH]; intros [|k]; try done.
  unfold shape; simpl. intros [= Hs Hrest].
  destruct s; [done|]. f_equal. by apply IH.
Qed.

(** A block with the same objects alive as the block of a vector is the
    block of a vector of the same size. *)
Lemma shape_block_of_inv xs cap (blk : list (option T)) :
  length xs ≤ cap → shape blk = shape (block_of xs cap) →
  ∃ ys, length ys = length xs ∧ blk = block_of ys cap.
Proof.
  revert cap blk. induction xs as [|x xs IH]; intros cap blk Hle Hshape.
  - exists []. split; [done|]. rewrite block_of_nil in *.
    apply shape_all_raw. rewrite Hshape. unfold shape.
    by rewrite fmap_replicate.
  - destruct cap as [|cap]; [simpl in Hle; lia|].
    destruct blk as [|s blk]; [done|].
    unfold shape, block_of in Hshape. simpl in Hshape.
    injection Hshape as Hs Hrest. destruct s as [y|]; [|done].
    destruct (IH cap blk) as (ys & Hlen & ->); [simpl in Hle; lia|done|].
    exists (y :: ys). split; [simpl; by rewrite Hlen|done].
Qed.

(** X12. [Emplace] at a position that [int] holds, before [end()] or
    anywhere in a full vector, inserts the new element there, keeps the others in order and
    returns the position of the new element.  Both overloads of [Insert]
    are [Emplace] with a copy or a move.  With spare capacity it
    allocates nothing and moves each later element exactly once. *)
Theorem Emplace_inserts (w : World T) (a : addr) (v : Vector) (pre suf : list T)
    (how : ctor_kind) (x : T) :
  objs w !! a = Some v → repr (heap w) v (pre ++ suf) →
  heap w !! next_block w = None →
  length (pre ++ suf) = capacity_ (data_ v) ∨ suf ≠ [] →
  fits_int (length pre) →
  let inserted (e : event) (r : result T ptr) :=
    match r with
    | Ok p w' =>
        holds w' a (pre ++ x :: suf) ∧
        Vector.index a (length pre) w' = Ok p w' ∧ load p w' = Ok x w' ∧
        (length (pre ++ suf) < capacity_ (data_ v) →
           next_block w' = next_block w ∧
           capacity_at w' a = Some (capacity_ (data_ v)) ∧
           log w' = log w ++ [e; MoveCtor] ++ replicate (length suf - 1) MoveAssign
                          ++ [MoveAssign; Dtor])
    | Throw _ => True
    | Undefined => False
    end in
  inserted (event_of how) (Vector.Emplace a (length pre) how x w) ∧
  inserted CopyCtor (Vector.Insert a (length pre) x w) ∧
  inserted MoveCtor (Vector.Insert_move a (length pre) x w).
Proof.
  destruct w as [o h n fs l]. simpl. intros Ha Hr Hn Hpos _.
  pose proof Hr as (Hsz & Hcap & Hb). pose proof (grown_gt (size_ v)) as Hg.
  assert ((pre ++ x :: suf) !! length pre = Some x) as Hat.
  { rewrite lookup_app_r by done. by rewrite Nat.sub_diag. }
  assert (∀ how,
    match Vector.Emplace a (length pre) how x (mkWorld o h n fs l) with
    | Ok p w' =>
        holds w' a (pre ++ x :: suf) ∧
        Vector.index a (length pre) w' = Ok p w' ∧ load p w' = Ok x w' ∧
        (length (pre ++ suf) < capacity_ (data_ v) →
           next_block w' = n ∧
           capacity_at w' a = Some (capacity_ (data_ v)) ∧
           log w' = l ++ [event_of how; MoveCtor] ++ replicate (length suf - 1) MoveAssign
                      ++ [MoveAssign; Dtor])
    | Throw _ => True
    | Undefined => False
    end) as Hall; [|split_and!; apply Hall].
  clear how. intros how. as_wp.
  eapply wp_Emplace; [done..| | |done|done].
  - intros Hk fs'.
    assert (repr (set_block (buffer_ (data_ v))
                    (block_of (pre ++ [x] ++ suf) (capacity_ (data_ v))) h)
                 (mkVector (data_ v) (S (size_ v))) (pre ++ x :: suf)) as Hr'
      by (eapply (repr_resized_to _ _ (pre ++ suf) (pre ++ [x] ++ suf)); [done|len..]).
    split_and!; [by apply holds_insert| | |].
    + unfold Vector.index, Vector.get, RawMemory.index, bind; simpl.
      rewrite lookup_insert_eq. simpl. rewrite length_app in *.
      by rewrite !decide_True by lia.
    + pose proof (load_slot (mkWorld (<[a := mkVector (data_ v) (S (size_ v))]> o) _ n fs'
                    (l ++ [event_of how; MoveCtor] ++ replicate (length suf - 1) MoveAssign
                       ++ [MoveAssign; Dtor])) _ _ (length pre) Hr') as Hl.
      simpl in Hl. by rewrite Hat in Hl.
    + intros _. split_and!; [done|by rewrite capacity_at_insert|done].
  - intros Hk fs'.
    assert (repr (<[n := block_of (pre ++ [x] ++ suf) (grown (size_ v))]>
                    (release (buffer_ (data_ v)) h))
                 (mkVector (mkRawMemory (Some n) (grown (size_ v))) (S (size_ v)))
                 (pre ++ x :: suf)) as Hr'
      by (apply (repr_fresh_block_to _ _ _ _ (pre ++ [x] ++ suf)); len).
    split_and!; [by apply holds_insert| | |lia].
    + unfold Vector.index, Vector.get, RawMemory.index, bind; simpl.
      rewrite lookup_insert_eq. simpl. rewrite length_app in *.
      by rewrite !decide_True by lia.
    + pose proof (load_slot (mkWorld (<[a := mkVector (mkRawMemory (Some n) (grown (size_ v)))
                                                     (S (size_ v))]> o) _ (S n) fs'
                    (l ++ [Alloc] ++ ([event_of how] ++
                       replicate (length (pre ++ suf)) transfer_event)
                       ++ replicate (length (pre ++ suf)) Dtor
                       ++ release_log (buffer_ (data_ v))))
                    _ _ (length pre) Hr') as Hl.
      simpl in Hl. by rewrite Hat in Hl.
Qed.

(** X13. [Erase] at the position of an element, one that [int] holds,
    removes it, keeps the
    others in order and the capacity, and returns the same position, which
    now designates the element that followed, or [end()].  It performs one
    move assignment per later element and one destruction.  When a move
    assignment throws, the vector still satisfies its invariant with the
    size it had. *)
Theorem Erase_removes (w : World T) (a : addr) (v : Vector) (pre : list T) (y : T)
    (suf : list T) :
  objs w !! a = Some v → repr (heap w) v (pre ++ y :: suf) → fits_int (length pre) →
  match Vector.Erase a (length pre) w with
  | Ok p w' =>
      holds w' a (pre ++ suf) ∧ size_at w' a = Some (length (pre ++ suf)) ∧
      capacity_at w' a = Some (capacity_ (data_ v)) ∧
      p = (buffer_ (data_ v), length pre) ∧
      load p w' = match suf with z :: _ => Ok z w' | [] => Undefined end ∧
      (suf = [] → Vector.end_ a w' = Ok p w') ∧
      log w' = log w ++ replicate (length suf) MoveAssign ++ [Dtor] ∧
      next_block w' = next_block w
  | Throw w' =>
      ∃ ys, holds w' a ys ∧ length ys = length (pre ++ y :: suf) ∧
            capacity_at w' a = Some (capacity_ (data_ v))
  | Undefined => False
  end.
Proof.
  destruct w as [o h n fs l]. simpl. intros Ha Hr _. as_wp.
  pose proof Hr as (Hsz & Hcap & Hb).
  rewrite length_app in Hsz, Hcap. simpl in Hsz, Hcap.
  eapply wp_Erase; [done..| |].
  - intros fs'.
    assert (repr (set_block (buffer_ (data_ v))
                    (block_of (pre ++ suf) (capacity_ (data_ v))) h)
                 (mkVector (data_ v) (size_ v - 1)) (pre ++ suf)) as Hr'
      by (eapply (repr_resized_to _ _ (pre ++ y :: suf)); [done|len..]).
    split_and!; try done.
    + by apply holds_insert.
    + rewrite size_at_insert. simpl. f_equal. len.
    + by rewrite capacity_at_insert.
    + pose proof (load_slot (mkWorld (<[a := mkVector (data_ v) (size_ v - 1)]> o) _ n fs'
                    (l ++ replicate (length suf) MoveAssign ++ [Dtor]))
                    _ _ (length pre) Hr') as Hl.
      simpl in Hl. rewrite Hl. rewrite lookup_app_r by done. rewrite Nat.sub_diag.
      by destruct suf.
    + intros ->. unfold Vector.end_, Vector.get, RawMemory.plus, bind; simpl.
      rewrite lookup_insert_eq. simpl. rewrite decide_True by lia.
      do 2 f_equal. simpl in Hsz. lia.
  - intros fs' l' b blk' Hbuf Hshape.
    destruct (shape_block_of_inv (pre ++ y :: suf) (capacity_ (data_ v)) blk')
      as (ys & Hlen & ->); [len|done|].
    exists ys. split_and!; [|done|by rewrite (capacity_at_same _ _ _ _ _ _ v)].
    exists v. split; [done|]. simpl.
    split; [by rewrite Hlen, length_app|].
    split; [rewrite Hlen; len|]. rewrite Hbuf. by rewrite lookup_insert_eq.
Qed.


End InsertErase.

Section Executions.
Context {T : Type} `{!Element T}.
Implicit Types (w : World T) (v : Vector) (xs ys : list T).
Implicit Types (o : gmap addr Vector) (h : gmap addr (list (option T))).

(** The sizes and positions a call is given are those the machine
    integers of the source hold: a requested size has a byte size that
    [size_t] holds, a position is one that [int] holds. *)
Definition in_range (c : command (T := T)) : Prop :=
  match c with
  | ConstructSized _ k | DoReserve _ k | DoResize _ k => fits_size_t (T := T) k
  | DoEmplace _ pos _ _ | DoErase _ pos => fits_int pos
  | _ => True
  end.

(** The worlds reached by calls in contract and in range, each returning
    normally. *)
Inductive reachable_in_range : World T → Prop :=
  | in_range_start fs : reachable_in_range (start fs)
  | in_range_step w c w' :
      reachable_in_range w → in_contract w c → in_range c →
      run c w = Ok tt w' → reachable_in_range w'.

Lemma reachable_in_range_reachable w : reachable_in_range w → reachable w.
Proof.
  induction 1 as [fs|w c w' _ IH Hc _ Hrun]; [apply reachable_start|].
  by eapply reachable_step.
Qed.

(** With no failure scheduled, no call throws. *)
Lemma calm_run (c : command) : calm (run c).
Proof.
  unfold calm. destruct c; simpl; structure_for (calm_laws (T := T)).
Qed.

(** X15. Along every series of public calls made in contract, in range
    and returning normally, every vector satisfies the invariant of the
    class: [size_ <= capacity], the first [size_] slots of its block hold
    its elements and the others hold no object. *)
Theorem reachable_invariant (w : World T) (a : addr) (v : Vector) :
  reachable_in_range w → objs w !! a = Some v → ∃ xs, repr (heap w) v xs.
Proof.
  intros Hreach%reachable_in_range_reachable%reachable_wf.
  destruct Hreach as (Hinv & _). apply Hinv.
Qed.

(** X16. Along such executions two different vectors never own the same
    block, and every block of the heap was handed out by the allocator. *)
Theorem reachable_blocks_not_shared (w : World T) (a1 a2 : addr) (v1 v2 : Vector)
    (p : addr) :
  reachable w → objs w !! a1 = Some v1 → objs w !! a2 = Some v2 →
  buffer_ (data_ v1) = Some p → buffer_ (data_ v2) = Some p →
  a1 = a2 ∧ p < next_block w.
Proof.
  intros (Hinv & Hown & Hdom)%reachable_wf Ha1 Ha2 Hp1 Hp2.
  split; [by eapply Hown|]. apply Hdom.
  destruct (Hinv _ _ Ha1) as [xs Hr]. by eapply repr_block_exists.
Qed.

(** X17. From a well-formed world, every public call in contract and in
    range, other than the two unhandled ones, has defined behaviour: it
    returns or throws. *)
Theorem handled_calls_defined (w : World T) (c : command) :
  wf w → in_contract w c → in_range c → ¬ unhandled w c → run c w ≠ Undefined.
Proof.
  intros Hwf Hc _ Hh Hrun.
  pose proof (run_preserves_wf w c Hwf Hc) as Hstep. by rewrite Hrun in Hstep.
Qed.

(** X18. With no failure scheduled, [Emplace], hence [Insert], at [end()]
    of a vector with spare capacity has undefined behaviour, whatever the
    vector holds: on an empty vector [data_[size_ - 1]] is out of the
    block, and otherwise the range given to [std::move_backward] starts
    after its end. *)
Theorem Emplace_at_end_undefined (w : World T) (a : addr) (v : Vector)
    (how : ctor_kind) (x : T) :
  objs w !! a = Some v → size_ v < capacity_ (data_ v) → fits_int (size_ v) →
  faults w = [] →
  Vector.Emplace a (size_ v) how x w = Undefined ∧
  Vector.Insert a (size_ v) x w = Undefined ∧
  Vector.Insert_move a (size_ v) x w = Undefined.
Proof.
  intros Ha Hlt _ Hcalm.
  assert (∀ how, Vector.Emplace a (size_ v) how x w = Undefined) as Hall;
    [|split_and!; apply Hall].
  clear how. intros how.
  pose proof (Emplace_end_spare a v how x w Ha Hlt) as Hnever.
  pose proof (calm_run_inv _ w (calm_run (DoEmplace a (size_ v) how x)) Hcalm) as Hquiet.
  unfold never_ok in Hnever. simpl in Hquiet. unfold bind in Hquiet.
  by destruct (Vector.Emplace a (size_ v) how x w).
Qed.

(** X25. With no failure scheduled, every public call in contract and in
    range, other than the two unhandled ones, returns normally from a
    well-formed world, and leaves a well-formed world with no failure
    scheduled. *)
Theorem calm_calls_return (w : World T) (c : command) :
  wf w → in_contract w c → in_range c → ¬ unhandled w c → faults w = [] →
  ∃ w', run c w = Ok tt w' ∧ wf w' ∧ faults w' = [].
Proof.
  intros Hwf Hc _ Hh Hcalm.
  pose proof (run_preserves_wf w c Hwf Hc) as Hstep.
  pose proof (calm_run_inv _ w (calm_run c) Hcalm) as Hquiet.
  destruct (run c w) as [[] w'|w'|]; [|done|done].
  by exists w'.
Qed.

End Executions.

Section Frame.
Context {T : Type} `{!Element T}.
Implicit Types (w : World T) (v : Vector) (xs ys : list T).
Implicit Types (o : gmap addr Vector) (h : gmap addr (list (option T))).

(** The vectors a command may change: its left operand, and its right
    operand when the command moves from it or swaps with it. *)
Definition targets (c : command (T := T)) : list addr :=
  match c with
  | Construct a | ConstructSized a _ | ConstructCopy a _ | Destruct a | Assign a _
  | DoReserve a _ | DoResize a _ | DoPushBack a _ | DoPushBackMove a _
  | DoEmplaceBack a _ _ | DoEmplace a _ _ _ | DoErase a _ | DoPopBack a => [a]
  | ConstructMove a b | AssignMove a b | DoSwap a b => [a; b]
  end.

Lemma agree_set_block (buf : option addr) blk h p :
  buf ≠ Some p → set_block buf blk h !! p = h !! p.
Proof. intros Hp. destruct buf as [b|]; simpl; [|done]. rewrite lookup_insert_ne; congruence. Qed.

Lemma agree_fresh (buf : option addr) blk h n p :
  h !! n = None → buf ≠ Some p → is_Some (h !! p) →
  (<[n := blk]> (release buf h)) !! p = h !! p.
Proof.
  intros Hn Hp [x Hx]. rewrite lookup_insert_ne by congruence.
  destruct buf as [b|]; simpl; [|done]. rewrite lookup_delete_ne; congruence.
Qed.

Lemma agree_alloc blk h n p :
  h !! n = None → is_Some (h !! p) → (<[n := blk]> h) !! p = h !! p.
Proof. intros Hn [x Hx]. rewrite lookup_insert_ne; congruence. Qed.

Lemma agree_damaged (buf : option addr) h h' p :
  damaged buf h h' → buf ≠ Some p → h' !! p = h !! p.
Proof.
  intros [->|(b & blk & blk' & -> & _ & _ & ->)] Hp; [done|].
  rewrite lookup_insert_ne; congruence.
Qed.

Lemma frame_step o h n fs l (buf : option addr) b xs o' h' n' fs' l' :
  holds (mkWorld o h n fs l) b xs →
  (∀ vb p, o !! b = Some vb → buffer_ (data_ vb) = Some p → buf ≠ Some p) →
  o' !! b = o !! b →
  (∀ p, buf ≠ Some p → is_Some (h !! p) → h' !! p = h !! p) →
  holds (mkWorld o' h' n' fs' l') b xs ∧ o' !! b = o !! b.
Proof.
  intros (vb & Hb & Hr) Hown Ho Hh. simpl in *. split; [|done].
  exists vb. split; [simpl; congruence|]. simpl.
  eapply repr_frame; [done|]. intros p Hp. apply Hh; [by eapply Hown|].
  destruct Hr as (_ & _ & Hblk). rewrite Hp in Hblk. by rewrite Hblk.
Qed.

Local Ltac agree :=
  first [ done
        | by apply agree_set_block
        | by apply agree_fresh
        | by apply agree_alloc
        | by eapply agree_damaged
        | match goal with
          | H : after_throw _ _ _ |- _ => destruct H as [_ H]; by eapply agree_damaged
          end
        | match goal with
          | H : buffer_ _ = Some ?b |- (<[?b := _]> _) !! _ = _ =>
              rewrite lookup_insert_ne; [done|congruence]
          end ].

Local Ltac framed :=
  intros; cbv beta;
  eapply frame_step;
    [ eassumption
    | eassumption
    | simpl; rewrite ?lookup_insert_ne by congruence; done
    | intros ? ? ?; agree ].

(** X19. A call in contract and in range changes no vector but its
    targets: every other vector,
    the source of a copy included, keeps its members and its elements,
    whether the call returns or throws. *)
Theorem other_vectors_untouched (w : World T) (c : command) (b : addr) (xs : list T) :
  wf w → in_contract w c → in_range c → ¬ unhandled w c → b ∉ targets c →
  holds w b xs →
  match run c w with
  | Ok _ w' => holds w' b xs ∧ objs w' !! b = objs w !! b
  | Throw w' => holds w' b xs ∧ objs w' !! b = objs w !! b
  | Undefined => False
  end.
Proof.
  intros Hwf Hc _ Hh Hb Hxs. pose proof (wf_fresh w Hwf) as Hn.
  destruct w as [o h n fs l]. pose proof Hwf as (Hinv & Hown & Hdom). simpl in *.
  assert (∀ a v (buf : option addr), o !! a = Some v → b ≠ a → buf = buffer_ (data_ v) →
            ∀ vb p, o !! b = Some vb → buffer_ (data_ vb) = Some p → buf ≠ Some p)
    as Hother.
  { intros a v buf Ha Hne -> vb p Hvb Hp Hp'. by pose proof (Hown _ _ _ _ _ Hvb Ha Hp Hp'). }
  assert (∀ vb p, o !! b = Some vb → buffer_ (data_ vb) = Some p → (None : option addr) ≠ Some p)
    as Hnone by done.
  destruct c as [a|a k|a b0|a b0|a|a b0|a b0|a k|a k|a x|a x|a how x|a pos how x|a pos|a|a b0];
    simpl in Hc, Hh, Hb |- *.
  all: repeat match goal with
       | H : _ ∉ [_] |- _ => apply not_elem_of_cons in H as [? _]
       | H : _ ∉ [_; _] |- _ =>
           apply not_elem_of_cons in H as [? H]; apply not_elem_of_cons in H as [? _]
       end.
  - (* Construct *)
    as_wp. eapply wp_default_ctor; [done|]. framed.
  - (* ConstructSized *)
    as_wp. eapply wp_size_ctor; [done..| | |]; framed.
  - (* ConstructCopy *)
    destruct Hc as [Ha [vb0 Hb0]]. destruct (Hinv _ _ Hb0) as [ys Hr0].
    as_wp. eapply wp_copy_ctor; [done..| | |]; framed.
  - (* ConstructMove *)
    destruct Hc as [Ha [vb0 Hb0]].
    as_wp. eapply wp_move_ctor; [done..|]. framed.
  - (* Destruct *)
    destruct Hc as [v Ha]. destruct (Hinv _ _ Ha) as [ys Hr].
    pose proof (Hother a v _ Ha ltac:(done) eq_refl) as Hbuf.
    as_wp. eapply wp_dtor; [done..|]. cbv beta.
    eapply frame_step; [done|exact Hbuf|simpl; by rewrite lookup_delete_ne|].
    intros p Hp Hx. destruct (buffer_ (data_ v)) as [q|]; simpl; [|done].
    rewrite lookup_delete_ne; congruence.
  - (* Assign *)
    destruct Hc as [[va Ha] [vb0 Hb0]].
    destruct (decide (a = b0)) as [->|Hne].
    { unfold Vector.copy_assignment. rewrite decide_False by (by intros ?). by split. }
    destruct (Hinv _ _ Ha) as [ys Hra]. destruct (Hinv _ _ Hb0) as [zs Hrb].
    pose proof (Hother a va _ Ha ltac:(done) eq_refl) as Hbuf.
    as_wp. eapply wp_copy_assignment; [done..| | | | | |].
    + intros p Hpa Hpb. by pose proof (Hown _ _ _ _ _ Ha Hb0 Hpa Hpb).
    + done.
    + framed.
    + framed.
    + framed.
    + framed.
  - (* AssignMove *)
    destruct Hc as [[va Ha] [vb0 Hb0]].
    destruct (decide (a = b0)) as [->|Hne].
    { unfold Vector.move_assignment. rewrite decide_False by (by intros ?). by split. }
    as_wp. eapply wp_move_assignment; [done..|]. framed.
  - (* Reserve *)
    destruct Hc as [v Ha]. destruct (Hinv _ _ Ha) as [ys Hr].
    pose proof (Hother a v _ Ha ltac:(done) eq_refl) as Hbuf.
    as_wp. eapply wp_Reserve; [done..| | |]; framed.
  - (* Resize *)
    destruct Hc as [v Ha]. destruct (Hinv _ _ Ha) as [ys Hr].
    pose proof (Hother a v _ Ha ltac:(done) eq_refl) as Hbuf.
    as_wp. eapply wp_Resize; [done..| | | | |]; framed.
  - (* PushBack *)
    destruct Hc as [v Ha]. destruct (Hinv _ _ Ha) as [ys Hr].
    pose proof (Hother a v _ Ha ltac:(done) eq_refl) as Hbuf.
    rewrite PushBack_push_with. as_wp. eapply wp_push_with; [done..| | |]; framed.
  - (* PushBack, rvalue *)
    destruct Hc as [v Ha]. destruct (Hinv _ _ Ha) as [ys Hr].
    pose proof (Hother a v _ Ha ltac:(done) eq_refl) as Hbuf.
    rewrite PushBack_move_push_with. as_wp. eapply wp_push_with; [done..| | |]; framed.
  - (* EmplaceBack *)
    destruct Hc as [v Ha]. destruct (Hinv _ _ Ha) as [ys Hr].
    pose proof (Hother a v _ Ha ltac:(done) eq_refl) as Hbuf.
    as_wp. apply wp_bind. eapply wp_EmplaceBack; [done..| | |].
    + intros Hk fs'. apply wp_ret. framed.
    + intros Hk fs'. apply wp_ret. framed.
    + framed.
  - (* Emplace *)
    destruct Hc as (v & Ha & Hpos). destruct (Hinv _ _ Ha) as [ys Hr].
    pose proof (Hother a v _ Ha ltac:(done) eq_refl) as Hbuf.
    pose proof Hr as (Hsz & Hcap & Hblk).
    assert (∃ pre suf, ys = pre ++ suf ∧ pos = length pre) as (pre & suf & -> & ->).
    { exists (take pos ys), (drop pos ys). rewrite take_drop. split; [done|].
      rewrite length_take. lia. }
    as_wp. apply wp_bind. eapply wp_Emplace; [done..| | | | |].
    + rewrite length_app in *. destruct suf; [|by right]. left. simpl in *.
      destruct (decide (size_ v < capacity_ (data_ v))); [|lia].
      exfalso. apply Hh. exists v. split; [done|]. split; [lia|done].
    + intros Hk fs'. apply wp_ret. framed.
    + intros Hk fs'. apply wp_ret. framed.
    + framed.
    + framed.
  - (* Erase *)
    destruct Hc as (v & Ha & Hpos). destruct (Hinv _ _ Ha) as [ys Hr].
    pose proof (Hother a v _ Ha ltac:(done) eq_refl) as Hbuf.
    pose proof Hr as (Hsz & Hcap & Hblk).
    assert (∃ pre y suf, ys = pre ++ y :: suf ∧ pos = length pre)
      as (pre & y & suf & -> & ->).
    { destruct (drop pos ys) as [|y suf] eqn:Hdrop.
      { apply (f_equal length) in Hdrop. rewrite length_drop in Hdrop. simpl in Hdrop. lia. }
      exists (take pos ys), y, suf. rewrite <-Hdrop, take_drop. split; [done|].
      rewrite length_take. lia. }
    as_wp. apply wp_bind. eapply wp_Erase; [done..| |].
    + intros fs'. apply wp_ret. framed.
    + framed.
  - (* PopBack *)
    destruct Hc as [v Ha].
    as_wp. eapply PopBack_empty; [done| |by split].
    destruct (decide (size_ v = 0)); [done|]. exfalso. apply Hh. by exists v.
  - (* Swap *)
    destruct Hc as [[va Ha] [vb0 Hb0]].
    as_wp. eapply wp_Swap; [done..|]. framed.
Qed.

End Frame.

Section Compositions.
Context {T : Type} `{!Element T}.
Implicit Types (w : World T) (v : Vector) (xs ys : list T).
Implicit Types (o : gmap addr Vector) (h : gmap addr (list (option T))).

(** A client loop: [for (const T& x : xs) v.PushBack(x);] *)
Fixpoint push_all (a : addr) (xs : list T) : M T unit :=
  match xs with
  | [] => ret tt
  | x :: xs' => Vector.PushBack a x;; push_all a xs'
  end.

(** [fits k c]: [c] is 0 for no element, and otherwise the least power of
    two that is at least [k]. *)
Definition fits (k c : nat) : Prop :=
  (k = 0 ∧ c = 0) ∨ ∃ j, c = 2 ^ j ∧ k ≤ c ∧ c < 2 * k.

Lemma fits_push k c :
  fits k c → fits (S k) (if decide (c = k) then grown k else c).
Proof.
  intros [[-> ->]|(j & -> & Hle & Hlt)].
  - right. exists 0. rewrite decide_True by done. unfold grown. simpl. lia.
  - right. case_decide as Hfull.
    + exists (S j). unfold grown. rewrite decide_False by lia.
      rewrite Nat.pow_succ_r'. lia.
    + exists j. split; [done|]. lia.
Qed.

Lemma push_all_from (a : addr) (xs : list T) : ∀ w v xs0,
  wf w → objs w !! a = Some v → repr (heap w) v xs0 →
  fits (length xs0) (capacity_ (data_ v)) →
  match push_all a xs w with
  | Ok _ w' =>
      ∃ v', objs w' !! a = Some v' ∧ repr (heap w') v' (xs0 ++ xs) ∧
            fits (length (xs0 ++ xs)) (capacity_ (data_ v'))
  | Throw _ => True
  | Undefined => False
  end.
Proof.
  induction xs as [|x xs IH]; intros w v xs0 Hwf Ha Hr Hfits.
  - simpl. exists v. by rewrite app_nil_r.
  - simpl. unfold bind.
    pose proof (run_preserves_wf w (DoPushBack a x) Hwf (ex_intro _ v Ha)) as Hstep.
    pose proof (wf_fresh w Hwf) as Hn.
    assert (wp (Vector.PushBack a x) w
              (λ _ w', ∃ v', objs w' !! a = Some v' ∧ repr (heap w') v' (xs0 ++ [x]) ∧
                             fits (S (length xs0)) (capacity_ (data_ v')))
              (λ _, True)) as Hwp.
    { destruct w as [o h n fs l]. simpl in *.
      pose proof Hr as (Hsz & Hcap & Hb). pose proof (grown_gt (size_ v)) as Hg.
      pose proof (fits_push _ _ Hfits) as Hnext.
      rewrite PushBack_push_with. eapply wp_push_with; [done..| | |done].
      - intros Hk fs'. eexists. split; [simpl; by rewrite lookup_insert_eq|]. simpl.
        split.
        + eapply repr_resized_to; [done|rewrite length_app; simpl; lia|lia].
        + by rewrite decide_False in Hnext by lia.
      - intros Hk fs'. eexists. split; [simpl; by rewrite lookup_insert_eq|]. simpl.
        split.
        + apply repr_fresh_block_to; [rewrite length_app; simpl; lia|lia].
        + rewrite decide_True in Hnext by lia. by rewrite Hsz. }
    simpl in Hstep. unfold wp in Hwp.
    destruct (Vector.PushBack a x w) as [[] w1|w1|]; [|done|done].
    destruct Hwp as (v1 & Ha1 & Hr1 & Hfits1).
    pose proof (IH w1 v1 (xs0 ++ [x]) Hstep Ha1 Hr1) as Hrest.
    rewrite length_app, Nat.add_1_r in Hrest. specialize (Hrest Hfits1).
    by rewrite <-app_assoc in Hrest.
Qed.

(** X20. Pushing the elements of a list, one by one, onto a new vector
    leaves it holding the list in order, with a capacity that is the least
    power of two not below the size (0 for no element): the block is
    never more than twice as large as needed. *)
Theorem push_all_capacity (w : World T) (a : addr) (xs : list T) :
  wf w → objs w !! a = None →
  match (Vector.default_ctor a;; push_all a xs) w with
  | Ok _ w' =>
      holds w' a xs ∧
      ∃ c, capacity_at w' a = Some c ∧ fits (length xs) c
  | Throw _ => True
  | Undefined => False
  end.
Proof.
  intros Hwf Ha.
  pose proof (run_preserves_wf w (Construct a) Hwf Ha) as Hstep. simpl in Hstep.
  unfold bind.
  assert (Vector.default_ctor a w = Ok tt (set_objs <[a := mkVector (mkRawMemory None 0) 0]> w))
    as Hctor.
  { unfold Vector.default_ctor, Vector.new_object. by rewrite Ha. }
  rewrite Hctor in Hstep |- *.
  pose proof (push_all_from a xs _ (mkVector (mkRawMemory None 0) 0) [] Hstep) as Hall.
  destruct (push_all a xs _) as [[] w'|w'|]; [|done|].
  - destruct Hall as (v' & Ha' & Hr' & Hfits').
    + simpl. by rewrite lookup_insert_eq.
    + by repeat split.
    + by left.
    + split; [by exists v'|]. exists (capacity_ (data_ v')).
      split; [|done]. unfold capacity_at. by rewrite Ha'.
  - apply Hall; [simpl; by rewrite lookup_insert_eq|by repeat split|by left].
Qed.

(** X21. A moved-from vector is empty and safe to destroy: after move
    construction, destroying the source destroys no element and releases
    no block, and the new vector keeps the elements. *)
Theorem moved_from_is_destructible (w : World T) (a b : addr) (vb : Vector) (xs : list T) :
  objs w !! a = None → objs w !! b = Some vb → repr (heap w) vb xs →
  ∃ w', (Vector.move_ctor a b;; Vector.dtor b) w = Ok tt w' ∧
        holds w' a xs ∧ objs w' !! b = None ∧
        heap w' = heap w ∧ log w' = log w ∧ faults w' = faults w.
Proof.
  destruct w as [o h n fs l]. simpl. intros Ha Hb Hr.
  assert (a ≠ b) as Hab by congruence.
  eexists. split.
  - apply wp_equals, wp_bind. eapply wp_move_ctor; [done..|].
    eapply (wp_dtor _ _ []); [by rewrite lookup_insert_eq|by repeat split|].
    simpl. split; [done|]. rewrite app_nil_r. reflexivity.
  - simpl. split_and!; try done.
    + exists vb. split; [|done]. simpl.
      rewrite lookup_delete_ne by done. rewrite lookup_insert_ne by done.
      by rewrite lookup_insert_eq.
    + by rewrite lookup_delete_eq.
Qed.

End Compositions.

Section Storage.
Context {T : Type} `{!Element T}.
Implicit Types (w : World T).

(** X22. [RawMemory(n)], for an [n] whose byte size [size_t] holds,
    allocates one block of [n] slots holding no object, and nothing at all for [n = 0] (the buffer is [nullptr] and
    the constructor cannot throw); the destructor releases exactly that
    block, so construction followed by destruction restores the heap. *)
Theorem RawMemory_ctor_dtor (w : World T) (k : nat) :
  heap w !! next_block w = None → fits_size_t (T := T) k →
  match RawMemory.ctor k w with
  | Ok m w' =>
      capacity_ m = k ∧
      (k = 0 → buffer_ m = None ∧ w' = w) ∧
      (k ≠ 0 → buffer_ m = Some (next_block w) ∧
               heap w' = <[next_block w := replicate k None]> (heap w) ∧
               log w' = log w ++ [Alloc]) ∧
      ∃ w'', RawMemory.dtor m w' = Ok tt w'' ∧ heap w'' = heap w ∧ objs w'' = objs w
  | Throw w' => k ≠ 0 ∧ heap w' = heap w ∧ log w' = log w
  | Undefined => False
  end.
Proof.
  destruct w as [o h n fs l]. simpl. intros Hn _. as_wp.
  eapply wp_ctor.
  - intros Hk fs'. split_and!; try done.
    eexists. split.
    + apply wp_equals. unfold RawMemory.dtor. simpl.
      eapply wp_Deallocate; [by rewrite lookup_insert_eq|]. done.
    + simpl. by rewrite delete_insert_id.
  - intros ->. split_and!; try done. by eexists.
  - intros Hk fs'. done.
Qed.

End Storage.

Section References.
Context {T : Type} `{!Element T}.
Implicit Types (w : World T) (v : Vector) (xs ys : list T).

(** Reading an object does not depend on the log, the schedule of faults
    or blocks allocated since. *)
Lemma load_later (p : ptr) (x : T) w w1 w2 :
  load p w = Ok x w1 →
  (∀ b, is_Some (heap w !! b) → heap w2 !! b = heap w !! b) →
  load p w2 = Ok x w2.
Proof.
  unfold load, bind, peek. intros Hload Hh.
  destruct (p.1) as [b|]; [|done].
  destruct (heap w !! b) as [blk|] eqn:Hb; [|done].
  rewrite Hh by (by rewrite Hb). rewrite Hb.
  destruct (blk !! p.2) as [[y|]|]; [|done..].
  by injection Hload as -> _.
Qed.

Lemma copy_construct_value (dst src : ptr) (x : T) w :
  load src w = Ok x w →
  copy_construct dst src w = construct_from FromCopy dst x w.
Proof. intros Hload. unfold copy_construct, construct_from, bind at 1. by rewrite Hload. Qed.

Lemma uninitialized_copy_one (dst src : ptr) (x : T) w :
  load src w = Ok x w →
  uninitialized_copy_n src 1 dst w = construct_from FromCopy dst x w.
Proof.
  intros Hload. simpl. unfold bind at 1. rewrite (copy_construct_value dst src x w Hload).
  by destruct (construct_from FromCopy dst x w) as [[] ?| |].
Qed.

Lemma perform_frame e w (u : unit) w' :
  perform (T := T) e w = Ok u w' →
  objs w' = objs w ∧ heap w' = heap w ∧ next_block w' = next_block w.
Proof.
  unfold perform, bind, tick, emit, ret.
  destruct (may_throw e); [|by intros [= _ <-]].
  destruct (faults w) as [|[] fs]; [|done|]; by intros [= _ <-].
Qed.

(** With a reference to a live object, [PushBack(const T&)] behaves as
    with the value the object has at the call. *)
Lemma PushBack_ref_value (w : World T) (a : addr) (value : ptr) (x : T) :
  load value w = Ok x w → heap w !! next_block w = None →
  Vector.PushBack_ref a value w = Vector.PushBack a x w.
Proof.
  intros Hload Hn. unfold Vector.PushBack_ref, Vector.PushBack.
  unfold bind at 1. symmetry. unfold bind at 1. symmetry.
  destruct (Vector.get a w) as [v w0| |] eqn:Hget; [|done..].
  apply get_ok in Hget as [Ha ->].
  unfold bind at 1. symmetry. unfold bind at 1. symmetry.
  case_decide as Hfull.
  - set (k := if decide (size_ v = 0) then 1 else size_ v * 2).
    assert (k ≠ 0) as Hk by (unfold k; case_decide; lia).
    unfold bind at 1. symmetry. unfold bind at 1. symmetry.
    destruct (RawMemory.ctor k w) as [nd w1| |] eqn:Hctor; [|done..].
    assert (load value w1 = Ok x w1) as Hload1.
    { unfold RawMemory.ctor, RawMemory.Allocate, bind in Hctor.
      rewrite decide_True in Hctor by done.
      destruct (perform Alloc w) as [[] wp|wp|] eqn:Hp; [|done..].
      apply perform_frame in Hp as (_ & Hheap & Hnext).
      injection Hctor as _ <-.
      eapply load_later; [done|]. simpl. intros b Hb.
      rewrite Hheap, Hnext. rewrite lookup_insert_ne; [done|].
      intros <-. rewrite Hn in Hb. by destruct Hb. }
    unfold bind at 1. symmetry. unfold bind at 1. symmetry.
    unfold on_throw. unfold bind at 1. symmetry. unfold bind at 1. symmetry.
    by rewrite (uninitialized_copy_one _ value x w1 Hload1).
  - unfold bind at 1. symmetry. unfold bind at 1. symmetry.
    destruct (RawMemory.plus (data_ v) (size_ v) w) as [p w1| |] eqn:Hplus; [|done..].
    assert (w1 = w) as ->.
    { unfold RawMemory.plus in Hplus. case_decide; [|done]. by injection Hplus. }
    by rewrite (copy_construct_value p value x w Hload).
Qed.

(** X23. [v.PushBack(v[i])] is safe: given a reference to an element of
    the vector itself, [PushBack(const T&)] appends the value that element
    has at the call, also when the vector grows, because the new element
    is copied before any old element is transferred or destroyed. *)
Theorem PushBack_of_own_element (w : World T) (a : addr) (v : Vector) (xs : list T)
    (i : nat) (x : T) :
  objs w !! a = Some v → repr (heap w) v xs → xs !! i = Some x →
  heap w !! next_block w = None →
  match (p ← Vector.index a i; Vector.PushBack_ref a p) w with
  | Ok _ w' => holds w' a (xs ++ [x]) ∧ size_at w' a = Some (S (length xs))
  | Throw w' => objs w' = objs w
  | Undefined => False
  end.
Proof.
  intros Ha Hr Hi Hn. pose proof Hr as (Hsz & Hcap & Hb).
  pose proof (lookup_lt_Some _ _ _ Hi) as Hlt.
  assert (Vector.index a i w = Ok (buffer_ (data_ v), i) w) as Hidx.
  { unfold Vector.index, Vector.get, RawMemory.index, bind. rewrite Ha.
    by rewrite !decide_True by lia. }
  unfold bind at 1. rewrite Hidx.
  rewrite (PushBack_ref_value w a _ x); [|by rewrite (load_slot w v xs i Hr), Hi|done].
  destruct w as [o h n fs l]. simpl in *.
  pose proof (grown_gt (size_ v)) as Hg.
  rewrite PushBack_push_with. as_wp.
  eapply wp_push_with; [done..| | |done].
  - intros Hk fs'. split.
    + apply holds_resized with xs; [done|rewrite length_app; simpl; lia|lia].
    + rewrite size_at_insert. simpl. by rewrite Hsz.
  - intros Hk fs'. split.
    + apply holds_insert. apply repr_fresh_block_to; [rewrite length_app; simpl; lia|lia].
    + rewrite size_at_insert. simpl. by rewrite Hsz.
Qed.

End References.

Section Leaks.
Context {T : Type} `{!Element T}.
Implicit Types (w : World T) (v : Vector) (xs ys : list T).
Implicit Types (o : gmap addr Vector) (h : gmap addr (list (option T))).

(** [owned w]: every block of the heap is the block of some vector. *)
Definition owned (w : World T) : Prop :=
  ∀ p, is_Some (heap w !! p) →
       ∃ a v, objs w !! a = Some v ∧ buffer_ (data_ v) = Some p.

(** The target [a], whose block was [buf], gets the members [v']: every
    block of the new heap is the block of [v'] or an old block other than
    [buf]. *)
Lemma owned_target o h n fs l a (buf : option addr) v' h' n' fs' l' :
  owned (mkWorld o h n fs l) →
  (∀ v, o !! a = Some v → buffer_ (data_ v) = buf) →
  (∀ p, is_Some (h' !! p) →
        buffer_ (data_ v') = Some p ∨ (is_Some (h !! p) ∧ buf ≠ Some p)) →
  owned (mkWorld (<[a := v']> o) h' n' fs' l').
Proof.
  intros Hown Ha Hh p Hp. simpl in *.
  destruct (Hh p Hp) as [Hnew|[Hold Hne]].
  - exists a, v'. by rewrite lookup_insert_eq.
  - destruct (Hown p Hold) as (a2 & v2 & Ha2 & Hp2). simpl in *.
    exists a2, v2. split; [|done]. rewrite lookup_insert_ne; [done|].
    intros <-. apply Hne. by rewrite <-(Ha v2 Ha2).
Qed.

(** The objects stay and the heap gets no new block. *)
Lemma owned_heap o h n fs l h' n' fs' l' :
  owned (mkWorld o h n fs l) →
  (∀ p, is_Some (h' !! p) → is_Some (h !! p)) →
  owned (mkWorld o h' n' fs' l').
Proof. intros Hown Hh p Hp. apply Hown. simpl in *. by apply Hh. Qed.

Lemma blocks_set_block (buf : option addr) blk h p :
  is_Some (set_block buf blk h !! p) →
  buf = Some p ∨ (is_Some (h !! p) ∧ buf ≠ Some p).
Proof.
  destruct buf as [b|]; simpl.
  - destruct (decide (b = p)) as [->|]; [by left|].
    rewrite lookup_insert_ne by done. right. split; [done|congruence].
  - intros Hp. by right.
Qed.

Lemma blocks_fresh (buf : option addr) blk h n p :
  is_Some ((<[n := blk]> (release buf h)) !! p) →
  Some n = Some p ∨ (is_Some (h !! p) ∧ buf ≠ Some p).
Proof.
  destruct (decide (n = p)) as [->|]; [by left|].
  rewrite lookup_insert_ne by done. intros Hp. right.
  destruct buf as [b|]; simpl in *; [|done].
  apply lookup_delete_is_Some in Hp as [? ?]. split; [done|congruence].
Qed.

Lemma blocks_damaged (buf : option addr) h h' p :
  damaged buf h h' → is_Some (h' !! p) → is_Some (h !! p).
Proof.
  intros [->|(b & blk & blk' & -> & Hb & _ & ->)]; [done|].
  destruct (decide (b = p)) as [->|]; [by rewrite Hb|].
  by rewrite lookup_insert_ne.
Qed.

Lemma blocks_overwrite h v xs blk p :
  repr h v xs → is_Some (set_block (buffer_ (data_ v)) blk h !! p) → is_Some (h !! p).
Proof.
  intros (_ & _ & Hblk). destruct (buffer_ (data_ v)) as [b|]; simpl; [|done].
  destruct (decide (b = p)) as [->|]; [by rewrite Hblk|].
  by rewrite lookup_insert_ne.
Qed.

Lemma blocks_overwrite_at h v xs b blk p :
  repr h v xs → buffer_ (data_ v) = Some b →
  is_Some ((<[b := blk]> h) !! p) → is_Some (h !! p).
Proof.
  intros Hr Hb. pose proof (blocks_overwrite h v xs blk p Hr) as Hp.
  by rewrite Hb in Hp.
Qed.

Local Ltac target :=
  intros; cbv beta;
  eapply owned_target;
    [ eassumption
    | eassumption
    | intros ? ?; simpl;
      first [ by right
            | by eapply blocks_set_block
            | by eapply blocks_fresh
            | by eapply (blocks_fresh None) ] ].

Local Ltac kept :=
  intros; cbv beta;
  eapply owned_heap;
    [ eassumption
    | intros ? ?;
      first [ done
            | match goal with
              | H : is_Some (set_block (buffer_ (data_ ?v)) _ _ !! _), Hr : repr _ ?v _ |- _ =>
                  exact (blocks_overwrite _ _ _ _ _ Hr H)
              end
            | by eapply blocks_overwrite_at
            | by eapply blocks_damaged
            | match goal with
              | H : after_throw _ _ _ |- _ => destruct H as [_ H]; by eapply blocks_damaged
              end ] ].

(** X24. No call in contract and in range but move assignment leaks a
    block: when every block of the heap belongs to a vector before the
    call, the same holds after it, whether the call returns or throws. *)
Theorem blocks_stay_owned (w : World T) (c : command) :
  wf w → owned w → in_contract w c → in_range c → ¬ unhandled w c →
  (∀ a b, c ≠ AssignMove a b) →
  match run c w with
  | Ok _ w' => owned w'
  | Throw w' => owned w'
  | Undefined => False
  end.
Proof.
  intros Hwf Hown Hc _ Hh Hnm. pose proof (wf_fresh w Hwf) as Hn.
  destruct w as [o h n fs l]. pose proof Hwf as (Hinv & Hone & Hdom). simpl in *.
  assert (∀ a v, o !! a = Some v → ∀ v0, o !! a = Some v0 → buffer_ (data_ v0) = buffer_ (data_ v))
    as Hsame by (intros; congruence).
  assert (∀ a, o !! a = None → ∀ v0, o !! a = Some v0 → buffer_ (data_ v0) = None)
    as Habsent by (intros; congruence).
  destruct c as [a|a k|a b0|a b0|a|a b0|a b0|a k|a k|a x|a x|a how x|a pos how x|a pos|a|a b0];
    simpl in Hc, Hh |- *.
  - (* Construct *)
    pose proof (Habsent a Hc) as Hbuf.
    as_wp. eapply wp_default_ctor; [done|]. target.
  - (* ConstructSized *)
    pose proof (Habsent a Hc) as Hbuf.
    as_wp. eapply wp_size_ctor; [done..| | |]; [target|target|kept].
  - (* ConstructCopy *)
    destruct Hc as [Ha [vb0 Hb0]]. destruct (Hinv _ _ Hb0) as [ys Hr0].
    pose proof (Habsent a Ha) as Hbuf.
    as_wp. eapply wp_copy_ctor; [done..| | |]; [target|target|kept].
  - (* ConstructMove *)
    destruct Hc as [Ha [vb0 Hb0]].
    as_wp. eapply wp_move_ctor; [done..|]. cbv beta.
    intros p Hp. destruct (Hown p Hp) as (c & vc & Hc & Hpc). simpl in *.
    destruct (decide (c = b0)) as [->|Hcb].
    + exists a, vb0. split; [|congruence].
      rewrite lookup_insert_ne by congruence. by rewrite lookup_insert_eq.
    + exists c, vc. split; [|done].
      rewrite !lookup_insert_ne by congruence. done.
  - (* Destruct *)
    destruct Hc as [v Ha]. destruct (Hinv _ _ Ha) as [ys Hr].
    as_wp. eapply wp_dtor; [done..|]. cbv beta.
    intros p Hp. simpl in *.
    assert (is_Some (h !! p) ∧ buffer_ (data_ v) ≠ Some p) as [Hold Hne].
    { destruct (buffer_ (data_ v)) as [q|]; simpl in *; [|done].
      apply lookup_delete_is_Some in Hp as [? ?]. split; [done|congruence]. }
    destruct (Hown p Hold) as (c & vc & Hc & Hpc). simpl in *.
    exists c, vc. split; [|done]. rewrite lookup_delete_ne; [done|]. congruence.
  - (* Assign *)
    destruct Hc as [[va Ha] [vb0 Hb0]].
    destruct (decide (a = b0)) as [->|Hne].
    { unfold Vector.copy_assignment. by rewrite decide_False by (by intros ?). }
    destruct (Hinv _ _ Ha) as [ys Hra]. destruct (Hinv _ _ Hb0) as [zs Hrb].
    pose proof (Hsame a va Ha) as Hbuf.
    as_wp. eapply wp_copy_assignment; [done..| | | | | |].
    + intros p Hpa Hpb. by pose proof (Hone _ _ _ _ _ Ha Hb0 Hpa Hpb).
    + done.
    + target.
    + target.
    + kept.
    + kept.
  - (* AssignMove *)
    by destruct (Hnm a b0).
  - (* Reserve *)
    destruct Hc as [v Ha]. destruct (Hinv _ _ Ha) as [ys Hr].
    pose proof (Hsame a v Ha) as Hbuf.
    as_wp. eapply wp_Reserve; [done..| | |]; [kept|target|kept].
  - (* Resize *)
    destruct Hc as [v Ha]. destruct (Hinv _ _ Ha) as [ys Hr].
    pose proof (Hsame a v Ha) as Hbuf.
    as_wp. eapply wp_Resize; [done..| | | | |]; [target|target|target|kept|target].
  - (* PushBack *)
    destruct Hc as [v Ha]. destruct (Hinv _ _ Ha) as [ys Hr].
    pose proof (Hsame a v Ha) as Hbuf.
    rewrite PushBack_push_with. as_wp.
    eapply wp_push_with; [done..| | |]; [target|target|kept].
  - (* PushBack, rvalue *)
    destruct Hc as [v Ha]. destruct (Hinv _ _ Ha) as [ys Hr].
    pose proof (Hsame a v Ha) as Hbuf.
    rewrite PushBack_move_push_with. as_wp.
    eapply wp_push_with; [done..| | |]; [target|target|kept].
  - (* EmplaceBack *)
    destruct Hc as [v Ha]. destruct (Hinv _ _ Ha) as [ys Hr].
    pose proof (Hsame a v Ha) as Hbuf.
    as_wp. apply wp_bind. eapply wp_EmplaceBack; [done..| | |].
    + intros Hk fs'. apply wp_ret. target.
    + intros Hk fs'. apply wp_ret. target.
    + kept.
  - (* Emplace *)
    destruct Hc as (v & Ha & Hpos). destruct (Hinv _ _ Ha) as [ys Hr].
    pose proof (Hsame a v Ha) as Hbuf.
    pose proof Hr as (Hsz & Hcap & Hblk).
    assert (∃ pre suf, ys = pre ++ suf ∧ pos = length pre) as (pre & suf & -> & ->).
    { exists (take pos ys), (drop pos ys). rewrite take_drop. split; [done|].
      rewrite length_take. lia. }
    as_wp. apply wp_bind. eapply wp_Emplace; [done..| | | | |].
    + rewrite length_app in *. destruct suf; [|by right]. left. simpl in *.
      destruct (decide (size_ v < capacity_ (data_ v))); [|lia].
      exfalso. apply Hh. exists v. split; [done|]. split; [lia|done].
    + intros Hk fs'. apply wp_ret. target.
    + intros Hk fs'. apply wp_ret. target.
    + kept.
    + kept.
  - (* Erase *)
    destruct Hc as (v & Ha & Hpos). destruct (Hinv _ _ Ha) as [ys Hr].
    pose proof (Hsame a v Ha) as Hbuf.
    pose proof Hr as (Hsz & Hcap & Hblk).
    assert (∃ pre y suf, ys = pre ++ y :: suf ∧ pos = length pre)
      as (pre & y & suf & -> & ->).
    { destruct (drop pos ys) as [|y suf] eqn:Hdrop.
      { apply (f_equal length) in Hdrop. rewrite length_drop in Hdrop. simpl in Hdrop. lia. }
      exists (take pos ys), y, suf. rewrite <-Hdrop, take_drop. split; [done|].
      rewrite length_take. lia. }
    as_wp. apply wp_bind. eapply wp_Erase; [done..| |].
    + intros fs'. apply wp_ret. target.
    + kept.
  - (* PopBack *)
    destruct Hc as [v Ha].
    as_wp. eapply PopBack_empty; [done| |done].
    destruct (decide (size_ v = 0)); [done|]. exfalso. apply Hh. by exists v.
  - (* Swap *)
    destruct Hc as [[va Ha] [vb0 Hb0]].
    as_wp. eapply wp_Swap; [done..|]. cbv beta.
    intros p Hp. destruct (Hown p Hp) as (c & vc & Hc & Hpc). simpl in *.
    destruct (decide (c = a)) as [->|Hca]; [|destruct (decide (c = b0)) as [->|Hcb]].
    + exists b0, va. split; [by rewrite lookup_insert_eq|congruence].
    + exists a, vb0. split; [|congruence].
      rewrite lookup_insert_ne by congruence. by rewrite lookup_insert_eq.
    + exists c, vc. split; [|done]. by rewrite !lookup_insert_ne by congruence.
Qed.

End Leaks.

(** ** The further properties at concrete vectors *)

Local Ltac repr_here := split; [reflexivity|split; [simpl; lia|reflexivity]].

Lemma wf_small_and_large : wf small_and_large.
Proof.
  split_and!; simpl.
  - intros a v [[<- <-]|[_ [<- <-]%lookup_singleton_Some]]%lookup_insert_Some.
    + exists [1; 2]. repr_here.
    + exists [7; 8; 9]. repr_here.
  - intros a1 a2 v1 v2 p H1 H2 Hp1 Hp2.
    apply lookup_insert_Some in H1 as [[<- <-]|[_ [<- <-]%lookup_singleton_Some]];
    apply lookup_insert_Some in H2 as [[<- <-]|[_ [<- <-]%lookup_singleton_Some]];
    simpl in *; congruence.
  - intros p [blk [[<- _]|[_ [<- _]%lookup_singleton_Some]]%lookup_insert_Some]; lia.
Qed.

Lemma wf_one_vector : wf one_vector.
Proof.
  split_and!; simpl.
  - intros a v [<- <-]%lookup_singleton_Some. exists [5]. repr_here.
  - intros a1 a2 v1 v2 p [<- _]%lookup_singleton_Some [<- _]%lookup_singleton_Some _ _.
    reflexivity.
  - intros p [blk [<- _]%lookup_singleton_Some]. lia.
Qed.

Lemma size_ctor_spec_witness :
  match Vector.size_ctor 1 2 calm_vector with
  | Ok _ w' => holds w' 1 [0; 0]
  | _ => False
  end.
Proof.
  pose proof (size_ctor_spec calm_vector 1 2 eq_refl eq_refl eq_refl) as H.
  destruct (Vector.size_ctor 1 2 calm_vector) eqn:E;
    [apply H|vm_compute in E; discriminate E|vm_compute in E; discriminate E].
Defined.

Lemma copy_ctor_spec_witness :
  match Vector.copy_ctor 1 0 one_vector with
  | Ok _ w' => holds w' 1 [5] ∧ capacity_at w' 1 = Some 1
  | _ => False
  end.
Proof.
  assert (repr (heap one_vector) (mkVector (mkRawMemory (Some 0) 2) 1) [5]) as Hr
    by repr_here.
  pose proof (copy_ctor_spec one_vector 1 0 _ [5] eq_refl eq_refl Hr eq_refl) as H.
  destruct (Vector.copy_ctor 1 0 one_vector) eqn:E;
    [|vm_compute in E; discriminate E|vm_compute in E; discriminate E].
  split; apply H.
Defined.

Lemma dtor_spec_witness :
  Vector.dtor 0 calm_vector = Ok tt (mkWorld ∅ ∅ 1 [] [Dtor; Dtor; Dealloc]).
Proof.
  assert (repr (heap calm_vector) (mkVector (mkRawMemory (Some 0) 2) 2) [1; 2]) as Hr
    by repr_here.
  rewrite (dtor_spec calm_vector 0 _ [1; 2] eq_refl Hr). reflexivity.
Defined.

Lemma copy_then_destroy_restores_witness :
  match (Vector.copy_ctor 1 0;; Vector.dtor 1) one_vector with
  | Ok _ w' => objs w' = objs one_vector ∧ heap w' = heap one_vector
  | _ => False
  end.
Proof.
  assert (repr (heap one_vector) (mkVector (mkRawMemory (Some 0) 2) 1) [5]) as Hr
    by repr_here.
  pose proof (copy_then_destroy_restores one_vector 1 0 _ [5] eq_refl eq_refl Hr eq_refl) as H.
  destruct ((Vector.copy_ctor 1 0;; Vector.dtor 1) one_vector) eqn:E;
    [|vm_compute in E; discriminate E|vm_compute in E; discriminate E].
  split; apply H.
Defined.

Lemma index_spec_witness :
  (p ← Vector.index 0 0; load p) one_vector = Ok 5 one_vector ∧
  Vector.index 0 1 one_vector = Undefined.
Proof.
  assert (repr (heap one_vector) (mkVector (mkRawMemory (Some 0) 2) 1) [5]) as Hr
    by repr_here.
  split.
  - exact (proj1 (index_spec one_vector 0 _ [5] 0 eq_refl Hr)).
  - apply (index_spec one_vector 0 _ [5] 1 eq_refl Hr). simpl. lia.
Defined.

Lemma iterators_span_elements_witness :
  Vector.end_ 0 one_vector = Ok (Some 0, 1) one_vector ∧
  Vector.Size 0 one_vector = Ok 1 one_vector.
Proof.
  assert (repr (heap one_vector) (mkVector (mkRawMemory (Some 0) 2) 1) [5]) as Hr
    by repr_here.
  pose proof (iterators_span_elements one_vector 0 _ [5] eq_refl Hr) as H.
  split; apply H.
Defined.

Lemma Swap_exchanges_witness :
  ∃ w', Vector.Swap 0 1 small_and_large = Ok tt w' ∧
        holds w' 0 [7; 8; 9] ∧ holds w' 1 [1; 2].
Proof.
  assert (repr (heap small_and_large) (mkVector (mkRawMemory (Some 0) 2) 2) [1; 2]) as Hr0
    by repr_here.
  assert (repr (heap small_and_large) (mkVector (mkRawMemory (Some 1) 3) 3) [7; 8; 9]) as Hr1
    by repr_here.
  destruct (Swap_exchanges small_and_large 0 1 _ _ [1; 2] [7; 8; 9] eq_refl eq_refl Hr0 Hr1)
    as (w' & Hrun & _ & _ & Ha & Hb & _).
  exists w'. split; [exact Hrun|split; [exact Ha|exact Hb]].
Defined.

Lemma Reserve_keeps_elements_witness :
  match Vector.Reserve 0 5 calm_vector with
  | Ok _ w' => holds w' 0 [1; 2] ∧ capacity_at w' 0 = Some 5
  | _ => False
  end.
Proof.
  assert (repr (heap calm_vector) (mkVector (mkRawMemory (Some 0) 2) 2) [1; 2]) as Hr
    by repr_here.
  pose proof (Reserve_keeps_elements calm_vector 0 _ [1; 2] 5 eq_refl Hr eq_refl eq_refl)
    as H.
  destruct (Vector.Reserve 0 5 calm_vector) eqn:E;
    [|vm_compute in E; discriminate E|vm_compute in E; discriminate E].
  split; apply H.
Defined.

Lemma Resize_spec_witness :
  match Vector.Resize 0 4 calm_vector with
  | Ok _ w' => holds w' 0 [1; 2; 0; 0] ∧ capacity_at w' 0 = Some 4
  | _ => False
  end.
Proof.
  assert (repr (heap calm_vector) (mkVector (mkRawMemory (Some 0) 2) 2) [1; 2]) as Hr
    by repr_here.
  pose proof (Resize_spec calm_vector 0 _ [1; 2] 4 eq_refl Hr eq_refl eq_refl) as H.
  destruct (Vector.Resize 0 4 calm_vector) eqn:E;
    [|vm_compute in E; discriminate E|vm_compute in E; discriminate E].
  split; apply H.
Defined.

Lemma PushBack_appends_witness :
  match Vector.PushBack 0 6 one_vector with
  | Ok _ w' => holds w' 0 [5; 6] ∧ log w' = [CopyCtor]
  | _ => False
  end.
Proof.
  assert (repr (heap one_vector) (mkVector (mkRawMemory (Some 0) 2) 1) [5]) as Hr
    by repr_here.
  destruct (PushBack_appends one_vector 0 _ [5] 6 eq_refl Hr eq_refl) as [H _].
  destruct (Vector.PushBack 0 6 one_vector) eqn:E;
    [|vm_compute in E; discriminate E|vm_compute in E; discriminate E].
  destruct H as (Hh & _ & Hroom). split; [exact Hh|]. apply Hroom. simpl. lia.
Defined.

Lemma EmplaceBack_returns_last_witness :
  match Vector.EmplaceBack 0 FromArgs 6 one_vector with
  | Ok p w' => holds w' 0 [5; 6] ∧ load p w' = Ok 6 w'
  | _ => False
  end.
Proof.
  assert (repr (heap one_vector) (mkVector (mkRawMemory (Some 0) 2) 1) [5]) as Hr
    by repr_here.
  pose proof (EmplaceBack_returns_last one_vector 0 _ [5] FromArgs 6 eq_refl Hr eq_refl) as H.
  destruct (Vector.EmplaceBack 0 FromArgs 6 one_vector) eqn:E;
    [|vm_compute in E; discriminate E|vm_compute in E; discriminate E].
  split; apply H.
Defined.

Lemma Emplace_inserts_witness :
  match Vector.Insert 0 1 9 calm_vector with
  | Ok p w' => holds w' 0 [1; 9; 2] ∧ load p w' = Ok 9 w'
  | _ => False
  end.
Proof.
  assert (repr (heap calm_vector) (mkVector (mkRawMemory (Some 0) 2) 2) ([1] ++ [2])) as Hr
    by repr_here.
  destruct (Emplace_inserts calm_vector 0 _ [1] [2] FromCopy 9 eq_refl Hr eq_refl
              (or_introl eq_refl) eq_refl) as (_ & H & _).
  change (length [1]) with 1 in H.
  destruct (Vector.Insert 0 1 9 calm_vector) eqn:E;
    [|vm_compute in E; discriminate E|vm_compute in E; discriminate E].
  split; apply H.
Defined.

Lemma Erase_removes_witness :
  match Vector.Erase 0 0 calm_vector with
  | Ok p w' => holds w' 0 [2] ∧ load p w' = Ok 2 w'
  | _ => False
  end.
Proof.
  assert (repr (heap calm_vector) (mkVector (mkRawMemory (Some 0) 2) 2) ([] ++ 1 :: [2])) as Hr
    by repr_here.
  pose proof (Erase_removes calm_vector 0 _ [] 1 [2] eq_refl Hr eq_refl) as H.
  change (length []) with 0 in H.
  destruct (Vector.Erase 0 0 calm_vector) eqn:E;
    [|vm_compute in E; discriminate E|vm_compute in E; discriminate E].
  destruct H as (Hh & _ & _ & _ & Hl & _). split; [exact Hh|exact Hl].
Defined.


(** The world after two calls from the empty world: a vector of two
    elements is constructed, then a third element is pushed. *)
Definition after_two_calls : World nat :=
  match (Vector.size_ctor 0 2;; Vector.PushBack 0 4) (start []) with
  | Ok _ w => w
  | _ => start []
  end.

Lemma in_range_after_two_calls : reachable_in_range after_two_calls.
Proof.
  eapply (in_range_step _ (DoPushBack 0 4)).
  - eapply (in_range_step _ (ConstructSized 0 2)); [apply (in_range_start [])| | |].
    + reflexivity.
    + reflexivity.
    + vm_compute. reflexivity.
  - simpl. eexists. reflexivity.
  - exact I.
  - vm_compute. reflexivity.
Qed.

Lemma reachable_after_two_calls : reachable after_two_calls.
Proof. apply reachable_in_range_reachable, in_range_after_two_calls. Qed.

Lemma reachable_invariant_witness :
  ∃ xs, repr (heap after_two_calls) (mkVector (mkRawMemory (Some 1) 4) 3) xs.
Proof.
  apply (reachable_invariant after_two_calls 0).
  - apply in_range_after_two_calls.
  - vm_compute. reflexivity.
Defined.

Lemma reachable_blocks_not_shared_witness :
  0 = 0 ∧ 1 < next_block after_two_calls.
Proof.
  apply (reachable_blocks_not_shared after_two_calls 0 0
           (mkVector (mkRawMemory (Some 1) 4) 3) (mkVector (mkRawMemory (Some 1) 4) 3) 1).
  - apply reachable_after_two_calls.
  - vm_compute. reflexivity.
  - vm_compute. reflexivity.
  - reflexivity.
  - reflexivity.
Defined.

Lemma handled_calls_defined_witness :
  run (DoPushBack 0 6) one_vector ≠ Undefined.
Proof.
  apply (handled_calls_defined one_vector (DoPushBack 0 6)).
  - apply wf_one_vector.
  - simpl. eexists. reflexivity.
  - exact I.
  - simpl. intros [].
Defined.

Lemma Emplace_at_end_undefined_witness :
  Vector.Emplace 0 1 FromArgs 6 one_vector = Undefined ∧
  Vector.Insert 0 1 6 one_vector = Undefined ∧
  Vector.Insert_move 0 1 6 one_vector = Undefined.
Proof.
  apply (Emplace_at_end_undefined one_vector 0 (mkVector (mkRawMemory (Some 0) 2) 1)
           FromArgs 6).
  - reflexivity.
  - simpl. lia.
  - reflexivity.
  - reflexivity.
Defined.

Lemma calm_calls_return_witness :
  ∃ w', run (DoPushBack 0 6) one_vector = Ok tt w' ∧ wf w' ∧ faults w' = [].
Proof.
  apply (calm_calls_return one_vector (DoPushBack 0 6)).
  - apply wf_one_vector.
  - simpl. eexists. reflexivity.
  - exact I.
  - simpl. intros [].
  - reflexivity.
Defined.

Lemma other_vectors_untouched_witness :
  match run (DoPushBack 0 3) small_and_large with
  | Ok _ w' => holds w' 1 [7; 8; 9]
  | Throw w' => holds w' 1 [7; 8; 9]
  | Undefined => False
  end.
Proof.
  assert (holds small_and_large 1 [7; 8; 9]) as Hh.
  { eexists. split; [reflexivity|]. repr_here. }
  assert (1 ∉ targets (DoPushBack 0 3)) as Hout.
  { simpl. apply not_elem_of_cons. split; [lia|apply not_elem_of_nil]. }
  pose proof (other_vectors_untouched small_and_large (DoPushBack 0 3) 1 [7; 8; 9]
                wf_small_and_large (ex_intro _ _ eq_refl) I (λ H : False, H) Hout Hh) as H.
  destruct (run (DoPushBack 0 3) small_and_large); [apply H|apply H|exact H].
Defined.

Lemma push_all_capacity_witness :
  match (Vector.default_ctor 0;; push_all 0 [1; 2; 3]) (start []) with
  | Ok _ w' => holds w' 0 [1; 2; 3] ∧ ∃ c, capacity_at w' 0 = Some c ∧ fits 3 c
  | _ => False
  end.
Proof.
  pose proof (push_all_capacity (start []) 0 [1; 2; 3] (wf_start []) eq_refl) as H.
  destruct ((Vector.default_ctor 0;; push_all 0 [1; 2; 3]) (start [])) eqn:E;
    [exact H|vm_compute in E; discriminate E|vm_compute in E; discriminate E].
Defined.

Lemma moved_from_is_destructible_witness :
  ∃ w', (Vector.move_ctor 1 0;; Vector.dtor 0) one_vector = Ok tt w' ∧
        holds w' 1 [5] ∧ heap w' = heap one_vector.
Proof.
  assert (repr (heap one_vector) (mkVector (mkRawMemory (Some 0) 2) 1) [5]) as Hr
    by repr_here.
  destruct (moved_from_is_destructible one_vector 1 0 _ [5] eq_refl eq_refl Hr)
    as (w' & Hrun & Hh & _ & Hheap & _).
  exists w'. split; [exact Hrun|split; [exact Hh|exact Hheap]].
Defined.

Lemma RawMemory_ctor_dtor_witness :
  match RawMemory.ctor 3 calm_vector with
  | Ok m w' => capacity_ m = 3 ∧ buffer_ m = Some 1
  | _ => False
  end.
Proof.
  pose proof (RawMemory_ctor_dtor calm_vector 3 eq_refl eq_refl) as H.
  destruct (RawMemory.ctor 3 calm_vector) eqn:E;
    [|vm_compute in E; discriminate E|vm_compute in E; discriminate E].
  destruct H as (Hc & _ & Hb & _). split; [exact Hc|]. apply Hb. lia.
Defined.

Lemma PushBack_of_own_element_witness :
  match (p ← Vector.index 0 0; Vector.PushBack_ref 0 p) calm_vector with
  | Ok _ w' => holds w' 0 [1; 2; 1]
  | _ => False
  end.
Proof.
  assert (repr (heap calm_vector) (mkVector (mkRawMemory (Some 0) 2) 2) [1; 2]) as Hr
    by repr_here.
  pose proof (PushBack_of_own_element calm_vector 0 _ [1; 2] 0 1 eq_refl Hr eq_refl eq_refl)
    as H.
  destruct ((p ← Vector.index 0 0; Vector.PushBack_ref 0 p) calm_vector) eqn:E;
    [apply H|vm_compute in E; discriminate E|vm_compute in E; discriminate E].
Defined.

Lemma owned_small_and_large : owned small_and_large.
Proof.
  intros p [blk Hp]. simpl in Hp.
  apply lookup_insert_Some in Hp as [[<- _]|[_ [<- _]%lookup_singleton_Some]].
  - exists 0, (mkVector (mkRawMemory (Some 0) 2) 2). split; reflexivity.
  - exists 1, (mkVector (mkRawMemory (Some 1) 3) 3). split; reflexivity.
Qed.

Lemma blocks_stay_owned_witness :
  match run (DoPushBack 0 3) small_and_large with
  | Ok _ w' => owned w'
  | _ => False
  end.
Proof.
  pose proof (blocks_stay_owned small_and_large (DoPushBack 0 3)
                wf_small_and_large owned_small_and_large (ex_intro _ _ eq_refl) I
                (λ H : False, H)) as H.
  destruct (run (DoPushBack 0 3) small_and_large) eqn:E;
    [apply H; intros ? ?; discriminate
    |vm_compute in E; discriminate E|vm_compute in E; discriminate E].
Defined.
